(** * AnkiMorphs: the Recalc engine ([ankimorphs/recalc.py])

    A shallow embedding of the morpheme cache readers, the priority
    ranker, the difficulty scorer, the queue updater and the highlighter,
    together with the properties stated about them. *)

From stdpp Require Import gmap strings list sorting.
From Stdlib Require Import ZArith Lia.
From Equations Require Import Equations.

Local Open Scope Z_scope.

(** ** Python values *)

(** A Python [str] is a sequence of Unicode code points; [len] counts code
    points, and so does [length] here. *)
Abbreviation str := (list N).

(** Reading the UTF-8 bytes of a literal into code points. *)
Definition utf8_step (st : N * nat * list N) (b : N) : N * nat * list N :=
  let '(cur, need, out) := st in
  match need with
  | O =>
      if (b <? 128)%N then (0%N, O, out ++ [b])
      else if (b <? 224)%N then ((b - 192)%N, 1%nat, out)
      else if (b <? 240)%N then ((b - 224)%N, 2%nat, out)
      else ((b - 240)%N, 3%nat, out)
  | S n =>
      let cur' := (cur * 64 + (b - 128))%N in
      match n with
      | O => (0%N, O, out ++ [cur'])
      | S _ => (cur', n, out)
      end
  end.

Definition py (s : string) : str :=
  snd (foldl utf8_step (0%N, O, [])
         (map Ascii.N_of_ascii (String.list_ascii_of_string s))).

(** Exceptions the engine raises or lets through. *)
Inductive exn : Set :=
| KeyError
| IndexError
| AssertionError
| NotFoundError
| DefaultSettingsException
| CancelledRecalcException.

Inductive result (A : Type) : Type :=
| Ok (a : A)
| Raise (e : exn).
Arguments Ok {A} a.
Arguments Raise {A} e.

#[global] Instance result_ret : MRet result := λ A a, Ok a.
#[global] Instance result_bind : MBind result := λ A B k m,
  match m with
  | Ok a => k a
  | Raise e => Raise e
  end.

(** [d[k]] on a dict: the value, or [KeyError]. *)
Definition dict_get {V} (d : gmap str V) (k : str) : result V :=
  match d !! k with
  | Some v => Ok v
  | None => Raise KeyError
  end.

(** ** Configuration ([AnkiMorphsConfig], [AnkiMorphsConfigFilter])

    Only the attributes that [recalc.py] reads. *)
Record AnkiMorphsConfig : Type := {
  parse_ignore_suspended_cards_content : bool;
  recalc_interval_for_known : Z;
  recalc_prioritize_collection : bool;
  skip_stale_cards : bool;
  tag_ready : str;
  tag_not_ready : str;
  tag_known : str
}.

Record AnkiMorphsConfigFilter : Type := {
  note_type : str;
  note_type_id : option Z;
  tags : list str;
  morphemizer_name : str;
  field_index : option Z;
  focus_morph_field_index : option Z;
  difficulty_field_index : option Z;
  highlighted_field_index : option Z
}.

(** ** The cache tables ([AnkiMorphsDB]) *)

Record CardRow : Type := {
  cr_card_id : Z;
  cr_note_id : Z;
  cr_note_type_id : option Z;
  cr_card_type : Z;
  cr_fields : list str;
  cr_tags : list str
}.

Record MorphRow : Type := {
  mr_norm : str;
  mr_base : str;
  mr_inflected : str;
  mr_is_base : bool;
  mr_highest_learning_interval : Z
}.

Record CardMorphRow : Type := {
  cm_card_id : Z;
  cm_morph_norm : str;
  cm_morph_inflected : str
}.

Record AnkiMorphsDB : Type := {
  Cards : list CardRow;
  Morphs : list MorphRow;
  Card_Morph_Map : list CardMorphRow
}.

(** ** Readers of the cache *)

(** The key under which a morpheme is stored everywhere: [row[0] + row[1]]. *)
Definition morph_key (norm inflected : str) : str := norm ++ inflected.

(** [get_morph_cache]: later rows overwrite earlier ones with the same key. *)
Definition get_morph_cache (am_db : AnkiMorphsDB) : gmap str Z :=
  foldl (λ morph_cache row,
           <[morph_key (mr_norm row) (mr_inflected row)
             := mr_highest_learning_interval row]> morph_cache)
        ∅ (Morphs am_db).

(** One entry of a card's morpheme list:
    [{"entire_morph": ..., "inflected_morph": ...}]. *)
Record morph_entry : Type := {
  entire_morph : str;
  inflected_morph : str
}.

Definition entry_of_row (row : CardMorphRow) : morph_entry :=
  {| entire_morph := morph_key (cm_morph_norm row) (cm_morph_inflected row);
     inflected_morph := cm_morph_inflected row |}.

(** The loop of [get_card_morph_map_cache]: a row whose card id differs from
    the previous row's starts a fresh list, otherwise it is appended. *)
Fixpoint card_morph_map_loop (rows : list CardMorphRow)
    (card_id_outer : option Z) (cache : gmap Z (list morph_entry))
    : gmap Z (list morph_entry) :=
  match rows with
  | [] => cache
  | row :: rest =>
      let card_id_inner := cm_card_id row in
      if decide (Some card_id_inner = card_id_outer)
      then card_morph_map_loop rest card_id_outer
             (alter (λ l, l ++ [entry_of_row row]) card_id_inner cache)
      else card_morph_map_loop rest (Some card_id_inner)
             (<[card_id_inner := [entry_of_row row]]> cache)
  end.

Definition get_card_morph_map_cache (am_db : AnkiMorphsDB)
    : gmap Z (list morph_entry) :=
  card_morph_map_loop (Card_Morph_Map am_db) None ∅.

(** ** Priority ranker *)

(** [Counter(temp_list)]: counts, in order of first occurrence. *)
Fixpoint counter_add (k : str) (c : list (str * Z)) : list (str * Z) :=
  match c with
  | [] => [(k, 1)]
  | (k', n) :: c' =>
      if decide (k = k') then (k', n + 1) :: c'
      else (k', n) :: counter_add k c'
  end.

Definition Counter (l : list str) : list (str * Z) :=
  foldl (λ c k, counter_add k c) [] l.

(** Python's [sorted] and [list.sort] are stable.  [sorted_by precedes l]
    sorts [l] so that [y] stays in front of [x] whenever [precedes y x];
    elements that do not precede one another keep their order. *)
Fixpoint insert_by {A} (precedes : A → A → bool) (x : A) (l : list A) : list A :=
  match l with
  | [] => [x]
  | y :: l' =>
      if precedes y x then y :: insert_by precedes x l' else x :: y :: l'
  end.

Definition sorted_by {A} (precedes : A → A → bool) (l : list A) : list A :=
  foldr (insert_by precedes) [] l.

(** [sorted(..., key=lambda item: item[1], reverse=True)]: largest count
    first. *)
Definition sorted_by_count_desc (l : list (str * Z)) : list (str * Z) :=
  sorted_by (λ y x, snd x <? snd y) l.

(** The rank of a key is its position in the sorted order. *)
Definition enumerate_keys (l : list (str * Z)) : gmap str Z :=
  list_to_map (imap (λ index item, (fst item, Z.of_nat index)) l).

Definition get_morph_collection_priority (am_db : AnkiMorphsDB) : gmap str Z :=
  let temp_list :=
    map (λ row, morph_key (cm_morph_norm row) (cm_morph_inflected row))
        (Card_Morph_Map am_db) in
  enumerate_keys (sorted_by_count_desc (Counter temp_list)).

Definition get_morph_priority (am_db : AnkiMorphsDB)
    (am_config : AnkiMorphsConfig) : gmap str Z :=
  if recalc_prioritize_collection am_config
  then get_morph_collection_priority am_db
  else ∅.

(** ** Difficulty scorer *)

Definition default_difficulty : Z := 2147483647.
Definition morph_unknown_penalty : Z := 500000.

(** The [for morph in card_morphs] loop, threading [difficulty] and
    [unknowns]; either dict access may raise [KeyError]. *)
Fixpoint score_loop (morph_cache morph_priority : gmap str Z)
    (card_morphs : list morph_entry) (difficulty : Z) (unknowns : list str)
    : result (Z * list str) :=
  match card_morphs with
  | [] => Ok (difficulty, unknowns)
  | morph :: rest =>
      highest_interval ← dict_get morph_cache (entire_morph morph);
      let is_unknown := highest_interval =? 0 in
      let unknowns :=
        if is_unknown then unknowns ++ [inflected_morph morph] else unknowns in
      priority ← dict_get morph_priority (entire_morph morph);
      score_loop morph_cache morph_priority rest (difficulty + priority) unknowns
  end.

Definition get_card_difficulty_and_unknowns (am_config : AnkiMorphsConfig)
    (card_id : Z) (card_morph_map_cache : gmap Z (list morph_entry))
    (morph_cache morph_priority : gmap str Z) : result (Z * list str) :=
  match card_morph_map_cache !! card_id with
  | None => Ok (default_difficulty, [])
  | Some card_morphs =>
      '(difficulty, unknowns) ←
        score_loop morph_cache morph_priority card_morphs 0 [];
      let difficulty :=
        if morph_unknown_penalty <=? difficulty
        then morph_unknown_penalty - 1 else difficulty in
      let difficulty :=
        difficulty + Z.of_nat (length unknowns) * morph_unknown_penalty in
      if (Nat.eqb (length unknowns) 0) && skip_stale_cards am_config
      then Ok (default_difficulty, unknowns)
      else Ok (difficulty, unknowns)
  end.

(** ** Notes and tags *)

Record Note : Type := {
  note_id : Z;
  note_fields : list str;
  note_tags : list str
}.

(** [list.remove(x)]: drops the first occurrence. *)
Fixpoint list_remove (x : str) (l : list str) : list str :=
  match l with
  | [] => []
  | y :: l' => if decide (x = y) then l' else y :: list_remove x l'
  end.

Definition tag_add (t : str) (tags : list str) : list str :=
  if decide (t ∈ tags) then tags else tags ++ [t].

Definition tag_discard (t : str) (tags : list str) : list str :=
  if decide (t ∈ tags) then list_remove t tags else tags.

Definition set_tags (note : Note) (tags : list str) : Note :=
  {| note_id := note_id note; note_fields := note_fields note;
     note_tags := tags |}.

Definition update_tags (am_config : AnkiMorphsConfig) (note : Note)
    (unknowns : Z) : Note :=
  if unknowns =? 0 then
    set_tags note
      (tag_discard (tag_ready am_config)
         (tag_add (tag_known am_config) (note_tags note)))
  else if unknowns =? 1 then
    set_tags note
      (tag_discard (tag_not_ready am_config)
         (tag_add (tag_ready am_config) (note_tags note)))
  else
    set_tags note (tag_add (tag_not_ready am_config) (note_tags note)).

(** ** The host collection *)

Definition CARD_TYPE_NEW : Z := 0.

Record Card : Type := {
  card_id : Z;
  card_nid : Z;
  card_type : Z;
  card_due : Z
}.

Definition set_due (card : Card) (due : Z) : Card :=
  {| card_id := card_id card; card_nid := card_nid card;
     card_type := card_type card; card_due := due |}.

Definition set_fields (note : Note) (fields : list str) : Note :=
  {| note_id := note_id note; note_fields := fields;
     note_tags := note_tags note |}.

(** The collection stores one row per card id and per note id; [Card] and
    [Note] are the objects loaded from those rows. *)
Record CardData : Type := {
  cd_nid : Z;
  cd_type : Z;
  cd_due : Z
}.

Record NoteData : Type := {
  nd_fields : list str;
  nd_tags : list str
}.

Definition card_data (card : Card) : CardData :=
  {| cd_nid := card_nid card; cd_type := card_type card;
     cd_due := card_due card |}.

Definition note_data (note : Note) : NoteData :=
  {| nd_fields := note_fields note; nd_tags := note_tags note |}.

Record Collection : Type := {
  col_cards : gmap Z CardData;
  col_notes : gmap Z NoteData;
  col_tag_registry : list str
}.

(** What the Source Data Reader hands over for one card ([AnkiCardData]) and
    what the tokenizer returns ([Morpheme]). *)
Record AnkiCardData : Type := {
  acd_interval : Z;
  acd_type : Z;
  acd_note_id : Z;
  acd_fields : list str;
  acd_tags : list str;
  acd_known_tag : bool;
  acd_expression : str
}.

Record Morpheme : Type := {
  norm : str;
  base : str;
  inflected : str
}.

(** ** State and exceptions

    The engine runs against the cache tables, the host collection and the
    answers of [mw.progress.want_cancel()], one per call.  An exception
    leaves the state as it was when it was raised. *)
Record World : Type := {
  am_db : AnkiMorphsDB;
  col : Collection;
  cancel_requests : list bool
}.

Definition Op (A : Type) : Type := World → result A * World.

#[global] Instance Op_ret : MRet Op := λ A a w, (Ok a, w).
#[global] Instance Op_bind : MBind Op := λ A B k m w,
  match m w with
  | (Ok a, w') => k a w'
  | (Raise e, w') => (Raise e, w')
  end.

Definition raise {A} (e : exn) : Op A := λ w, (Raise e, w).
Definition lift {A} (r : result A) : Op A := λ w, (r, w).
Definition get_db : Op AnkiMorphsDB := λ w, (Ok (am_db w), w).
Definition put_db (db : AnkiMorphsDB) : Op unit := λ w,
  (Ok (), {| am_db := db; col := col w; cancel_requests := cancel_requests w |}).
Definition get_col : Op Collection := λ w, (Ok (col w), w).
Definition put_col (c : Collection) : Op unit := λ w,
  (Ok (), {| am_db := am_db w; col := c; cancel_requests := cancel_requests w |}).

Definition want_cancel : Op bool := λ w,
  match cancel_requests w with
  | [] => (Ok false, w)
  | b :: rest =>
      (Ok b, {| am_db := am_db w; col := col w; cancel_requests := rest |})
  end.

(** [if counter % 1000 == 0: if mw.progress.want_cancel(): raise ...] *)
Definition checkpoint (counter : nat) : Op unit :=
  if (counter mod 1000 =? 0)%nat then
    cancel ← want_cancel;
    if (cancel : bool) then raise CancelledRecalcException else mret ()
  else mret ().

(** *** Methods of [AnkiMorphsDB] *)

(** Modelled from the spec: [AnkiMorphsDB.drop_all_tables] is defined in
    [ankimorphs_db], which is not among the sources; the cache is fully
    dropped and recreated at the start of every run. *)
Definition drop_all_tables : Op unit :=
  put_db {| Cards := []; Morphs := []; Card_Morph_Map := [] |}.

(** Modelled from the spec: [AnkiMorphsDB.create_all_tables], also in
    [ankimorphs_db]; it recreates the tables, which are empty lists here
    once dropped. *)
Definition create_all_tables : Op unit := mret ().

(** Modelled from the spec: [AnkiMorphsDB.insert_many_into_morph_table];
    one row per distinct (norm, inflected) pair, and the interval kept is
    the largest recorded. *)
Fixpoint insert_morph_row (row : MorphRow) (table : list MorphRow) : list MorphRow :=
  match table with
  | [] => [row]
  | r :: table' =>
      if decide (mr_norm r = mr_norm row ∧ mr_inflected r = mr_inflected row)
      then (if mr_highest_learning_interval r <? mr_highest_learning_interval row
            then row else r) :: table'
      else r :: insert_morph_row row table'
  end.

Definition insert_many_into_morph_table (rows : list MorphRow) : Op unit :=
  db ← get_db;
  put_db {| Cards := Cards db;
            Morphs := foldl (λ t r, insert_morph_row r t) (Morphs db) rows;
            Card_Morph_Map := Card_Morph_Map db |}.

(** Modelled from the spec: [AnkiMorphsDB.insert_many_into_card_table]; one
    row is recorded per card handed over. *)
Definition insert_many_into_card_table (rows : list CardRow) : Op unit :=
  db ← get_db;
  put_db {| Cards := Cards db ++ rows; Morphs := Morphs db;
            Card_Morph_Map := Card_Morph_Map db |}.

(** Modelled from the spec:
    [AnkiMorphsDB.insert_many_into_card_morph_map_table]; one row per
    morpheme of a card. *)
Definition insert_many_into_card_morph_map_table (rows : list CardMorphRow)
    : Op unit :=
  db ← get_db;
  put_db {| Cards := Cards db; Morphs := Morphs db;
            Card_Morph_Map := Card_Morph_Map db ++ rows |}.

(** *** Methods of the collection *)

(** [mw.col.get_card(card_id)] and [card.note()] load a fresh object. *)
Definition get_card (id : Z) : Op Card :=
  c ← get_col;
  match col_cards c !! id with
  | Some row =>
      mret {| card_id := id; card_nid := cd_nid row; card_type := cd_type row;
              card_due := cd_due row |}
  | None => raise NotFoundError
  end.

Definition card_note (card : Card) : Op Note :=
  c ← get_col;
  match col_notes c !! card_nid card with
  | Some row =>
      mret {| note_id := card_nid card; note_fields := nd_fields row;
              note_tags := nd_tags row |}
  | None => raise NotFoundError
  end.

(** [tag_manager.set_collapsed(tag, collapsed=False)] registers the tag. *)
Definition set_collapsed (tag : str) : Op unit :=
  c ← get_col;
  put_col {| col_cards := col_cards c; col_notes := col_notes c;
             col_tag_registry := tag_add tag (col_tag_registry c) |}.

(** [mw.col.db.scalar("select count() from cards where type = 0")] *)
Definition count_new_cards : Op Z :=
  c ← get_col;
  mret (Z.of_nat (size (filter (λ kv, cd_type kv.2 = CARD_TYPE_NEW)
                               (col_cards c)))).

(** [mw.col.update_cards] and [mw.col.update_notes] store the objects in
    the order of the list. *)
Definition col_update_cards (cards : list Card) : Op unit :=
  c ← get_col;
  put_col {| col_cards := foldl (λ m card, <[card_id card := card_data card]> m)
                                (col_cards c) cards;
             col_notes := col_notes c;
             col_tag_registry := col_tag_registry c |}.

Definition col_update_notes (notes : list Note) : Op unit :=
  c ← get_col;
  put_col {| col_cards := col_cards c;
             col_notes := foldl (λ m note, <[note_id note := note_data note]> m)
                                (col_notes c) notes;
             col_tag_registry := col_tag_registry c |}.

(** ** Lists and dicts of Python *)

(** The position that index [i] denotes in a list of length [n]; negative
    indices count from the end. *)
Definition py_index (n : nat) (i : Z) : option nat :=
  if (0 <=? i) && (i <? Z.of_nat n) then Some (Z.to_nat i)
  else if (i <? 0) && (- Z.of_nat n <=? i) then Some (Z.to_nat (Z.of_nat n + i))
  else None.

(** [l[i]] and [l[i] = v], raising [IndexError] out of range. *)
Definition list_get (l : list str) (i : Z) : result str :=
  match py_index (length l) i with
  | Some k => match l !! k with Some v => Ok v | None => Raise IndexError end
  | None => Raise IndexError
  end.

Definition list_set (l : list str) (i : Z) (v : str) : result (list str) :=
  match py_index (length l) i with
  | Some k => Ok (<[k := v]> l)
  | None => Raise IndexError
  end.

(** A dict keeps its keys in the order of first insertion. *)
Fixpoint odict_set {V} (k : Z) (v : V) (d : list (Z * V)) : list (Z * V) :=
  match d with
  | [] => [(k, v)]
  | (k', v') :: d' =>
      if decide (k = k') then (k, v) :: d' else (k', v') :: odict_set k v d'
  end.

(** [str(n)] for an integer. *)
Fixpoint digits (u : Decimal.uint) : str :=
  match u with
  | Decimal.Nil => []
  | Decimal.D0 u => 48%N :: digits u
  | Decimal.D1 u => 49%N :: digits u
  | Decimal.D2 u => 50%N :: digits u
  | Decimal.D3 u => 51%N :: digits u
  | Decimal.D4 u => 52%N :: digits u
  | Decimal.D5 u => 53%N :: digits u
  | Decimal.D6 u => 54%N :: digits u
  | Decimal.D7 u => 55%N :: digits u
  | Decimal.D8 u => 56%N :: digits u
  | Decimal.D9 u => 57%N :: digits u
  end.

Definition str_of_int (n : Z) : str :=
  match Z.to_int n with
  | Decimal.Pos u => digits u
  | Decimal.Neg u => 45%N :: digits u
  end.

(** ** Regular expressions of the highlighter *)

Definition span_open : str := py "<span".
Definition span_close : str := py "</span>".
Definition newline : N := 10%N.
Definition dquote : N := 34%N.

(** [.*?</span>]: the length of the shortest match at the head of [u].  The
    dot does not match a line break. *)
Fixpoint find_close (u : str) : option nat :=
  if decide (span_close `prefix_of` u) then Some (length span_close)
  else match u with
       | [] => None
       | c :: u' =>
           if decide (c = newline) then None else S <$> find_close u'
       end.

(** [<span.*?</span>] at the head of [s]: the length of the match. *)
Definition span_match (s : str) : option nat :=
  if decide (span_open `prefix_of` s)
  then (λ k, length span_open + k)%nat <$> find_close (drop (length span_open) s)
  else None.

Definition push_front (c : N) (l : list str) : list str :=
  match l with
  | [] => [[c]]
  | x :: l' => (c :: x) :: l'
  end.

(** [re.split("(<span.*?</span>)", string)]: the pieces between the matches
    alternate with the matches themselves, [[s0; m1; s1; ...; mk; sk]]. *)
Equations? re_split_span (s : str) : list str by wf (length s) lt :=
  re_split_span [] := [[]];
  re_split_span (c :: s') with span_match (c :: s') => {
    | Some n := [] :: take n (c :: s') :: re_split_span (drop (Nat.pred n) s');
    | None := push_front c (re_split_span s') }.
Proof.
  all: simpl; try rewrite length_drop; lia.
Qed.

(** The characters that are not literal in a pattern. *)
Definition regex_special : str := py ".^$*+?{}[]\|()".

Definition regex_plain (m : str) : bool :=
  forallb (λ c, bool_decide (c ∉ regex_special)) m.

Section Engine.

(** Which characters [re.IGNORECASE] identifies. *)
Variable ignorecase : N → N → bool.

(** The literal [m] matches at the head of [s], ignoring case. *)
Fixpoint imatch (m s : str) : bool :=
  match m, s with
  | [], _ => true
  | _ :: _, [] => false
  | a :: m', b :: s' => ignorecase a b && imatch m' s'
  end.

(** [re.sub(f"({m})", repl, s, flags=re.IGNORECASE)] for a pattern [m]
    without special characters ([regex_plain]): the leftmost matches,
    not overlapping, are each replaced by [repl] of the matched text.
    The empty pattern matches before every character and at the end. *)
Equations? re_sub (m : str) (repl : str → str) (s : str) : str
    by wf (length s) lt :=
  re_sub m repl [] := if imatch m [] then repl [] else [];
  re_sub m repl (c :: s') with imatch m (c :: s') => {
    | false := c :: re_sub m repl s';
    | true with m => {
        | [] := repl [] ++ c :: re_sub [] repl s';
        | _ :: m' :=
            repl (take (length m) (c :: s'))
              ++ re_sub m repl (drop (length m') s') } }.
Proof.
  all: simpl; try rewrite length_drop; lia.
Qed.

(** [non_span_sub]: pieces that start with [<span] are copied, the others
    are substituted. *)
Definition non_span_sub (sub : str) (repl : str → str) (string : str) : str :=
  foldl (λ txt span,
           if decide (span_open `prefix_of` span) then txt ++ span
           else txt ++ re_sub sub repl span)
        [] (re_split_span string).

(** [f'<span morph-status="{morph_status}">\\1</span>'] applied to the
    matched text. *)
Definition replacement (morph_status : str) (matched : str) : str :=
  py "<span morph-status=" ++ [dquote] ++ morph_status ++ [dquote]
    ++ py ">" ++ matched ++ span_close.

Definition morph_status_of (am_config : AnkiMorphsConfig)
    (highest_interval : Z) : str :=
  if highest_interval =? 0 then py "unknown"
  else if highest_interval <? recalc_interval_for_known am_config
       then py "learning"
       else py "known".

(** [sorted(card_morphs, key=lambda x: len(x["inflected_morph"]),
    reverse=True)]. *)
Definition sorted_morphs (card_morphs : list morph_entry) : list morph_entry :=
  sorted_by (λ y x, bool_decide
               (length (inflected_morph x) < length (inflected_morph y))%nat)
            card_morphs.

Fixpoint highlight_loop (am_config : AnkiMorphsConfig)
    (morph_cache : gmap str Z) (morphs : list morph_entry)
    (highlighted_text : str) : result str :=
  match morphs with
  | [] => Ok highlighted_text
  | morph :: rest =>
      highest_interval ← dict_get morph_cache (entire_morph morph);
      let morph_status := morph_status_of am_config highest_interval in
      highlight_loop am_config morph_cache rest
        (non_span_sub (inflected_morph morph) (replacement morph_status)
           highlighted_text)
  end.

Definition highlight_text (am_config : AnkiMorphsConfig)
    (card_morphs : list morph_entry) (morph_cache : gmap str Z)
    (text_to_highlight : str) : result str :=
  highlight_loop am_config morph_cache (sorted_morphs card_morphs)
    text_to_highlight.

(** *** Writing the note fields *)

Definition update_focus_morph_field (config_filter : AnkiMorphsConfigFilter)
    (note : Note) (unknowns : list str) : result Note :=
  match focus_morph_field_index config_filter with
  | Some index =>
      if 0 <? index then
        let focus_morph_string := concat (map (λ unknown, unknown ++ py ", ") unknowns) in
        let focus_morph_string :=
          take (length focus_morph_string - 2) focus_morph_string in
        fields ← list_set (note_fields note) (index - 1) focus_morph_string;
        mret (set_fields note fields)
      else mret note
  | None => mret note
  end.

Definition update_difficulty_field (config_filter : AnkiMorphsConfigFilter)
    (note : Note) (difficulty : Z) : result Note :=
  match difficulty_field_index config_filter with
  | Some index =>
      if 0 <? index then
        fields ← list_set (note_fields note) (index - 1) (str_of_int difficulty);
        mret (set_fields note fields)
      else mret note
  | None => mret note
  end.

Definition update_highlighted_field (am_config : AnkiMorphsConfig)
    (config_filter : AnkiMorphsConfigFilter)
    (card_morph_map_cache : gmap Z (list morph_entry))
    (morph_cache : gmap str Z) (card_id : Z) (note : Note) : result Note :=
  match card_morph_map_cache !! card_id with
  | None => mret note
  | Some card_morphs =>
      match highlighted_field_index config_filter with
      | Some index =>
          match field_index config_filter with
          | None => Raise AssertionError
          | Some source =>
              if 0 <? index then
                text_to_highlight ← list_get (note_fields note) source;
                highlighted_text ←
                  highlight_text am_config card_morphs morph_cache
                    text_to_highlight;
                fields ← list_set (note_fields note) (index - 1) highlighted_text;
                mret (set_fields note fields)
              else mret note
          end
      | None => mret note
      end
  end.

(** *** Collaborators outside the engine *)

(** The enabled filters of the configuration. *)
Variable get_read_enabled_filters : list AnkiMorphsConfigFilter.
Variable get_modify_enabled_filters : list AnkiMorphsConfigFilter.

(** The Source Data Reader: the cards of a filter, keyed by card id, in
    the order in which the dict yields them. *)
Variable create_card_data_dict :
  AnkiMorphsConfigFilter → option Z → list str → bool → Collection →
  list (Z * AnkiCardData).

(** The tokenizer adapter; [None] when the morphemizer is not found. *)
Variable get_card_morphs :
  str → AnkiMorphsConfig → AnkiMorphsConfigFilter → option (list Morpheme).

(** *** Building the cache *)

Definition table_data : Type :=
  list CardRow * list MorphRow * list CardMorphRow.

Definition cache_card (am_config : AnkiMorphsConfig)
    (config_filter : AnkiMorphsConfigFilter) (card_id : Z)
    (card_data : AnkiCardData) (data : table_data) : table_data :=
  let '(card_table_data, morph_table_data, card_morph_map_table_data) := data in
  let highest_interval :=
    if acd_known_tag card_data then recalc_interval_for_known am_config
    else acd_interval card_data in
  let card_table_data :=
    card_table_data ++
      [{| cr_card_id := card_id; cr_note_id := acd_note_id card_data;
          cr_note_type_id := note_type_id config_filter;
          cr_card_type := acd_type card_data;
          cr_fields := acd_fields card_data;
          cr_tags := acd_tags card_data |}] in
  match get_card_morphs (acd_expression card_data) am_config config_filter with
  | None => (card_table_data, morph_table_data, card_morph_map_table_data)
  | Some morphs =>
      (card_table_data,
       morph_table_data ++
         map (λ morph,
                {| mr_norm := norm morph; mr_base := base morph;
                   mr_inflected := inflected morph;
                   mr_is_base := bool_decide (norm morph = inflected morph);
                   mr_highest_learning_interval := highest_interval |})
             morphs,
       card_morph_map_table_data ++
         map (λ morph,
                {| cm_card_id := card_id; cm_morph_norm := norm morph;
                   cm_morph_inflected := inflected morph |})
             morphs)
  end.

Fixpoint cache_cards_loop (am_config : AnkiMorphsConfig)
    (config_filter : AnkiMorphsConfigFilter)
    (cards : list (Z * AnkiCardData)) (counter : nat) (data : table_data)
    : Op table_data :=
  match cards with
  | [] => mret data
  | (card_id, card_data) :: rest =>
      checkpoint counter;;
      cache_cards_loop am_config config_filter rest (S counter)
        (cache_card am_config config_filter card_id card_data data)
  end.

Fixpoint cache_filters_loop (am_config : AnkiMorphsConfig)
    (filters : list AnkiMorphsConfigFilter) (data : table_data)
    : Op table_data :=
  match filters with
  | [] => mret data
  | config_filter :: rest =>
      if decide (note_type config_filter = [])
      then raise DefaultSettingsException
      else
        c ← get_col;
        let card_data_dict :=
          create_card_data_dict config_filter (note_type_id config_filter)
            (tags config_filter)
            (parse_ignore_suspended_cards_content am_config) c in
        data ← cache_cards_loop am_config config_filter card_data_dict 0 data;
        cache_filters_loop am_config rest data
  end.

Definition cache_anki_data (am_config : AnkiMorphsConfig) : Op unit :=
  drop_all_tables;;
  create_all_tables;;
  '(card_table_data, morph_table_data, card_morph_map_table_data) ←
    cache_filters_loop am_config get_read_enabled_filters ([], [], []);
  insert_many_into_morph_table morph_table_data;;
  insert_many_into_card_table card_table_data;;
  insert_many_into_card_morph_map_table card_morph_map_table_data.

(** *** Updating the queue *)

(** [get_am_cards_data_dict]: the card ids of a note type, as the dict
    yields them. *)
Definition get_am_cards_data_dict (db : AnkiMorphsDB) (note_type_id : Z)
    : list (Z * CardRow) :=
  foldl (λ d row, odict_set (cr_card_id row) row d) []
        (filter (λ row, cr_note_type_id row = Some note_type_id) (Cards db)).

(** The body of the loop over the cards of one filter. *)
Definition update_card (am_config : AnkiMorphsConfig)
    (config_filter : AnkiMorphsConfigFilter)
    (card_morph_map_cache : gmap Z (list morph_entry))
    (morph_cache morph_priority : gmap str Z) (id : Z) : Op (Card * Note) :=
  card ← get_card id;
  note ← card_note card;
  '(card, note) ←
    (if decide (card_type card = CARD_TYPE_NEW) then
       '(card_difficulty, unknowns) ←
         lift (get_card_difficulty_and_unknowns am_config id
                 card_morph_map_cache morph_cache morph_priority);
       let card := set_due card card_difficulty in
       note ← lift (update_focus_morph_field config_filter note unknowns);
       note ← lift (update_difficulty_field config_filter note card_difficulty);
       let note := update_tags am_config note (Z.of_nat (length unknowns)) in
       mret (card, note)
     else mret (card, note));
  note ← lift (update_highlighted_field am_config config_filter
                 card_morph_map_cache morph_cache (card_id card) note);
  mret (card, note).

Fixpoint update_cards_loop (am_config : AnkiMorphsConfig)
    (config_filter : AnkiMorphsConfigFilter)
    (card_morph_map_cache : gmap Z (list morph_entry))
    (morph_cache morph_priority : gmap str Z)
    (ids : list Z) (counter : nat)
    (modified : list Card * list Note) : Op (list Card * list Note) :=
  match ids with
  | [] => mret modified
  | id :: rest =>
      checkpoint counter;;
      '(card, note) ← update_card am_config config_filter
                        card_morph_map_cache morph_cache morph_priority id;
      update_cards_loop am_config config_filter card_morph_map_cache
        morph_cache morph_priority rest (S counter)
        (modified.1 ++ [card], modified.2 ++ [note])
  end.

Fixpoint update_filters_loop (am_config : AnkiMorphsConfig)
    (db : AnkiMorphsDB)
    (card_morph_map_cache : gmap Z (list morph_entry))
    (morph_cache morph_priority : gmap str Z)
    (filters : list AnkiMorphsConfigFilter)
    (modified : list Card * list Note) : Op (list Card * list Note) :=
  match filters with
  | [] => mret modified
  | config_filter :: rest =>
      match note_type_id config_filter with
      | None => raise AssertionError
      | Some note_type_id =>
          let cards_data_map := get_am_cards_data_dict db note_type_id in
          modified ← update_cards_loop am_config config_filter
                       card_morph_map_cache morph_cache morph_priority
                       (map fst cards_data_map) 0 modified;
          update_filters_loop am_config db card_morph_map_cache morph_cache
            morph_priority rest modified
      end
  end.

(** [modified_cards.sort(key=lambda _card: _card.due)] *)
Definition sort_by_due (cards : list Card) : list Card :=
  sorted_by (λ y x, card_due y <? card_due x) cards.

(** The loop of the unique-due pass over
    [enumerate(modified_cards, start=end_of_queue)]. *)
Definition assign_unique_due (end_of_queue : Z) (cards : list Card) : list Card :=
  imap (λ index card,
          if decide (card_type card = CARD_TYPE_NEW)
          then set_due card (end_of_queue + Z.of_nat index)
          else card)
       cards.

Definition update_cards (am_config : AnkiMorphsConfig) : Op unit :=
  db ← get_db;
  set_collapsed (tag_ready am_config);;
  set_collapsed (tag_not_ready am_config);;
  set_collapsed (tag_known am_config);;
  let morph_cache := get_morph_cache db in
  let card_morph_map_cache := get_card_morph_map_cache db in
  let morph_priority := get_morph_priority db am_config in
  end_of_queue ← count_new_cards;
  '(modified_cards, modified_notes) ←
    update_filters_loop am_config db card_morph_map_cache morph_cache
      morph_priority get_modify_enabled_filters ([], []);
  let modified_cards := sort_by_due modified_cards in
  let modified_cards := assign_unique_due end_of_queue modified_cards in
  col_update_cards modified_cards;;
  col_update_notes modified_notes.

Definition recalc_background_op (am_config : AnkiMorphsConfig) : Op unit :=
  cache_anki_data am_config;;
  update_cards am_config.

End Engine.

(** ** Statements and sample data *)

(** A case folding on the ASCII letters, for the examples. *)
Definition ascii_lower (c : N) : N :=
  if ((65 <=? c) && (c <=? 90))%N then (c + 32)%N else c.

Definition ascii_ignorecase (a b : N) : bool :=
  (ascii_lower a =? ascii_lower b)%N.

(** The number of a card's morphemes whose highest learning interval is 0. *)
Definition unknown_count (morph_cache : gmap str Z)
    (card_morphs : list morph_entry) : nat :=
  length (filter (λ morph, morph_cache !! entire_morph morph = Some 0)
                 card_morphs).

(** Penalty dominance as it is worded: fewer unknowns, smaller difficulty. *)
Definition penalty_dominance (am_config : AnkiMorphsConfig)
    (card_morph_map_cache : gmap Z (list morph_entry))
    (morph_cache morph_priority : gmap str Z) : Prop :=
  ∀ idA idB morphsA morphsB dA uA dB uB,
    card_morph_map_cache !! idA = Some morphsA →
    card_morph_map_cache !! idB = Some morphsB →
    get_card_difficulty_and_unknowns am_config idA card_morph_map_cache
      morph_cache morph_priority = Ok (dA, uA) →
    get_card_difficulty_and_unknowns am_config idB card_morph_map_cache
      morph_cache morph_priority = Ok (dB, uB) →
    (unknown_count morph_cache morphsA < unknown_count morph_cache morphsB)%nat →
    dA < dB.

Definition sample_config (prioritize stale : bool) : AnkiMorphsConfig :=
  {| parse_ignore_suspended_cards_content := false;
     recalc_interval_for_known := 21;
     recalc_prioritize_collection := prioritize;
     skip_stale_cards := stale;
     tag_ready := py "am-ready";
     tag_not_ready := py "am-not-ready";
     tag_known := py "am-known" |}.

Definition base_morph (form : string) (interval : Z) : MorphRow :=
  {| mr_norm := py form; mr_base := py form; mr_inflected := py form;
     mr_is_base := true; mr_highest_learning_interval := interval |}.

Definition base_edge (card : Z) (form : string) : CardMorphRow :=
  {| cm_card_id := card; cm_morph_norm := py form;
     cm_morph_inflected := py form |}.

(** Card 1 knows its only morpheme, card 2 does not. *)
Definition two_cards_db : AnkiMorphsDB :=
  {| Cards := [];
     Morphs := [base_morph "neko" 30; base_morph "inu" 0];
     Card_Morph_Map := [base_edge 1 "neko"; base_edge 2 "inu"] |}.

(** The tag transitions as they are worded: exactly one of the three tags
    after the update. *)
Definition tag_transition (am_config : AnkiMorphsConfig) (note : Note)
    (unknowns : Z) : Prop :=
  let tags' := note_tags (update_tags am_config note unknowns) in
  (unknowns = 0 →
     (tag_known am_config ∈ tags') ∧ (tag_ready am_config ∉ tags')
     ∧ (tag_not_ready am_config ∉ tags')) ∧
  (unknowns = 1 →
     (tag_ready am_config ∈ tags') ∧ (tag_known am_config ∉ tags')
     ∧ (tag_not_ready am_config ∉ tags')) ∧
  (2 ≤ unknowns →
     (tag_not_ready am_config ∈ tags') ∧ (tag_known am_config ∉ tags')
     ∧ (tag_ready am_config ∉ tags')).

(** The scoring scenario: 猫 is unknown, the other three are known. *)
Definition scenario_db : AnkiMorphsDB :=
  {| Cards := [];
     Morphs := [base_morph "猫" 0; base_morph "が" 30; base_morph "好き" 30;
                base_morph "です" 30];
     Card_Morph_Map := [base_edge 1 "猫"; base_edge 1 "が"; base_edge 1 "好き";
                        base_edge 1 "です"] |}.

Definition scenario_priority : gmap str Z :=
  list_to_map [(morph_key (py "猫") (py "猫"), 5);
               (morph_key (py "が") (py "が"), 0);
               (morph_key (py "好き") (py "好き"), 1);
               (morph_key (py "です") (py "です"), 2)].

(** Two morphemes whose keys coincide. *)
Definition colliding_db : AnkiMorphsDB :=
  {| Cards := [];
     Morphs := [ {| mr_norm := py "ab"; mr_base := py "ab";
                    mr_inflected := py "c"; mr_is_base := false;
                    mr_highest_learning_interval := 0 |};
                 {| mr_norm := py "a"; mr_base := py "a";
                    mr_inflected := py "bc"; mr_is_base := false;
                    mr_highest_learning_interval := 30 |} ];
     Card_Morph_Map := [ {| cm_card_id := 1; cm_morph_norm := py "ab";
                            cm_morph_inflected := py "c" |};
                         {| cm_card_id := 2; cm_morph_norm := py "a";
                            cm_morph_inflected := py "bc" |} ] |}.


(** The stores an operation may touch: the cache tables and the collection. *)
Definition same_stores (w w' : World) : Prop :=
  am_db w' = am_db w ∧ col w' = col w.

(** An operation that writes to neither store, however it ends. *)
Definition readonly {A} (m : Op A) : Prop :=
  ∀ w, same_stores w (m w).2.

Definition empty_db : AnkiMorphsDB :=
  {| Cards := []; Morphs := []; Card_Morph_Map := [] |}.

(** The card ids the queue updater goes through, filter after filter. *)
Definition touched_ids (db : AnkiMorphsDB)
    (filters : list AnkiMorphsConfigFilter) : list Z :=
  concat (map (λ config_filter,
                 match note_type_id config_filter with
                 | Some id => map fst (get_am_cards_data_dict db id)
                 | None => []
                 end) filters).

(** A card object that still agrees with its row, except for the due of a
    new card. *)
Definition loaded_from (rows : gmap Z CardData) (card : Card) : Prop :=
  ∃ row, rows !! card_id card = Some row
         ∧ card_nid card = cd_nid row ∧ card_type card = cd_type row
         ∧ (card_type card ≠ CARD_TYPE_NEW → card_due card = cd_due row).

(** [mw.col.update_cards] on the rows. *)
Definition store_cards (rows : gmap Z CardData) (cards : list Card)
    : gmap Z CardData :=
  foldl (λ m card, <[card_id card := card_data card]> m) rows cards.

Definition new_card_count (rows : gmap Z CardData) : Z :=
  Z.of_nat (size (filter (λ kv, cd_type kv.2 = CARD_TYPE_NEW) rows)).

(** The uniqueness pass as it is worded: the keys of the recalculated new
    cards are pairwise distinct and above the key of every new card that
    was not touched. *)
Definition unique_due_above_untouched
    (modify_filters : list AnkiMorphsConfigFilter)
    (am_config : AnkiMorphsConfig) (w : World) : Prop :=
  ∀ w', update_cards ascii_ignorecase modify_filters am_config w = (Ok (), w') →
  let touched := touched_ids (am_db w) modify_filters in
  (∀ i j ri rj, i ∈ touched → j ∈ touched → i ≠ j →
     col_cards (col w') !! i = Some ri → col_cards (col w') !! j = Some rj →
     cd_type ri = CARD_TYPE_NEW → cd_type rj = CARD_TYPE_NEW →
     cd_due ri ≠ cd_due rj) ∧
  (∀ i ri u ru, i ∈ touched → u ∉ touched →
     col_cards (col w') !! i = Some ri → cd_type ri = CARD_TYPE_NEW →
     col_cards (col w) !! u = Some ru → cd_type ru = CARD_TYPE_NEW →
     cd_due ru < cd_due ri).

(** A collection with three cards of note type 100 in the cache (1 and 3
    new, 2 in review) and a new card 4 that no filter touches. *)
Definition sample_filter : AnkiMorphsConfigFilter :=
  {| note_type := py "Basic"; note_type_id := Some 100; tags := [[]];
     morphemizer_name := py "SpaceMorphemizer"; field_index := Some 0;
     focus_morph_field_index := Some 2; difficulty_field_index := Some 3;
     highlighted_field_index := Some 4 |}.

Definition sample_card_row (id : Z) (type : Z) : CardRow :=
  {| cr_card_id := id; cr_note_id := id + 10; cr_note_type_id := Some 100;
     cr_card_type := type; cr_fields := []; cr_tags := [] |}.

Definition sample_db : AnkiMorphsDB :=
  {| Cards := [sample_card_row 1 0; sample_card_row 2 2; sample_card_row 3 0];
     Morphs := [base_morph "neko" 30; base_morph "inu" 0; base_morph "tori" 0];
     Card_Morph_Map := [base_edge 1 "neko"; base_edge 1 "inu";
                        base_edge 2 "neko";
                        base_edge 3 "inu"; base_edge 3 "tori"] |}.

Definition sample_note (text : string) : NoteData :=
  {| nd_fields := [py text; []; []; []]; nd_tags := [] |}.

Definition sample_collection : Collection :=
  {| col_cards := list_to_map
       [(1, {| cd_nid := 11; cd_type := 0; cd_due := 7 |});
        (2, {| cd_nid := 12; cd_type := 2; cd_due := 55 |});
        (3, {| cd_nid := 13; cd_type := 0; cd_due := 9 |});
        (4, {| cd_nid := 14; cd_type := 0; cd_due := 100 |})];
     col_notes := list_to_map
       [(11, sample_note "Neko to inu"); (12, sample_note "neko");
        (13, sample_note "inu to tori"); (14, sample_note "sakana")];
     col_tag_registry := [] |}.

Definition sample_world : World :=
  {| am_db := sample_db; col := sample_collection; cancel_requests := [false] |}.

(** The same collection, with the new card 4, which is not in the cache,
    at position 4 of the new queue. *)
Definition crowded_world : World :=
  {| am_db := sample_db;
     col := {| col_cards :=
                 <[4 := {| cd_nid := 14; cd_type := 0; cd_due := 4 |}]>
                   (col_cards sample_collection);
               col_notes := col_notes sample_collection;
               col_tag_registry := [] |};
     cancel_requests := [false] |}.


Definition unset_filter : AnkiMorphsConfigFilter :=
  {| note_type := []; note_type_id := None; tags := [[]];
     morphemizer_name := []; field_index := None;
     focus_morph_field_index := None; difficulty_field_index := None;
     highlighted_field_index := None |}.

Definition empty_collection : Collection :=
  {| col_cards := ∅; col_notes := ∅; col_tag_registry := [] |}.



(** ** Vocabulary for the highlighter *)

(** [q] occurs in [p] as a contiguous run of characters. *)
Definition factor (q p : str) : Prop := ∃ a b, p = a ++ q ++ b.

(** A text that [re.split] takes as one span wherever it stands: it starts
    with [<span], and the first [</span>] in it is at its end and on the
    same line. *)
Definition closed_span (W : str) : Prop :=
  (span_open `prefix_of` W) ∧ ∀ Y, find_close (W ++ Y) = Some (length W).

(** The pieces of [t] that a substitution would work on all satisfy [Φ]. *)
Definition pieces_satisfy (Φ : str → Prop) (t : str) : Prop :=
  Forall (λ p, (span_open `prefix_of` p) ∨ Φ p) (re_split_span t).

Section Matching.

Variable ignorecase : N → N → bool.

(** The texts that the literal [m] matches. *)
Definition matched (m x : str) : Prop :=
  length x = length m ∧ imatch ignorecase m x = true.

(** [m] matches nowhere in [q]. *)
Definition free (m q : str) : Prop :=
  ∀ j, imatch ignorecase m (drop j q) = false.

(** What [m] matches can be wrapped in a span that later passes recognise:
    it has no line break and does not contain [</span>]. *)
Definition wrappable (m : str) : Prop :=
  ∀ x, matched m x → (newline ∉ x) ∧ ¬ factor span_close x.

(** A surface form within the fragment modelled here, not empty, and
    wrappable. *)
Definition highlightable (m : str) : Prop :=
  regex_plain m = true ∧ m ≠ [] ∧ wrappable m.

End Matching.

(** What [non_span_sub] does with one piece. *)
Definition sub_piece (ignorecase : N → N → bool) (sub : str)
    (repl : str → str) (span : str) : str :=
  if decide (span_open `prefix_of` span) then span
  else re_sub ignorecase sub repl span.

(** A decision procedure for [factor]. *)
Fixpoint is_factor (q p : str) : bool :=
  bool_decide (q `prefix_of` p)
  || match p with
     | [] => false
     | _ :: p' => is_factor q p'
     end.

(** Highlighting idempotence as it is worded: highlighting the highlighted
    text changes nothing. *)
Definition highlight_idempotence (ignorecase : N → N → bool)
    (am_config : AnkiMorphsConfig) (card_morphs : list morph_entry)
    (morph_cache : gmap str Z) (text : str) : Prop :=
  ∀ text',
    highlight_text ignorecase am_config card_morphs morph_cache text = Ok text' →
    highlight_text ignorecase am_config card_morphs morph_cache text' = Ok text'.

(** Non-interference as it is worded: whatever span wraps an occurrence of
    a morpheme once that morpheme has been substituted is still in the
    final text, with nothing wrapped inside it by the morphemes that
    follow. *)
Definition longer_span_kept (ignorecase : N → N → bool)
    (am_config : AnkiMorphsConfig) (card_morphs : list morph_entry)
    (morph_cache : gmap str Z) (text : str) : Prop :=
  ∀ pre long post text' T highest_interval a x b,
    sorted_morphs card_morphs = pre ++ long :: post →
    highlight_text ignorecase am_config card_morphs morph_cache text = Ok text' →
    highlight_loop ignorecase am_config morph_cache pre text = Ok T →
    morph_cache !! entire_morph long = Some highest_interval →
    matched ignorecase (inflected_morph long) x →
    non_span_sub ignorecase (inflected_morph long)
      (replacement (morph_status_of am_config highest_interval)) T
    = a ++ replacement (morph_status_of am_config highest_interval) x ++ b →
    factor (replacement (morph_status_of am_config highest_interval) x) text'.

Definition plain_entry (form : string) : morph_entry :=
  {| entire_morph := py form ++ py form; inflected_morph := py form |}.

(** A morpheme that is a line break, and one that contains a line break
    together with a shorter one inside it. *)
Definition line_break_entry : morph_entry :=
  {| entire_morph := [newline; newline]; inflected_morph := [newline] |}.

Definition two_line_entry : morph_entry :=
  {| entire_morph := py "ab" ++ py "ab";
     inflected_morph := py "a" ++ [newline] ++ py "b" |}.

Definition sample_morph_cache : gmap str Z :=
  list_to_map [(py "nekoneko", 30); (py "nene", 0); (py "aa", 0);
               (py "abab", 0); ([newline; newline], 0)].

Definition sample_morphs : list morph_entry :=
  [plain_entry "ne"; plain_entry "neko"].

Definition sample_text : str := py "Neko to ne".

Definition sample_highlighted : str :=
  replacement (py "known") (py "Neko") ++ py " to "
    ++ replacement (py "unknown") (py "ne").

(** A text with the shorter morpheme inside the longer one, which spans a
    line break. *)
Definition nested_morphs : list morph_entry :=
  [plain_entry "a"; two_line_entry].

Definition nested_text : str := py "xa" ++ [newline] ++ py "b".

Definition result_or {A} (default : A) (r : result A) : A :=
  match r with Ok a => a | Raise _ => default end.

(** ** Vocabulary for the further properties *)

(** The sum of the priorities of a card's morphemes. *)
Definition priority_sum (morph_priority : gmap str Z)
    (card_morphs : list morph_entry) : Z :=
  foldr (λ morph acc, default 0 (morph_priority !! entire_morph morph) + acc)
        0 card_morphs.

(** The surface forms of the morphemes with interval 0, in the card's order. *)
Definition unknown_forms (morph_cache : gmap str Z)
    (card_morphs : list morph_entry) : list str :=
  inflected_morph <$>
    filter (λ morph, morph_cache !! entire_morph morph = Some 0) card_morphs.

(** Both dicts of the scorer hold the morpheme. *)
Definition scorable (morph_cache morph_priority : gmap str Z)
    (morph : morph_entry) : Prop :=
  is_Some (morph_cache !! entire_morph morph)
  ∧ is_Some (morph_priority !! entire_morph morph).

(** How often the key [k] occurs in the card-morpheme table. *)
Definition occurrences (db : AnkiMorphsDB) (k : str) : nat :=
  length (filter (λ row, morph_key (cm_morph_norm row) (cm_morph_inflected row) = k)
                 (Card_Morph_Map db)).

(** The keys of the card-morpheme table, row by row, and the counted keys
    in the order of their rank. *)
Definition table_keys (db : AnkiMorphsDB) : list str :=
  map (λ row, morph_key (cm_morph_norm row) (cm_morph_inflected row))
      (Card_Morph_Map db).

Definition ranked_keys (db : AnkiMorphsDB) : list (str * Z) :=
  sorted_by_count_desc (Counter (table_keys db)).

(** A tag that is none of the three tags of the configuration. *)
Definition foreign_tag (am_config : AnkiMorphsConfig) (t : str) : Prop :=
  t ≠ tag_known am_config ∧ t ≠ tag_ready am_config
  ∧ t ≠ tag_not_ready am_config.

#[global] Instance foreign_tag_dec am_config t : Decision (foreign_tag am_config t).
Proof. unfold foreign_tag. apply _. Defined.

(** The surface forms separated by a comma and a space. *)
Definition comma_separated (unknowns : list str) : str :=
  match unknowns with
  | [] => []
  | unknown :: rest => unknown ++ concat (map (λ x, py ", " ++ x) rest)
  end.

(** What a field writer may change of a note: at most the field with the
    1-based number [index]. *)
Definition only_field_changed (index : option Z) (note note' : Note) : Prop :=
  note_id note' = note_id note ∧ note_tags note' = note_tags note
  ∧ length (note_fields note') = length (note_fields note)
  ∧ ∀ j, index ≠ Some (Z.of_nat j + 1) →
         note_fields note' !! j = note_fields note !! j.

(** [wraps t t']: [t'] is [t] with some of its stretches wrapped in a
    morph-status span, and nothing else changed. *)
Inductive wraps : str → str → Prop :=
  | wraps_nil : wraps [] []
  | wraps_char c t t' : wraps t t' → wraps (c :: t) (c :: t')
  | wraps_span morph_status x t t' :
      wraps t t' → wraps (x ++ t) (replacement morph_status x ++ t').

(** The difficulty the scorer returns for a card, from the caches of [db]. *)
Definition score (am_config : AnkiMorphsConfig) (db : AnkiMorphsDB) (id : Z)
    : result (Z * list str) :=
  get_card_difficulty_and_unknowns am_config id (get_card_morph_map_cache db)
    (get_morph_cache db) (get_morph_priority db am_config).

(** A new card carries the difficulty of the scorer as its pending due. *)
Definition scored (am_config : AnkiMorphsConfig) (db : AnkiMorphsDB)
    (card : Card) : Prop :=
  card_type card = CARD_TYPE_NEW →
  ∃ unknowns, score am_config db (card_id card) = Ok (card_due card, unknowns).

(** The cards the cache builder goes through: for each read filter in
    turn, the cards the reader hands over for it. *)
Definition cache_jobs
    (reader : AnkiMorphsConfigFilter → option Z → list str → bool →
              Collection → list (Z * AnkiCardData))
    (am_config : AnkiMorphsConfig) (filters : list AnkiMorphsConfigFilter)
    (c : Collection) : list (AnkiMorphsConfigFilter * (Z * AnkiCardData)) :=
  concat (map (λ config_filter,
                 map (pair config_filter)
                     (reader config_filter (note_type_id config_filter)
                        (tags config_filter)
                        (parse_ignore_suspended_cards_content am_config) c))
              filters).

(** The row of the Cards table and the rows of the Card_Morph_Map table
    that [cache_anki_data] appends for one card. *)
Definition card_row_of (job : AnkiMorphsConfigFilter * (Z * AnkiCardData))
    : CardRow :=
  {| cr_card_id := job.2.1; cr_note_id := acd_note_id job.2.2;
     cr_note_type_id := note_type_id job.1;
     cr_card_type := acd_type job.2.2;
     cr_fields := acd_fields job.2.2;
     cr_tags := acd_tags job.2.2 |}.

Definition map_rows_of
    (tokenizer : str → AnkiMorphsConfig → AnkiMorphsConfigFilter →
                 option (list Morpheme))
    (am_config : AnkiMorphsConfig)
    (job : AnkiMorphsConfigFilter * (Z * AnkiCardData)) : list CardMorphRow :=
  match tokenizer (acd_expression job.2.2) am_config job.1 with
  | None => []
  | Some morphs =>
      map (λ morph, {| cm_card_id := job.2.1; cm_morph_norm := norm morph;
                       cm_morph_inflected := inflected morph |}) morphs
  end.

(** The entry of a card's morpheme list for a morpheme of the tokenizer. *)
Definition entry_of_morph (morph : Morpheme) : morph_entry :=
  {| entire_morph := morph_key (norm morph) (inflected morph);
     inflected_morph := inflected morph |}.

(** A reader that hands over two cards for every filter, and a tokenizer
    that takes the whole expression as one morpheme. *)
Definition sample_card_data (expression : string) : AnkiCardData :=
  {| acd_interval := 3; acd_type := 0; acd_note_id := 11;
     acd_fields := [py expression]; acd_tags := []; acd_known_tag := false;
     acd_expression := py expression |}.

Definition two_cards_reader : AnkiMorphsConfigFilter → option Z → list str →
    bool → Collection → list (Z * AnkiCardData) :=
  λ _ _ _ _ _, [(1, sample_card_data "neko"); (2, sample_card_data "inu")].

Definition whole_text_tokenizer : str → AnkiMorphsConfig →
    AnkiMorphsConfigFilter → option (list Morpheme) :=
  λ expression _ _,
    Some [{| norm := expression; base := expression; inflected := expression |}].

Definition quiet_world : World :=
  {| am_db := two_cards_db; col := empty_collection; cancel_requests := [] |}.

(** The number of cards, among [n] cards numbered from [counter], at
    which the loops ask whether the user wants to cancel: those whose
    number is a multiple of 1000. *)
Definition asks (counter n : nat) : nat :=
  length (filter (λ i, i mod 1000 = 0)%nat (seq counter n)).

(** * Properties *)

(** ** The scorer *)

Lemma dict_get_Ok {V} (d : gmap str V) k v :
  dict_get d k = Ok v ↔ d !! k = Some v.
Proof. unfold dict_get. destruct (d !! k); split; congruence. Qed.

Lemma dict_get_Raise {V} (d : gmap str V) k e :
  dict_get d k = Raise e ↔ d !! k = None ∧ e = KeyError.
Proof. unfold dict_get. destruct (d !! k); split; intros; intuition congruence. Qed.

Lemma bind_Ok {A B} (m : result A) (k : A → result B) b :
  m ≫= k = Ok b ↔ ∃ a, m = Ok a ∧ k a = Ok b.
Proof.
  destruct m as [a|e]; simpl; split.
  - eauto.
  - by intros (a' & [= ->] & ?).
  - discriminate.
  - by intros (? & ? & ?).
Qed.

(** The loop adds the priorities and appends one surface form per unknown
    morpheme. *)
Lemma score_loop_Ok mc mp ms d u d' u' :
  map_Forall (λ _ p, 0 ≤ p) mp →
  score_loop mc mp ms d u = Ok (d', u') →
  d ≤ d' ∧ length u' = (length u + unknown_count mc ms)%nat.
Proof.
  intros Hmp. revert d u. induction ms as [|m ms IH]; intros d u; simpl.
  - intros [= -> ->]. unfold unknown_count. simpl. lia.
  - rewrite bind_Ok. intros (hi & Hhi & H). apply dict_get_Ok in Hhi.
    apply bind_Ok in H as (p & Hp & H). apply dict_get_Ok in Hp.
    apply IH in H as [Hd Hu]. pose proof (Hmp _ _ Hp) as Hp0. simpl in Hp0.
    split; [lia|]. rewrite Hu. unfold unknown_count.
    rewrite filter_cons. rewrite Hhi. destruct (Z.eqb_spec hi 0) as [->|Hne].
    + rewrite decide_True by done. rewrite length_app. simpl. lia.
    + rewrite decide_False by congruence. lia.
Qed.

Lemma insert_by_elem_of {A} (precedes : A → A → bool) (y : A) (l : list A) x :
  x ∈ insert_by precedes y l ↔ x = y ∨ x ∈ l.
Proof.
  induction l as [|z l IH]; simpl.
  - rewrite list_elem_of_singleton, elem_of_nil. tauto.
  - destruct (precedes z y); rewrite !elem_of_cons; [rewrite IH|]; tauto.
Qed.

Lemma sorted_by_elem_of {A} (precedes : A → A → bool) (l : list A) x :
  x ∈ sorted_by precedes l ↔ x ∈ l.
Proof.
  induction l as [|y l IH]; simpl; [done|].
  rewrite insert_by_elem_of, elem_of_cons, IH. tauto.
Qed.

Lemma enumerate_keys_nonneg l : map_Forall (λ _ p, 0 ≤ p) (enumerate_keys l).
Proof.
  intros k p Hkp. unfold enumerate_keys in Hkp.
  apply elem_of_list_to_map_2 in Hkp.
  apply elem_of_lookup_imap in Hkp as (i & x & [= _ ->] & _). lia.
Qed.

(** Ranks are positions, hence never negative. *)
Lemma get_morph_priority_nonneg db am_config :
  map_Forall (λ _ p, 0 ≤ p) (get_morph_priority db am_config).
Proof.
  unfold get_morph_priority. destruct (recalc_prioritize_collection _).
  - apply enumerate_keys_nonneg.
  - apply map_Forall_empty.
Qed.

(** What the scorer returns for a card with morphemes, in closed form. *)
Lemma scorer_Ok am_config id cmm mc mp ms d u :
  map_Forall (λ _ p, 0 ≤ p) mp →
  cmm !! id = Some ms →
  get_card_difficulty_and_unknowns am_config id cmm mc mp = Ok (d, u) →
  length u = unknown_count mc ms ∧
  ((u = [] ∧ skip_stale_cards am_config = true ∧ d = default_difficulty) ∨
   ((u ≠ [] ∨ skip_stale_cards am_config = false) ∧
    Z.of_nat (length u) * morph_unknown_penalty ≤ d
      < (Z.of_nat (length u) + 1) * morph_unknown_penalty)).
Proof.
  intros Hmp Hid. unfold get_card_difficulty_and_unknowns. rewrite Hid.
  rewrite bind_Ok. intros ([d0 u0] & Hloop & H).
  apply score_loop_Ok in Hloop as [Hd Hu]; [|done]. simpl in Hu.
  unfold morph_unknown_penalty in *.
  destruct u0 as [|x u0]; simpl in H.
  - destruct (skip_stale_cards am_config); injection H as <- <-.
    + split; [done|]. by left.
    + split; [done|]. right. split; [by right|].
      destruct (Z.leb_spec 500000 d0); simpl; lia.
  - injection H as <- <-. split; [done|]. right. split; [by left|].
    destruct (Z.leb_spec 500000 d0); simpl length; lia.
Qed.

(** C1, as amended: with the priorities of the ranker, a card with fewer
    unknown morphemes scores strictly lower than one with more, whatever
    the priority sums, provided stale cards are not being moved to the end
    of the queue or the first card has an unknown morpheme. *)
Theorem penalty_dominance_unless_stale am_config db cmm mc
    idA idB morphsA morphsB dA uA dB uB :
  cmm !! idA = Some morphsA →
  cmm !! idB = Some morphsB →
  get_card_difficulty_and_unknowns am_config idA cmm mc
    (get_morph_priority db am_config) = Ok (dA, uA) →
  get_card_difficulty_and_unknowns am_config idB cmm mc
    (get_morph_priority db am_config) = Ok (dB, uB) →
  skip_stale_cards am_config = false ∨ (0 < unknown_count mc morphsA)%nat →
  (unknown_count mc morphsA < unknown_count mc morphsB)%nat →
  dA < dB.
Proof.
  intros HA HB HdA HdB Hstale Hlt.
  pose proof (get_morph_priority_nonneg db am_config) as Hmp.
  destruct (scorer_Ok _ _ _ _ _ _ _ _ Hmp HA HdA) as [HuA HrA].
  destruct (scorer_Ok _ _ _ _ _ _ _ _ Hmp HB HdB) as [HuB HrB].
  rewrite <- HuA, <- HuB in *.
  unfold morph_unknown_penalty in *.
  destruct HrA as [(-> & Hs & _)|[_ HrA]].
  { destruct Hstale as [Hs'|Hpos]; [congruence | simpl in Hpos; lia]. }
  destruct HrB as [(-> & _ & _)|[_ HrB]]; [simpl in Hlt; lia|].
  nia.
Qed.

Lemma penalty_dominance_unless_stale_witness :
  get_card_difficulty_and_unknowns (sample_config true false) 1
    (get_card_morph_map_cache two_cards_db) (get_morph_cache two_cards_db)
    (get_morph_priority two_cards_db (sample_config true false)) = Ok (0, [])
  ∧ 0 < 500001.
Proof.
  split; [vm_compute; reflexivity|].
  apply (penalty_dominance_unless_stale (sample_config true false) two_cards_db
           (get_card_morph_map_cache two_cards_db) (get_morph_cache two_cards_db)
           1 2 [entry_of_row (base_edge 1 "neko")]
           [entry_of_row (base_edge 2 "inu")] 0 [] 500001 [py "inu"]).
  - vm_compute; reflexivity.
  - vm_compute; reflexivity.
  - vm_compute; reflexivity.
  - vm_compute; reflexivity.
  - left; reflexivity.
  - vm_compute; lia.
Defined.

(** C1, as worded, fails when stale cards are moved to the end of the
    queue: the fully known card 1 gets the sentinel and is ranked after
    card 2, which has an unknown morpheme. *)
Lemma penalty_dominance_fails_for_stale :
  ¬ penalty_dominance (sample_config true true)
      (get_card_morph_map_cache two_cards_db) (get_morph_cache two_cards_db)
      (get_morph_priority two_cards_db (sample_config true true)).
Proof.
  intros H.
  specialize (H 1 2 [entry_of_row (base_edge 1 "neko")]
                [entry_of_row (base_edge 2 "inu")]
                2147483647 [] 500001 [py "inu"]).
  assert (2147483647 < 500001); [|lia].
  apply H; vm_compute; first [reflexivity | lia].
Qed.

(** C4: with prioritization by corpus frequency switched off the priority
    map is empty, and the scorer's lookup [morph_priority[...]] raises
    [KeyError] for every card that has a morpheme in the cache, instead of
    counting priority 0. *)
Theorem scorer_fails_without_prioritization am_config db id cmm mc morph rest :
  recalc_prioritize_collection am_config = false →
  cmm !! id = Some (morph :: rest) →
  is_Some (mc !! entire_morph morph) →
  get_card_difficulty_and_unknowns am_config id cmm mc
    (get_morph_priority db am_config) = Raise KeyError.
Proof.
  intros Hoff Hid [hi Hhi].
  unfold get_card_difficulty_and_unknowns, get_morph_priority.
  rewrite Hid, Hoff. simpl.
  assert (Hg : dict_get mc (entire_morph morph) = Ok hi) by by apply dict_get_Ok.
  rewrite Hg. simpl.
  assert (He : dict_get (∅ : gmap str Z) (entire_morph morph) = Raise KeyError)
    by (unfold dict_get; by rewrite lookup_empty).
  by rewrite He.
Qed.

Lemma scorer_fails_without_prioritization_witness :
  get_card_difficulty_and_unknowns (sample_config false false) 2
    (get_card_morph_map_cache two_cards_db) (get_morph_cache two_cards_db)
    (get_morph_priority two_cards_db (sample_config false false))
  = Raise KeyError.
Proof.
  apply (scorer_fails_without_prioritization (sample_config false false)
           two_cards_db 2 _ _ (entry_of_row (base_edge 2 "inu")) []).
  - reflexivity.
  - vm_compute; reflexivity.
  - exists 0. vm_compute; reflexivity.
Defined.

(** ** Tags *)

Lemma tag_add_elem_of t tags x : x ∈ tag_add t tags ↔ x = t ∨ x ∈ tags.
Proof.
  unfold tag_add. destruct (decide (t ∈ tags)) as [Hin|Hout].
  - split; [tauto|]. intros [->|]; done.
  - rewrite elem_of_app, list_elem_of_singleton. tauto.
Qed.

Lemma tag_add_NoDup t tags : NoDup tags → NoDup (tag_add t tags).
Proof.
  intros Hnd. unfold tag_add. destruct (decide (t ∈ tags)) as [Hin|Hout]; [done|].
  apply NoDup_app. split; [done|]. split.
  - intros x Hx Hx'. apply list_elem_of_singleton in Hx'. by subst.
  - apply NoDup_singleton.
Qed.

Lemma list_remove_elem_of t tags x :
  NoDup tags → x ∈ list_remove t tags ↔ x ∈ tags ∧ x ≠ t.
Proof.
  induction 1 as [|y l Hy Hnd IH]; simpl.
  - rewrite elem_of_nil. tauto.
  - destruct (decide (t = y)) as [->|Hne].
    + rewrite elem_of_cons. split.
      * intros Hx. split; [tauto|]. by intros ->.
      * intros [[->|Hx] Hxy]; done.
    + rewrite !elem_of_cons, IH. split.
      * intros [->|[? ?]]; split; auto.
      * intros [[->|?] ?]; auto.
Qed.

Lemma tag_discard_elem_of t tags x :
  NoDup tags → x ∈ tag_discard t tags ↔ x ∈ tags ∧ x ≠ t.
Proof.
  intros Hnd. unfold tag_discard. destruct (decide (t ∈ tags)) as [Hin|Hout].
  - by apply list_remove_elem_of.
  - split; [|tauto]. intros Hx. split; [done|]. by intros ->.
Qed.

(** C3, as amended: on a note whose tags are free of duplicates, and with
    three distinct tag names, 0 unknowns puts the known tag and removes the
    ready tag, exactly 1 unknown puts the ready tag and removes the
    not-ready tag, and any other count puts the not-ready tag; the tags a
    branch does not mention stay as they were. *)
Theorem update_tags_transition am_config note unknowns :
  NoDup (note_tags note) →
  tag_known am_config ≠ tag_ready am_config →
  tag_ready am_config ≠ tag_not_ready am_config →
  tag_known am_config ≠ tag_not_ready am_config →
  let tags := note_tags note in
  let tags' := note_tags (update_tags am_config note unknowns) in
  (unknowns = 0 →
     (tag_known am_config ∈ tags') ∧ (tag_ready am_config ∉ tags') ∧
     (tag_not_ready am_config ∈ tags' ↔ tag_not_ready am_config ∈ tags)) ∧
  (unknowns = 1 →
     (tag_ready am_config ∈ tags') ∧ (tag_not_ready am_config ∉ tags') ∧
     (tag_known am_config ∈ tags' ↔ tag_known am_config ∈ tags)) ∧
  (unknowns ≠ 0 → unknowns ≠ 1 →
     (tag_not_ready am_config ∈ tags') ∧
     (tag_known am_config ∈ tags' ↔ tag_known am_config ∈ tags) ∧
     (tag_ready am_config ∈ tags' ↔ tag_ready am_config ∈ tags)).
Proof.
  intros Hnd Hkr Hrn Hkn tags tags'. subst tags tags'.
  assert (Hnd' : ∀ t, NoDup (tag_add t (note_tags note)))
    by (intros t; by apply tag_add_NoDup).
  unfold update_tags. split; [|split].
  - intros ->. simpl. rewrite !tag_discard_elem_of by done.
    rewrite !tag_add_elem_of. intuition congruence.
  - intros ->. simpl. rewrite !tag_discard_elem_of by done.
    rewrite !tag_add_elem_of. intuition congruence.
  - intros H0 H1.
    destruct (Z.eqb_spec unknowns 0); [done|].
    destruct (Z.eqb_spec unknowns 1); [done|]. simpl.
    rewrite !tag_add_elem_of. intuition congruence.
Qed.

Lemma update_tags_transition_witness :
  tag_ready (sample_config true false)
    ∈ note_tags (update_tags (sample_config true false)
                   {| note_id := 7; note_fields := [];
                      note_tags := [py "am-not-ready"] |} 1).
Proof.
  pose proof (update_tags_transition (sample_config true false)
                {| note_id := 7; note_fields := [];
                   note_tags := [py "am-not-ready"] |} 1) as H.
  simpl in H.
  assert (Hnd : NoDup [py "am-not-ready"]) by apply NoDup_singleton.
  assert (H1 : py "am-known" ≠ py "am-ready") by (vm_compute; discriminate).
  assert (H2 : py "am-ready" ≠ py "am-not-ready") by (vm_compute; discriminate).
  assert (H3 : py "am-known" ≠ py "am-not-ready") by (vm_compute; discriminate).
  exact (proj1 (proj1 (proj2 (H Hnd H1 H2 H3)) eq_refl)).
Defined.

(** C3, as worded, fails: a note that carried the not-ready tag and now has
    0 unknowns ends up with both the known and the not-ready tag. *)
Lemma tag_transition_keeps_not_ready :
  ¬ tag_transition (sample_config true false)
      {| note_id := 7; note_fields := []; note_tags := [py "am-not-ready"] |} 0.
Proof.
  intros (H0 & _ & _). destruct (H0 eq_refl) as (_ & _ & Hnr).
  apply Hnr. vm_compute. apply list_elem_of_here.
Qed.

(** C8: in the scenario of the four morphemes 猫 (interval 0), が, 好き and
    です (interval 30) with ranks 5, 0, 1 and 2, the scorer returns the
    unknown list [猫] and the difficulty 500008, and the tag update that
    follows leaves the ready tag on the note. *)
Theorem scoring_scenario am_config note :
  tag_ready am_config ≠ tag_not_ready am_config →
  get_card_difficulty_and_unknowns am_config 1
    (get_card_morph_map_cache scenario_db) (get_morph_cache scenario_db)
    scenario_priority = Ok (500008, [py "猫"])
  ∧ 0 + 1 + 2 + 5 + 1 * morph_unknown_penalty = 500008
  ∧ tag_ready am_config
      ∈ note_tags (update_tags am_config note (Z.of_nat (length [py "猫"]))).
Proof.
  intros Hrn. split; [|split].
  - unfold get_card_difficulty_and_unknowns.
    replace (get_card_morph_map_cache scenario_db !! 1)
      with (Some (map entry_of_row (Card_Morph_Map scenario_db)))
      by (vm_compute; reflexivity).
    replace (score_loop (get_morph_cache scenario_db) scenario_priority
               (map entry_of_row (Card_Morph_Map scenario_db)) 0 [])
      with (Ok (8, [py "猫"]) : result (Z * list str))
      by (vm_compute; reflexivity).
    simpl. reflexivity.
  - reflexivity.
  - simpl. unfold tag_discard.
    assert (Hin : tag_ready am_config ∈ tag_add (tag_ready am_config) (note_tags note))
      by (apply tag_add_elem_of; auto).
    destruct (decide _) as [Hnr|_]; [|done].
    revert Hin Hnr. generalize (tag_add (tag_ready am_config) (note_tags note)).
    intros l. induction l as [|y l IH]; simpl; [by rewrite elem_of_nil|].
    intros Hin Hnr. destruct (decide (tag_not_ready am_config = y)) as [<-|Hne].
    + apply elem_of_cons in Hin as [?|?]; [congruence|done].
    + apply elem_of_cons in Hin as [->|Hin]; [apply list_elem_of_here|].
      apply list_elem_of_further. apply IH; [done|].
      apply elem_of_cons in Hnr as [?|?]; [congruence|done].
Qed.

Lemma scoring_scenario_witness :
  get_card_difficulty_and_unknowns (sample_config true false) 1
    (get_card_morph_map_cache scenario_db) (get_morph_cache scenario_db)
    scenario_priority = Ok (500008, [py "猫"]).
Proof.
  refine (proj1 (scoring_scenario (sample_config true false)
                   {| note_id := 1; note_fields := [py "猫が好きです"; []; []];
                      note_tags := [] |} _)).
  vm_compute; discriminate.
Defined.

(** ** Keys *)

Lemma get_morph_cache_lookup db k v :
  get_morph_cache db !! k = Some v →
  ∃ row, row ∈ Morphs db ∧ k = mr_norm row ++ mr_inflected row
         ∧ v = mr_highest_learning_interval row.
Proof.
  unfold get_morph_cache.
  assert (Hgen : ∀ rows (acc : gmap str Z),
    foldl (λ morph_cache row,
             <[morph_key (mr_norm row) (mr_inflected row)
               := mr_highest_learning_interval row]> morph_cache) acc rows
      !! k = Some v →
    acc !! k = Some v ∨
    ∃ row, row ∈ rows ∧ k = mr_norm row ++ mr_inflected row
           ∧ v = mr_highest_learning_interval row).
  { induction rows as [|row rows IH]; intros acc; simpl; [auto|].
    intros H. apply IH in H as [H|(r & Hr & ? & ?)].
    - destruct (decide (morph_key (mr_norm row) (mr_inflected row) = k)) as [<-|Hne].
      + rewrite lookup_insert_eq in H. injection H as <-.
        right. exists row. split; [apply list_elem_of_here|done].
      + rewrite lookup_insert_ne in H by done. by left.
    - right. exists r. split; [by apply list_elem_of_further|done]. }
  intros H. apply Hgen in H as [H|H]; [|done]. by rewrite lookup_empty in H.
Qed.

Lemma card_morph_map_loop_entries rows outer cache id l e :
  card_morph_map_loop rows outer cache !! id = Some l → e ∈ l →
  (∃ l0, cache !! id = Some l0 ∧ e ∈ l0) ∨
  (∃ row, row ∈ rows ∧ e = entry_of_row row).
Proof.
  revert outer cache. induction rows as [|row rows IH]; intros outer cache; simpl.
  - intros H He. left. eauto.
  - destruct (decide _) as [Heq|Hne]; intros H He.
    + destruct (IH _ _ H He) as [(l0 & Hl0 & He0)|(r & Hr & ->)].
      * destruct (decide (cm_card_id row = id)) as [<-|Hid].
        -- rewrite lookup_alter_eq in Hl0.
           destruct (cache !! cm_card_id row) as [l1|] eqn:Hl1; [|done].
           injection Hl0 as <-. apply elem_of_app in He0 as [He0|He0].
           ++ left. eauto.
           ++ apply list_elem_of_singleton in He0 as ->. right.
              exists row. split; [apply list_elem_of_here|done].
        -- rewrite lookup_alter_ne in Hl0 by done. left. eauto.
      * right. exists r. split; [by apply list_elem_of_further|done].
    + destruct (IH _ _ H He) as [(l0 & Hl0 & He0)|(r & Hr & ->)].
      * destruct (decide (cm_card_id row = id)) as [<-|Hid].
        -- rewrite lookup_insert_eq in Hl0. injection Hl0 as <-.
           apply list_elem_of_singleton in He0 as ->. right.
           exists row. split; [apply list_elem_of_here|done].
        -- rewrite lookup_insert_ne in Hl0 by done. left. eauto.
      * right. exists r. split; [by apply list_elem_of_further|done].
Qed.

Lemma counter_add_keys k c x :
  x ∈ (counter_add k c).*1 ↔ x = k ∨ x ∈ c.*1.
Proof.
  induction c as [|[k' n] c IH]; simpl.
  - rewrite list_elem_of_singleton, elem_of_nil. tauto.
  - destruct (decide (k = k')) as [->|Hne]; simpl; rewrite !elem_of_cons.
    + tauto.
    + rewrite IH. tauto.
Qed.

Lemma Counter_keys l x : x ∈ (Counter l).*1 ↔ x ∈ l.
Proof.
  unfold Counter.
  assert (Hgen : ∀ c, x ∈ (foldl (λ c k, counter_add k c) c l).*1
                      ↔ x ∈ c.*1 ∨ x ∈ l).
  { induction l as [|k l IH]; intros c; simpl.
    - rewrite elem_of_nil. tauto.
    - rewrite IH, counter_add_keys, elem_of_cons. tauto. }
  rewrite Hgen. simpl. rewrite elem_of_nil. tauto.
Qed.

Lemma get_morph_collection_priority_lookup db k p :
  get_morph_collection_priority db !! k = Some p →
  ∃ row, row ∈ Card_Morph_Map db
         ∧ k = cm_morph_norm row ++ cm_morph_inflected row.
Proof.
  unfold get_morph_collection_priority, enumerate_keys. intros H.
  apply elem_of_list_to_map_2 in H.
  apply elem_of_lookup_imap in H as (i & [k' n] & [= -> ->] & Hi).
  apply list_elem_of_lookup_2 in Hi.
  apply sorted_by_elem_of in Hi.
  assert (Hk : k' ∈ (Counter (map (λ row, morph_key (cm_morph_norm row)
                                     (cm_morph_inflected row))
                                  (Card_Morph_Map db))).*1).
  { apply list_elem_of_fmap. exists (k', n). done. }
  apply (proj1 (Counter_keys _ _)) in Hk.
  apply list_elem_of_In, in_map_iff in Hk as (row & <- & Hrow).
  apply list_elem_of_In in Hrow. eauto.
Qed.

(** C10: the interval cache, the card-morpheme entries and the priority map
    all key a morpheme by the concatenation of norm and inflected; the
    distinct identities (ab, c) and (a, bc) get the same key, and in a cache
    holding both they share one interval entry and one priority entry. *)
Theorem morph_key_collisions :
  (∀ db k v, get_morph_cache db !! k = Some v →
     ∃ row, row ∈ Morphs db ∧ k = mr_norm row ++ mr_inflected row
            ∧ v = mr_highest_learning_interval row) ∧
  (∀ db id l e, get_card_morph_map_cache db !! id = Some l → e ∈ l →
     ∃ row, row ∈ Card_Morph_Map db
            ∧ entire_morph e = cm_morph_norm row ++ cm_morph_inflected row
            ∧ inflected_morph e = cm_morph_inflected row) ∧
  (∀ db k p, get_morph_collection_priority db !! k = Some p →
     ∃ row, row ∈ Card_Morph_Map db
            ∧ k = cm_morph_norm row ++ cm_morph_inflected row) ∧
  ((py "ab", py "c") ≠ (py "a", py "bc")
   ∧ morph_key (py "ab") (py "c") = morph_key (py "a") (py "bc")) ∧
  get_morph_cache colliding_db = {[ py "abc" := 30 ]} ∧
  get_morph_collection_priority colliding_db = {[ py "abc" := 0 ]}.
Proof.
  split; [exact get_morph_cache_lookup|].
  split.
  { intros db id l e Hl He. unfold get_card_morph_map_cache in Hl.
    destruct (card_morph_map_loop_entries _ _ _ _ _ _ Hl He)
      as [(l0 & Hl0 & _)|(row & Hrow & ->)].
    - by rewrite lookup_empty in Hl0.
    - exists row. done. }
  split; [exact get_morph_collection_priority_lookup|].
  split; [split; [vm_compute; discriminate | vm_compute; reflexivity]|].
  split; vm_compute; reflexivity.
Qed.

(** ** Operations on the state *)

Lemma same_stores_refl w : same_stores w w.
Proof. by split. Qed.

Lemma same_stores_trans w1 w2 w3 :
  same_stores w1 w2 → same_stores w2 w3 → same_stores w1 w3.
Proof. intros [? ?] [? ?]. split; congruence. Qed.

Lemma readonly_ret {A} (a : A) : readonly (mret a).
Proof. intros w. apply same_stores_refl. Qed.

Lemma readonly_raise {A} e : readonly (raise e : Op A).
Proof. intros w. apply same_stores_refl. Qed.

Lemma readonly_lift {A} (r : result A) : readonly (lift r).
Proof. intros w. apply same_stores_refl. Qed.

Lemma readonly_get_col : readonly get_col.
Proof. intros w. apply same_stores_refl. Qed.

Lemma readonly_want_cancel : readonly want_cancel.
Proof. intros w. unfold want_cancel. destruct (cancel_requests w); by split. Qed.

Lemma readonly_bind {A B} (m : Op A) (k : A → Op B) :
  readonly m → (∀ a, readonly (k a)) → readonly (m ≫= k).
Proof.
  intros Hm Hk w. unfold mbind, Op_bind. specialize (Hm w).
  destruct (m w) as [[a|e] w1]; simpl in *; [|done].
  eapply same_stores_trans; [exact Hm|apply Hk].
Qed.

Lemma readonly_checkpoint counter : readonly (checkpoint counter).
Proof.
  unfold checkpoint. destruct (_ =? _)%nat; [|apply readonly_ret].
  apply readonly_bind; [apply readonly_want_cancel|].
  intros [|]; [apply readonly_raise|apply readonly_ret].
Qed.

Lemma readonly_get_card id : readonly (get_card id).
Proof.
  apply readonly_bind; [apply readonly_get_col|]. intros c.
  destruct (col_cards c !! id); [apply readonly_ret|apply readonly_raise].
Qed.

Lemma readonly_card_note card : readonly (card_note card).
Proof.
  apply readonly_bind; [apply readonly_get_col|]. intros c.
  destruct (col_notes c !! _); [apply readonly_ret|apply readonly_raise].
Qed.

Lemma Op_bind_Ok {A B} (m : Op A) (k : A → Op B) w b w' :
  (m ≫= k) w = (Ok b, w') ↔ ∃ a w1, m w = (Ok a, w1) ∧ k a w1 = (Ok b, w').
Proof.
  unfold mbind, Op_bind. destruct (m w) as [[a|e] w1]; split.
  - eauto.
  - by intros (? & ? & [= -> ->] & ?).
  - discriminate.
  - by intros (? & ? & ? & ?).
Qed.

Lemma Op_bind_Raise_left {A B} (m : Op A) (k : A → Op B) w e w1 :
  m w = (Raise e, w1) → (m ≫= k) w = (Raise e, w1).
Proof. intros H. unfold mbind, Op_bind. by rewrite H. Qed.

Lemma Op_bind_Ok_left {A B} (m : Op A) (k : A → Op B) w a w1 :
  m w = (Ok a, w1) → (m ≫= k) w = k a w1.
Proof. intros H. unfold mbind, Op_bind. by rewrite H. Qed.

Lemma checkpoint_result counter w :
  (∃ w', checkpoint counter w = (Ok (), w'))
  ∨ (∃ w', checkpoint counter w = (Raise CancelledRecalcException, w')).
Proof.
  unfold checkpoint. destruct (_ =? _)%nat; [|left; by eexists].
  unfold mbind, Op_bind, want_cancel.
  destruct (cancel_requests w) as [|[|] rest]; simpl; eauto.
Qed.

Section EngineProperties.

Variable ignorecase : N → N → bool.
Variable read_filters modify_filters : list AnkiMorphsConfigFilter.
Variable reader :
  AnkiMorphsConfigFilter → option Z → list str → bool → Collection →
  list (Z * AnkiCardData).
Variable tokenizer :
  str → AnkiMorphsConfig → AnkiMorphsConfigFilter → option (list Morpheme).

(** *** The cache builder *)

Lemma readonly_cache_cards_loop am_config config_filter cards counter data :
  readonly (cache_cards_loop tokenizer am_config config_filter cards counter data).
Proof.
  revert counter data. induction cards as [|[id cd] cards IH]; intros counter data.
  - apply readonly_ret.
  - simpl. apply readonly_bind; [apply readonly_checkpoint|]. intros _. apply IH.
Qed.

Lemma readonly_cache_filters_loop am_config filters data :
  readonly (cache_filters_loop reader tokenizer am_config filters data).
Proof.
  revert data. induction filters as [|f filters IH]; intros data.
  - apply readonly_ret.
  - simpl. destruct (decide _); [apply readonly_raise|].
    apply readonly_bind; [apply readonly_get_col|]. intros c.
    apply readonly_bind; [apply readonly_cache_cards_loop|]. intros d. apply IH.
Qed.

(** A loop over the cards of one filter ends normally or is cancelled. *)
Lemma cache_cards_loop_result am_config config_filter cards counter data w r w' :
  cache_cards_loop tokenizer am_config config_filter cards counter data w
    = (r, w') →
  (∃ d, r = Ok d) ∨ r = Raise CancelledRecalcException.
Proof.
  revert counter data w. induction cards as [|[id cd] cards IH]; intros counter data w.
  - intros [= <- <-]. left. by eexists.
  - simpl. unfold mbind, Op_bind.
    destruct (checkpoint_result counter w) as [[w1 ->]|[w1 ->]].
    + apply IH.
    + intros [= <- <-]. by right.
Qed.


(** Without a cancellation request nothing is cancelled. *)
Lemma checkpoint_no_cancel counter w :
  Forall (λ b, b = false) (cancel_requests w) →
  ∃ w', checkpoint counter w = (Ok (), w')
        ∧ Forall (λ b, b = false) (cancel_requests w') ∧ col w' = col w.
Proof.
  intros Hw. unfold checkpoint. destruct (_ =? _)%nat; [|by exists w].
  unfold mbind, Op_bind, want_cancel.
  destruct (cancel_requests w) as [|b rest] eqn:Hreq.
  - exists w. by rewrite Hreq.
  - apply Forall_cons in Hw as [-> Hrest]. eexists. split; [reflexivity|]. done.
Qed.

Lemma cache_cards_loop_no_cancel am_config config_filter cards counter data w :
  Forall (λ b, b = false) (cancel_requests w) →
  ∃ d w', cache_cards_loop tokenizer am_config config_filter cards counter data w
          = (Ok d, w')
          ∧ Forall (λ b, b = false) (cancel_requests w') ∧ col w' = col w.
Proof.
  revert counter data w. induction cards as [|[id cd] cards IH]; intros counter data w Hw.
  - by exists data, w.
  - simpl. destruct (checkpoint_no_cancel counter w Hw) as (w1 & Hc & Hw1 & Hcol).
    unfold mbind at 1, Op_bind at 1. rewrite Hc.
    destruct (IH (S counter) (cache_card tokenizer am_config config_filter id cd data)
                w1 Hw1) as (d & w' & Hl & Hw' & Hcol').
    exists d, w'. split; [done|]. split; [done|congruence].
Qed.



End EngineProperties.



(** ** The queue updater *)

Lemma get_card_Ok id w card w' :
  get_card id w = (Ok card, w') →
  w' = w ∧ ∃ row, col_cards (col w) !! id = Some row
                  ∧ card = {| card_id := id; card_nid := cd_nid row;
                              card_type := cd_type row; card_due := cd_due row |}.
Proof.
  unfold get_card, mbind, Op_bind, get_col.
  destruct (col_cards (col w) !! id) as [row|]; [|discriminate].
  intros [= <- <-]. eauto.
Qed.

Lemma Op_bind_inv {A B} (m : Op A) (k : A → Op B) w r w' :
  (m ≫= k) w = (r, w') →
  (∃ e, m w = (Raise e, w') ∧ r = Raise e) ∨
  (∃ a w1, m w = (Ok a, w1) ∧ k a w1 = (r, w')).
Proof.
  unfold mbind, Op_bind. destruct (m w) as [[a|e] w1].
  - right. eauto.
  - intros [= <- <-]. left. eauto.
Qed.

Lemma lift_Ok {A} (r : result A) w a w' :
  lift r w = (Ok a, w') → r = Ok a ∧ w' = w.
Proof. by intros [= -> ->]. Qed.

Lemma insert_by_Permutation {A} (precedes : A → A → bool) x l :
  insert_by precedes x l ≡ₚ x :: l.
Proof.
  induction l as [|y l IH]; simpl; [done|].
  destruct (precedes y x); [|done]. rewrite IH. apply Permutation_swap.
Qed.

Lemma sorted_by_Permutation {A} (precedes : A → A → bool) l :
  sorted_by precedes l ≡ₚ l.
Proof.
  induction l as [|x l IH]; simpl; [done|].
  rewrite insert_by_Permutation. by rewrite IH.
Qed.

(** The sort puts the cards in the order of their pending due. *)
Lemma sort_by_due_sorted cards :
  StronglySorted (λ x y, card_due x ≤ card_due y) (sort_by_due cards).
Proof.
  unfold sort_by_due, sorted_by.
  induction cards as [|c cards IH]; simpl; [constructor|].
  revert IH. generalize (foldr (insert_by (λ y x, card_due y <? card_due x)) [] cards).
  intros l Hl. induction Hl as [|y l Hs IH Hy]; simpl.
  - repeat constructor.
  - destruct (Z.ltb_spec (card_due y) (card_due c)).
    + constructor; [done|].
      apply Forall_forall. intros z Hz.
      apply insert_by_elem_of in Hz as [->|Hz]; [lia|].
      by apply (proj1 (Forall_forall _ _) Hy).
    + constructor; [by constructor|].
      constructor; [done|].
      eapply Forall_impl; [exact Hy|]. simpl. intros; lia.
Qed.

Lemma assign_unique_due_lookup end_of_queue cards index :
  assign_unique_due end_of_queue cards !! index
  = (λ card, if decide (card_type card = CARD_TYPE_NEW)
             then set_due card (end_of_queue + Z.of_nat index) else card)
      <$> cards !! index.
Proof. unfold assign_unique_due. by rewrite list_lookup_imap. Qed.

Lemma store_cards_lookup rows cards id row :
  store_cards rows cards !! id = Some row →
  (rows !! id = Some row ∧ ∀ card, card ∈ cards → card_id card ≠ id) ∨
  (∃ index card, cards !! index = Some card ∧ card_id card = id
                 ∧ row = card_data card).
Proof.
  unfold store_cards. revert rows.
  induction cards as [|c cards IH] using rev_ind; intros rows; simpl.
  - intros H. left. split; [done|]. intros card Hc. by apply elem_of_nil in Hc.
  - rewrite foldl_app. simpl.
    destruct (decide (card_id c = id)) as [<-|Hne].
    + rewrite lookup_insert_eq. intros [= <-]. right.
      exists (length cards), c. split; [|done].
      by rewrite lookup_app_r, Nat.sub_diag.
    + rewrite lookup_insert_ne by done. intros H.
      apply IH in H as [[H Hall]|(index & card & Hi & Hid & Hrow)].
      * left. split; [done|]. intros card Hc.
        apply elem_of_app in Hc as [Hc|Hc]; [by apply Hall|].
        apply list_elem_of_singleton in Hc. by subst.
      * right. exists index, card. split; [|done].
        by apply lookup_app_l_Some.
Qed.

Lemma store_cards_untouched rows cards id :
  (∀ card, card ∈ cards → card_id card ≠ id) →
  store_cards rows cards !! id = rows !! id.
Proof.
  unfold store_cards. revert rows. induction cards as [|c cards IH]; intros rows Hall.
  - done.
  - simpl. rewrite IH.
    + apply lookup_insert_ne. apply Hall, list_elem_of_here.
    + intros card Hc. apply Hall. by apply list_elem_of_further.
Qed.

Lemma store_cards_is_Some rows cards id :
  id ∈ map card_id cards → is_Some (store_cards rows cards !! id).
Proof.
  unfold store_cards. revert rows.
  induction cards as [|c cards IH] using rev_ind; intros rows.
  - simpl. intros H. by apply elem_of_nil in H.
  - rewrite foldl_app, map_app. simpl. intros H.
    destruct (decide (card_id c = id)) as [<-|Hne].
    + rewrite lookup_insert_eq. by eexists.
    + rewrite lookup_insert_ne by done. apply IH.
      apply elem_of_app in H as [H|H]; [done|].
      apply list_elem_of_singleton in H. by subst.
Qed.

Lemma store_cards_keeps rows cards id :
  is_Some (rows !! id) → is_Some (store_cards rows cards !! id).
Proof.
  unfold store_cards. revert rows. induction cards as [|c cards IH]; intros rows H.
  - done.
  - simpl. apply IH. destruct (decide (card_id c = id)) as [<-|Hne].
    + rewrite lookup_insert_eq. by eexists.
    + by rewrite lookup_insert_ne.
Qed.

Lemma assign_unique_due_elem end_of_queue cards index card :
  assign_unique_due end_of_queue cards !! index = Some card →
  ∃ card0, cards !! index = Some card0 ∧ card_id card = card_id card0
           ∧ card_nid card = card_nid card0 ∧ card_type card = card_type card0
           ∧ (card_type card0 = CARD_TYPE_NEW →
              card_due card = end_of_queue + Z.of_nat index)
           ∧ (card_type card0 ≠ CARD_TYPE_NEW → card = card0).
Proof.
  rewrite assign_unique_due_lookup.
  destruct (cards !! index) as [card0|]; [|discriminate]. simpl.
  intros [= <-]. exists card0. split; [done|].
  destruct (decide _) as [Hnew|Hold]; simpl; repeat split; auto; done.
Qed.

(** A touched new card ends with the key [end_of_queue + index], where
    [index] is a position it has in the sorted list. *)
Lemma touched_new_due rows end_of_queue pending i ri :
  i ∈ map card_id pending →
  store_cards rows (assign_unique_due end_of_queue (sort_by_due pending)) !! i
    = Some ri →
  cd_type ri = CARD_TYPE_NEW →
  ∃ index card0, sort_by_due pending !! index = Some card0 ∧ card_id card0 = i
                 ∧ cd_due ri = end_of_queue + Z.of_nat index.
Proof.
  intros Hi Hri Hnew.
  apply store_cards_lookup in Hri as [[_ Hall]|(index & card & Hidx & Hid & ->)].
  - exfalso. apply list_elem_of_In, in_map_iff in Hi as (c & Hc & Hin).
    apply list_elem_of_In in Hin.
    assert (Hs : c ∈ sort_by_due pending) by by apply sorted_by_elem_of.
    apply list_elem_of_lookup in Hs as [k Hk].
    apply (Hall (if decide (card_type c = CARD_TYPE_NEW)
                 then set_due c (end_of_queue + Z.of_nat k) else c)).
    + apply list_elem_of_lookup. exists k.
      by rewrite assign_unique_due_lookup, Hk.
    + by destruct (decide _).
  - apply assign_unique_due_elem in Hidx
      as (card0 & Hk & Hid0 & _ & Hty & Hdue & _).
    exists index, card0. split; [done|]. split; [congruence|].
    simpl in *. apply Hdue. congruence.
Qed.

Section QueueProperties.

Variable ignorecase : N → N → bool.
Variable modify_filters : list AnkiMorphsConfigFilter.

Lemma readonly_update_card am_config config_filter cmm mc mp id :
  readonly (update_card ignorecase am_config config_filter cmm mc mp id).
Proof.
  unfold update_card.
  apply readonly_bind; [apply readonly_get_card|]. intros card.
  apply readonly_bind; [apply readonly_card_note|]. intros note.
  apply readonly_bind.
  - destruct (decide _); [|apply readonly_ret].
    apply readonly_bind; [apply readonly_lift|]. intros [d u].
    apply readonly_bind; [apply readonly_lift|]. intros note1.
    apply readonly_bind; [apply readonly_lift|]. intros note2.
    apply readonly_ret.
  - intros [card' note']. apply readonly_bind; [apply readonly_lift|].
    intros note''. apply readonly_ret.
Qed.

Lemma readonly_update_cards_loop am_config config_filter cmm mc mp ids counter
    modified :
  readonly (update_cards_loop ignorecase am_config config_filter cmm mc mp ids
              counter modified).
Proof.
  revert counter modified. induction ids as [|id ids IH]; intros counter modified.
  - apply readonly_ret.
  - simpl. apply readonly_bind; [apply readonly_checkpoint|]. intros _.
    apply readonly_bind; [apply readonly_update_card|]. intros [card note].
    apply IH.
Qed.

Lemma readonly_update_filters_loop am_config db cmm mc mp filters modified :
  readonly (update_filters_loop ignorecase am_config db cmm mc mp filters
              modified).
Proof.
  revert modified. induction filters as [|f filters IH]; intros modified.
  - apply readonly_ret.
  - simpl. destruct (note_type_id f); [|apply readonly_raise].
    apply readonly_bind; [apply readonly_update_cards_loop|]. intros m. apply IH.
Qed.

(** Highlighting writes a field and leaves the tags. *)
Lemma update_highlighted_field_tags am_config config_filter cmm mc id note note' :
  update_highlighted_field ignorecase am_config config_filter cmm mc id note
    = Ok note' →
  note_tags note' = note_tags note.
Proof.
  unfold update_highlighted_field.
  destruct (cmm !! id) as [card_morphs|]; [|by intros [= <-]].
  destruct (highlighted_field_index config_filter) as [index|];
    [|by intros [= <-]].
  destruct (field_index config_filter) as [source|]; [|discriminate].
  destruct (0 <? index); [|by intros [= <-]].
  intros H. apply bind_Ok in H as (text & _ & H).
  apply bind_Ok in H as (highlighted & _ & H).
  apply bind_Ok in H as (fields & _ & H). by injection H as <-.
Qed.

(** The object that the loop body hands on is the card's row, with a new
    due only if the card is new. *)
Lemma update_card_Ok am_config config_filter cmm mc mp id w card note w' :
  update_card ignorecase am_config config_filter cmm mc mp id w
    = (Ok (card, note), w') →
  card_id card = id ∧ loaded_from (col_cards (col w)) card.
Proof.
  unfold update_card. intros H.
  apply Op_bind_Ok in H as (card0 & w1 & Hcard & H).
  apply get_card_Ok in Hcard as (-> & row & Hrow & ->).
  apply Op_bind_Ok in H as (note0 & w2 & Hnote & H).
  apply Op_bind_Ok in H as ([card1 note1] & w3 & Hbranch & H).
  apply Op_bind_Ok in H as (note2 & w4 & _ & H).
  injection H as <- <- <-.
  destruct (decide _) as [Hnew|Hold]; simpl in *.
  - apply Op_bind_Ok in Hbranch as ([d u] & w5 & _ & Hbranch).
    apply Op_bind_Ok in Hbranch as (n1 & w6 & _ & Hbranch).
    apply Op_bind_Ok in Hbranch as (n2 & w7 & _ & Hbranch).
    injection Hbranch as <- <- <-. simpl. split; [done|].
    exists row. simpl. done.
  - injection Hbranch as <- <- <-. simpl. split; [done|].
    exists row. simpl. done.
Qed.

Lemma update_cards_loop_Ok am_config config_filter cmm mc mp ids counter
    modified w cards notes w' :
  update_cards_loop ignorecase am_config config_filter cmm mc mp ids counter
    modified w = (Ok (cards, notes), w') →
  ∃ loaded, cards = modified.1 ++ loaded ∧ map card_id loaded = ids
            ∧ Forall (loaded_from (col_cards (col w))) loaded.
Proof.
  revert counter modified w. induction ids as [|id ids IH]; intros counter modified w.
  - intros [= -> <-]. exists []. simpl. by rewrite app_nil_r.
  - simpl. intros H.
    apply Op_bind_Ok in H as ([] & w1 & Hcheck & H).
    apply Op_bind_Ok in H as ([card note] & w2 & Hcard & H).
    pose proof (readonly_checkpoint counter w) as Hro1. rewrite Hcheck in Hro1.
    pose proof (readonly_update_card am_config config_filter cmm mc mp id w1)
      as Hro2. rewrite Hcard in Hro2.
    destruct Hro1 as [_ Hcol1]. destruct Hro2 as [_ Hcol2]. simpl in *.
    apply update_card_Ok in Hcard as [Hid Hloaded].
    apply IH in H as (loaded & -> & Hids & Hall). simpl.
    exists (card :: loaded). rewrite <- app_assoc. simpl. split; [done|].
    split; [by rewrite Hid, Hids|].
    rewrite Hcol2, Hcol1 in Hall. rewrite Hcol1 in Hloaded. by constructor.
Qed.

Lemma update_filters_loop_Ok am_config db cmm mc mp filters modified w cards
    notes w' :
  update_filters_loop ignorecase am_config db cmm mc mp filters modified w
    = (Ok (cards, notes), w') →
  ∃ loaded, cards = modified.1 ++ loaded
            ∧ map card_id loaded = touched_ids db filters
            ∧ Forall (loaded_from (col_cards (col w))) loaded.
Proof.
  revert modified w. induction filters as [|f filters IH]; intros modified w.
  - intros [= -> <-]. exists []. simpl. by rewrite app_nil_r.
  - simpl. unfold touched_ids. simpl.
    destruct (note_type_id f) as [ntid|]; [|discriminate].
    intros H. apply Op_bind_Ok in H as ([cards1 notes1] & w1 & Hloop & H).
    pose proof (readonly_update_cards_loop am_config f cmm mc mp
                  (map fst (get_am_cards_data_dict db ntid)) 0 modified w) as Hro.
    rewrite Hloop in Hro. destruct Hro as [_ Hcol]. simpl in Hcol.
    apply update_cards_loop_Ok in Hloop as (l1 & -> & Hids1 & Hall1).
    apply IH in H as (l2 & -> & Hids2 & Hall2). simpl.
    exists (l1 ++ l2). rewrite <- app_assoc. split; [done|].
    split; [by rewrite map_app, Hids1, Hids2|].
    rewrite Hcol in Hall2. by apply Forall_app.
Qed.

(** What a run of [update_cards] does to the card rows: nothing when it
    raises, and otherwise it stores the cards it went through after the
    unique-due pass. *)
Lemma update_cards_rows am_config w r w' :
  update_cards ignorecase modify_filters am_config w = (r, w') →
  (∃ e, r = Raise e ∧ col_cards (col w') = col_cards (col w)) ∨
  (r = Ok () ∧
   ∃ pending,
     map card_id pending = touched_ids (am_db w) modify_filters
     ∧ Forall (loaded_from (col_cards (col w))) pending
     ∧ col_cards (col w')
       = store_cards (col_cards (col w))
           (assign_unique_due (new_card_count (col_cards (col w)))
              (sort_by_due pending))).
Proof.
  unfold update_cards. intros H.
  do 5 (erewrite Op_bind_Ok_left in H by reflexivity).
  match type of H with
  | (_ ≫= _) ?w0 = _ => set (w1 := w0) in *
  end.
  assert (Hrows : col_cards (col w1) = col_cards (col w)) by done.
  pose proof (readonly_update_filters_loop am_config (am_db w)
                (get_card_morph_map_cache (am_db w)) (get_morph_cache (am_db w))
                (get_morph_priority (am_db w) am_config) modify_filters
                ([], []) w1) as Hro.
  apply Op_bind_inv in H as [(e & Hloop & ->)|([cards notes] & w2 & Hloop & H)];
    rewrite Hloop in Hro; destruct Hro as [_ Hcol]; simpl in Hcol.
  - left. exists e. split; [done|]. by rewrite Hcol.
  - right. apply update_filters_loop_Ok in Hloop as (pending & -> & Hids & Hall).
    simpl in H. injection H as <- <-. split; [done|].
    exists pending. split; [done|]. rewrite Hrows in Hall. split; [done|].
    simpl. rewrite Hcol. done.
Qed.

(** C9: a card that is not new keeps its due through the whole update.
    The loop body hands on the row as it was loaded, with the tags of its
    note, the unique-due pass skips it, and the rows stored at the end
    (or left alone when the update raises) are the rows from before. *)
Theorem non_new_cards_keep_due am_config w r w' id row :
  update_cards ignorecase modify_filters am_config w = (r, w') →
  col_cards (col w) !! id = Some row →
  cd_type row ≠ CARD_TYPE_NEW →
  col_cards (col w') !! id = Some row
  ∧ (∀ config_filter cmm mc mp w0 card note w1,
       col w0 = col w →
       update_card ignorecase am_config config_filter cmm mc mp id w0
         = (Ok (card, note), w1) →
       card_data card = row
       ∧ ∃ nrow, col_notes (col w) !! cd_nid row = Some nrow
                 ∧ note_tags note = nd_tags nrow)
  ∧ (∀ end_of_queue cards index card,
       cards !! index = Some card → card_data card = row →
       assign_unique_due end_of_queue cards !! index = Some card).
Proof.
  intros Hrun Hrow Hold. split; [|split].
  - apply update_cards_rows in Hrun
      as [(e & _ & ->)|(_ & pending & Hids & Hall & ->)]; [done|].
    destruct (store_cards_keeps (col_cards (col w))
                (assign_unique_due (new_card_count (col_cards (col w)))
                   (sort_by_due pending)) id) as [r' Hr']; [by eexists|].
    rewrite Hr'. f_equal.
    apply store_cards_lookup in Hr'
      as [[Hr' _]|(index & card & Hidx & Hid & ->)]; [congruence|].
    apply assign_unique_due_elem in Hidx
      as (card0 & Hk & Hid0 & _ & _ & _ & Hsame).
    apply list_elem_of_lookup_2, sorted_by_elem_of in Hk.
    apply (proj1 (Forall_forall _ _) Hall) in Hk
      as (row0 & Hrow0 & Hnid & Hty & Hdue).
    assert (row0 = row) as -> by congruence.
    assert (Hold0 : card_type card0 ≠ CARD_TYPE_NEW) by congruence.
    rewrite (Hsame Hold0). unfold card_data.
    rewrite Hnid, Hty, (Hdue Hold0). by destruct row.
  - intros config_filter cmm mc mp w0 card note w1 Hcol H.
    unfold update_card in H.
    apply Op_bind_Ok in H as (card0 & w2 & Hcard & H).
    apply get_card_Ok in Hcard as (-> & row0 & Hrow0 & ->).
    rewrite Hcol, Hrow in Hrow0. injection Hrow0 as <-.
    apply Op_bind_Ok in H as (note0 & w3 & Hnote & H).
    unfold card_note, mbind at 1, Op_bind at 1, get_col in Hnote. simpl in Hnote.
    rewrite Hcol in Hnote.
    destruct (col_notes (col w) !! cd_nid row) as [nrow|]; [|discriminate].
    injection Hnote as <- <-.
    apply Op_bind_Ok in H as ([card1 note1] & w4 & Hbranch & H).
    apply Op_bind_Ok in H as (note2 & w5 & Hhl & H).
    injection H as <- <- <-.
    rewrite decide_False in Hbranch by done. injection Hbranch as <- <- <-.
    split; [by destruct row|]. exists nrow. split; [done|].
    apply lift_Ok in Hhl as [Hhl _].
    by apply update_highlighted_field_tags in Hhl.
  - intros end_of_queue cards index card Hidx Hdata.
    rewrite assign_unique_due_lookup, Hidx. simpl.
    rewrite decide_False; [done|]. subst row. simpl in Hold. done.
Qed.

(** What the unique-due pass does: the modified cards are sorted by their
    pending due and the new cards among them get the key
    [end_of_queue + index], where [end_of_queue] is the number of new
    cards in the collection.  So the final keys of the recalculated new
    cards are pairwise distinct, not below [end_of_queue], and strictly
    greater than the key of every untouched card whose key is below
    [end_of_queue]; the untouched cards keep their rows, whatever their
    keys are. *)
Theorem unique_due_pass am_config w w' :
  update_cards ignorecase modify_filters am_config w = (Ok (), w') →
  let end_of_queue := new_card_count (col_cards (col w)) in
  let touched := touched_ids (am_db w) modify_filters in
  (∃ pending,
     map card_id pending = touched
     ∧ StronglySorted (λ x y, card_due x ≤ card_due y) (sort_by_due pending)
     ∧ col_cards (col w')
       = store_cards (col_cards (col w))
           (assign_unique_due end_of_queue (sort_by_due pending))
     ∧ ∀ index card,
         assign_unique_due end_of_queue (sort_by_due pending) !! index
           = Some card →
         card_type card = CARD_TYPE_NEW →
         card_due card = end_of_queue + Z.of_nat index) ∧
  (∀ i ri, i ∈ touched → col_cards (col w') !! i = Some ri →
     cd_type ri = CARD_TYPE_NEW →
     end_of_queue ≤ cd_due ri < end_of_queue + Z.of_nat (length touched)) ∧
  (∀ i j ri rj, i ∈ touched → j ∈ touched → i ≠ j →
     col_cards (col w') !! i = Some ri → col_cards (col w') !! j = Some rj →
     cd_type ri = CARD_TYPE_NEW → cd_type rj = CARD_TYPE_NEW →
     cd_due ri ≠ cd_due rj) ∧
  (∀ u ru, u ∉ touched → col_cards (col w) !! u = Some ru →
     col_cards (col w') !! u = Some ru) ∧
  (∀ i ri u ru, i ∈ touched → u ∉ touched →
     col_cards (col w') !! i = Some ri → cd_type ri = CARD_TYPE_NEW →
     col_cards (col w) !! u = Some ru → cd_due ru < end_of_queue →
     cd_due ru < cd_due ri).
Proof.
  intros Hrun end_of_queue touched.
  apply update_cards_rows in Hrun
    as [(e & [=] & _)|(_ & pending & Hids & Hall & Hrows)].
  fold end_of_queue in Hrows. fold touched in Hids.
  assert (Hlen : length (sort_by_due pending) = length touched).
  { rewrite <- Hids, length_map. apply Permutation_length, sorted_by_Permutation. }
  assert (Hkey : ∀ i ri, i ∈ touched → col_cards (col w') !! i = Some ri →
            cd_type ri = CARD_TYPE_NEW →
            ∃ index card0, sort_by_due pending !! index = Some card0
                           ∧ card_id card0 = i
                           ∧ cd_due ri = end_of_queue + Z.of_nat index).
  { intros i ri Hi Hri Hnew. rewrite Hrows in Hri. rewrite <- Hids in Hi.
    by apply (touched_new_due _ _ _ _ _ Hi Hri). }
  split; [|split; [|split; [|split]]].
  - exists pending. split; [done|]. split; [apply sort_by_due_sorted|].
    split; [done|]. intros index card Hidx Hnew.
    apply assign_unique_due_elem in Hidx as (card0 & _ & _ & _ & Hty & Hdue & _).
    apply Hdue. congruence.
  - intros i ri Hi Hri Hnew.
    destruct (Hkey i ri Hi Hri Hnew) as (index & card0 & Hidx & _ & ->).
    apply lookup_lt_Some in Hidx. lia.
  - intros i j ri rj Hi Hj Hij Hri Hrj Hni Hnj Heq.
    destruct (Hkey i ri Hi Hri Hni) as (a & ca & Ha & Hida & Hda).
    destruct (Hkey j rj Hj Hrj Hnj) as (b & cb & Hb & Hidb & Hdb).
    assert (a = b) as -> by lia. congruence.
  - intros u ru Hu Hru. rewrite Hrows, store_cards_untouched; [done|].
    intros card Hcard Hid. apply Hu. rewrite <- Hids, <- Hid.
    apply list_elem_of_lookup in Hcard as [index Hidx].
    apply assign_unique_due_elem in Hidx as (card0 & Hk & -> & _).
    apply list_elem_of_lookup_2, sorted_by_elem_of in Hk.
    apply list_elem_of_In, in_map. by apply list_elem_of_In.
  - intros i ri u ru Hi Hu Hri Hni Hru Hlow.
    destruct (Hkey i ri Hi Hri Hni) as (index & card0 & _ & _ & ->). lia.
Qed.

End QueueProperties.

Lemma non_new_cards_keep_due_witness :
  col_cards (col (update_cards ascii_ignorecase [sample_filter]
                    (sample_config true false) sample_world).2) !! 2
  = Some {| cd_nid := 12; cd_type := 2; cd_due := 55 |}.
Proof.
  refine (proj1 (non_new_cards_keep_due ascii_ignorecase [sample_filter]
                   (sample_config true false) sample_world
                   (update_cards ascii_ignorecase [sample_filter]
                      (sample_config true false) sample_world).1
                   (update_cards ascii_ignorecase [sample_filter]
                      (sample_config true false) sample_world).2
                   2 {| cd_nid := 12; cd_type := 2; cd_due := 55 |} _ _ _)).
  - by destruct (update_cards _ _ _ _).
  - vm_compute; reflexivity.
  - vm_compute; discriminate.
Defined.

Lemma unique_due_pass_witness :
  col_cards (col (update_cards ascii_ignorecase [sample_filter]
                    (sample_config true false) sample_world).2) !! 4
  = Some {| cd_nid := 14; cd_type := 0; cd_due := 100 |}.
Proof.
  refine (proj1 (proj2 (proj2 (proj2
    (unique_due_pass ascii_ignorecase [sample_filter] (sample_config true false)
       sample_world
       (update_cards ascii_ignorecase [sample_filter]
          (sample_config true false) sample_world).2 _)))) 4 _ _ _).
  - vm_compute; reflexivity.
  - vm_compute. intros Hin.
    repeat (apply elem_of_cons in Hin as [Hin|Hin]; [discriminate|]).
    by apply elem_of_nil in Hin.
  - vm_compute; reflexivity.
Defined.

(** The keys of the untouched new cards are never read: the untouched new
    card 4 holds the key 100, and the recalculated new card 1 ends with
    the key 4, below it. *)
Lemma unique_due_below_untouched :
  ¬ unique_due_above_untouched [sample_filter] (sample_config true false)
      sample_world.
Proof.
  intros H.
  specialize (H (update_cards ascii_ignorecase [sample_filter]
                   (sample_config true false) sample_world).2).
  destruct H as [_ H]; [vm_compute; reflexivity|].
  specialize (H 1 {| cd_nid := 11; cd_type := 0; cd_due := 4 |}
                4 {| cd_nid := 14; cd_type := 0; cd_due := 100 |}).
  simpl in H. assert (100 < 4); [|lia].
  apply H; try (vm_compute; reflexivity).
  - vm_compute. apply list_elem_of_here.
  - vm_compute. intros Hin.
    repeat (apply elem_of_cons in Hin as [Hin|Hin]; [discriminate|]).
    by apply elem_of_nil in Hin.
Qed.

(** C2: the pass does not make the keys unique.  In [crowded_world] the
    new cards are 1, 3 and 4, so [end_of_queue] is 3; the cache holds the
    cards 1, 2 and 3, and the sorted list of the modified cards is 2, 1,
    3.  Card 1 gets the key 3 + 1 = 4, which the untouched new card 4
    holds already and keeps: two new cards end with the same due, which
    the pass is there to prevent. *)
Theorem unique_due_pass_repeats_key :
  let run := update_cards ascii_ignorecase [sample_filter]
               (sample_config true false) crowded_world in
  run.1 = Ok ()
  ∧ touched_ids (am_db crowded_world) [sample_filter] = [1; 2; 3]
  ∧ col_cards (col crowded_world) !! 4
    = Some {| cd_nid := 14; cd_type := CARD_TYPE_NEW; cd_due := 4 |}
  ∧ col_cards (col run.2) !! 1
    = Some {| cd_nid := 11; cd_type := CARD_TYPE_NEW; cd_due := 4 |}
  ∧ col_cards (col run.2) !! 4
    = Some {| cd_nid := 14; cd_type := CARD_TYPE_NEW; cd_due := 4 |}.
Proof.
  cbv zeta. split; [vm_compute; reflexivity|].
  split; [vm_compute; reflexivity|].
  split; [vm_compute; reflexivity|].
  split; vm_compute; reflexivity.
Qed.

(** ** The highlighter *)

(** ** The highlighter *)

Lemma span_close_eq : span_close = [60; 47; 115; 112; 97; 110; 62]%N.
Proof. reflexivity. Qed.

Lemma span_open_eq : span_open = [60; 115; 112; 97; 110]%N.
Proof. reflexivity. Qed.

(** Both [<span] and [</span>] have their only [<] in front. *)
Lemma span_close_lookup i : (0 < i)%nat → span_close !! i ≠ Some 60%N.
Proof.
  rewrite span_close_eq. intros Hi.
  do 8 (destruct i as [|i]; [first [lia | discriminate]|]). done.
Qed.

Lemma span_open_lookup i : (0 < i)%nat → span_open !! i ≠ Some 60%N.
Proof.
  rewrite span_open_eq. intros Hi.
  do 6 (destruct i as [|i]; [first [lia | discriminate]|]). done.
Qed.

Lemma prefix_lookup (pat l : str) i :
  pat `prefix_of` l → (i < length pat)%nat → l !! i = pat !! i.
Proof. intros [k ->] Hi. by rewrite lookup_app_l. Qed.

(** A pattern cannot sit across the start of a text that begins with [<],
    unless the pattern has a [<] inside. *)
Lemma prefix_straddle (pat g W : str) :
  pat `prefix_of` g ++ 60%N :: W → (length g < length pat)%nat →
  pat !! length g = Some 60%N.
Proof.
  intros Hpre Hlen. rewrite <- (prefix_lookup pat _ _ Hpre Hlen).
  by rewrite lookup_app_r, Nat.sub_diag.
Qed.

Lemma prefix_short (pat l k : str) :
  pat `prefix_of` l ++ k → (length pat ≤ length l)%nat → pat `prefix_of` l.
Proof.
  intros [r Hr] Hlen. exists (drop (length pat) l).
  assert (Ht : take (length pat) (l ++ k) = pat) by (rewrite Hr; apply take_app_length).
  rewrite take_app_le in Ht by done. rewrite <- Ht at 1. by rewrite take_drop.
Qed.

(** *** Looking for the end of a span *)

Lemma find_close_unfold u :
  find_close u =
  if decide (span_close `prefix_of` u) then Some (length span_close)
  else match u with
       | [] => None
       | c :: u' => if decide (c = newline) then None else S <$> find_close u'
       end.
Proof. by destruct u. Qed.

Lemma find_close_bounds u k :
  find_close u = Some k → (7 ≤ k ≤ length u)%nat.
Proof.
  revert k. induction u as [|c u IH]; intros k; rewrite find_close_unfold.
  - destruct (decide _) as [Hp|_]; [|done].
    apply prefix_length in Hp. simpl in Hp. lia.
  - destruct (decide _) as [Hp|_].
    + intros [= <-]. apply prefix_length in Hp. simpl in *. lia.
    + destruct (decide _); [done|].
      destruct (find_close u) as [k'|]; [|done]. intros [= <-].
      specialize (IH k' eq_refl). simpl. lia.
Qed.

(** Once the end is found, what follows does not matter. *)
Lemma find_close_app u Y k :
  find_close u = Some k → find_close (u ++ Y) = Some k.
Proof.
  revert k. induction u as [|c u IH]; intros k; rewrite find_close_unfold.
  - destruct (decide _) as [Hp|_]; [|done].
    apply prefix_length in Hp. simpl in Hp. lia.
  - destruct (decide _) as [Hp|Hp].
    + intros [= <-]. rewrite find_close_unfold.
      rewrite decide_True; [done|]. by apply prefix_app_r.
    + destruct (decide (c = newline)) as [|Hc]; [done|].
      destruct (find_close u) as [k'|] eqn:Hk; [|done]. intros [= <-].
      rewrite <- app_comm_cons, find_close_unfold.
      destruct (decide _) as [Hp'|_].
      * exfalso. apply Hp. rewrite app_comm_cons in Hp'.
        eapply prefix_short; [exact Hp'|].
        apply find_close_bounds in Hk. simpl. lia.
      * rewrite decide_False by done. by rewrite (IH k').
Qed.

Lemma find_close_take u k :
  find_close u = Some k → find_close (take k u) = Some k.
Proof.
  revert k. induction u as [|c u IH]; intros k; rewrite find_close_unfold.
  - destruct (decide _) as [Hp|_]; [|done].
    apply prefix_length in Hp. simpl in Hp. lia.
  - destruct (decide _) as [Hp|Hp].
    + intros [= <-]. destruct Hp as [r Hr]. rewrite Hr.
      rewrite (take_app_length' span_close r 7) by done.
      rewrite find_close_unfold. by rewrite decide_True.
    + destruct (decide (c = newline)) as [|Hc]; [done|].
      destruct (find_close u) as [k'|] eqn:Hk; [|done]. intros [= <-].
      simpl take. rewrite find_close_unfold.
      destruct (decide _) as [Hp'|_].
      * exfalso. apply Hp. destruct Hp' as [r Hr].
        exists (r ++ drop k' u). rewrite app_assoc, <- Hr. simpl.
        by rewrite take_drop.
      * rewrite decide_False by done. by rewrite (IH k').
Qed.

(** Characters that cannot start [</span>] and are not line breaks are
    stepped over. *)
Lemma find_close_skip u v :
  newline ∉ u →
  (∀ u1 c u2, u = u1 ++ c :: u2 → ¬ span_close `prefix_of` c :: u2 ++ v) →
  find_close (u ++ v) = (λ k, length u + k)%nat <$> find_close v.
Proof.
  induction u as [|c u IH]; intros Hnl Hno.
  - simpl. by destruct (find_close v).
  - rewrite <- app_comm_cons, find_close_unfold.
    rewrite decide_False by (apply (Hno [] c u); done).
    rewrite decide_False by (intros ->; apply Hnl, list_elem_of_here).
    rewrite IH.
    + destruct (find_close v); done.
    + intros Hin. apply Hnl. by apply list_elem_of_further.
    + intros u1 c' u2 ->. apply (Hno (c :: u1) c' u2). done.
Qed.

Lemma find_close_span_close Y : find_close (span_close ++ Y) = Some 7%nat.
Proof.
  rewrite find_close_unfold. rewrite decide_True; [done|].
  by apply prefix_app_r.
Qed.

(** *** Closed spans *)

Lemma closed_span_head W : closed_span W → ∃ W', W = 60%N :: W'.
Proof. intros [[k ->] _]. rewrite span_open_eq. simpl. eauto. Qed.

Lemma find_close_span_open u :
  find_close (span_open ++ u) = (λ k, 5 + k)%nat <$> find_close u.
Proof.
  apply (find_close_skip span_open u).
  - rewrite span_open_eq. intros Hin.
    repeat (apply elem_of_cons in Hin as [Hin|Hin]; [discriminate|]).
    by apply elem_of_nil in Hin.
  - intros u1 c u2 Hu Hp.
    assert (Hc : span_open !! length u1 = Some c)
      by (rewrite Hu; by rewrite lookup_app_r, Nat.sub_diag).
    assert (c = 60%N) as -> by (by apply prefix_cons_inv_1 in Hp).
    destruct u1 as [|c1 u1].
    + rewrite span_open_eq in Hu. injection Hu as <-.
      by apply prefix_cons_inv_2, prefix_cons_inv_1 in Hp.
    + by apply span_open_lookup in Hc; [|simpl; lia].
Qed.

Lemma closed_span_length W : closed_span W → (12 ≤ length W)%nat.
Proof.
  intros [[k ->] Hc]. specialize (Hc []). rewrite app_nil_r in Hc.
  rewrite find_close_span_open in Hc.
  destruct (find_close k) as [n|] eqn:Hn; [|done].
  apply find_close_bounds in Hn. rewrite length_app. simpl. lia.
Qed.

Lemma closed_span_match W Y : closed_span W → span_match (W ++ Y) = Some (length W).
Proof.
  intros [[k ->] Hc]. specialize (Hc Y).
  rewrite <- (app_assoc span_open k Y) in Hc. rewrite <- app_assoc.
  rewrite find_close_span_open in Hc. unfold span_match.
  rewrite decide_True by by apply prefix_app_r.
  rewrite drop_app_length.
  destruct (find_close (k ++ Y)) as [n|]; [|done].
  rewrite length_app in *. simpl in *. injection Hc as Hc. f_equal. lia.
Qed.

Lemma span_match_Some s n :
  span_match s = Some n →
  ∃ u k, s = span_open ++ u ∧ find_close u = Some k ∧ n = (5 + k)%nat.
Proof.
  unfold span_match. destruct (decide _) as [[u ->]|]; [|done].
  rewrite drop_app_length. destruct (find_close u) as [k|] eqn:Hk; [|done].
  intros [= <-]. by exists u, k.
Qed.

(** What [re.split] cuts out as a span is a closed span. *)
Lemma span_match_closed s n : span_match s = Some n → closed_span (take n s).
Proof.
  intros (u & k & -> & Hk & ->)%span_match_Some.
  assert (Htake : take (5 + k) (span_open ++ u) = span_open ++ take k u).
  { rewrite take_app. f_equal.
    - by rewrite take_ge by (simpl; lia).
    - f_equal. simpl. lia. }
  rewrite Htake. split; [by apply prefix_app_r|]. intros Y.
  rewrite <- app_assoc, find_close_span_open.
  rewrite (find_close_app _ _ k) by by apply find_close_take.
  apply find_close_bounds in Hk.
  rewrite length_app, length_take. simpl. f_equal. lia.
Qed.

(** A search from inside a text followed by a closed span gets past that
    span only by ending at its end. *)
Lemma find_close_gap g W Y k :
  closed_span W → find_close (g ++ W ++ Y) = Some k →
  (k ≤ length g)%nat ∨ k = (length g + length W)%nat.
Proof.
  intros HW. revert k. induction g as [|c g IH]; intros k.
  - simpl. destruct HW as [_ HW]. rewrite HW. intros [= <-]. by right.
  - rewrite <- app_comm_cons, find_close_unfold.
    destruct (decide _) as [Hp|Hp].
    + intros [= <-]. left. simpl.
      destruct (decide (7 ≤ S (length g))%nat) as [|Hshort]; [done|exfalso].
      destruct (closed_span_head W HW) as [W' ->].
      rewrite app_comm_cons in Hp. rewrite <- (app_comm_cons W') in Hp.
      apply prefix_straddle in Hp; [|simpl in *; lia].
      by apply span_close_lookup in Hp; [|simpl; lia].
    + destruct (decide _); [done|].
      destruct (find_close (g ++ W ++ Y)) as [k'|]; [|done]. intros [= <-].
      destruct (IH k' eq_refl) as [?| ->]; [left|right]; simpl; lia.
Qed.

(** The outcome of such a search does not depend on what comes after the
    closed span. *)
Lemma find_close_context g W Y Y' :
  closed_span W → find_close (g ++ W ++ Y) = find_close (g ++ W ++ Y').
Proof.
  intros HW. induction g as [|c g IH].
  - simpl. destruct HW as [_ HW]. by rewrite !HW.
  - rewrite <- !app_comm_cons, !(find_close_unfold (c :: _)).
    pose proof (closed_span_length W HW) as Hlen.
    assert (Hpre : ∀ Z, span_close `prefix_of` c :: g ++ W ++ Z
                        ↔ span_close `prefix_of` c :: g ++ W).
    { intros Z. split.
      - intros Hp. rewrite app_assoc, app_comm_cons in Hp.
        eapply prefix_short; [exact Hp|]. simpl. rewrite length_app. lia.
      - intros Hp. rewrite app_assoc, app_comm_cons. by apply prefix_app_r. }
    destruct (decide (span_close `prefix_of` c :: g ++ W ++ Y)) as [Hp|Hp];
      destruct (decide (span_close `prefix_of` c :: g ++ W ++ Y')) as [Hp'|Hp'].
    + done.
    + exfalso. apply Hp', (proj2 (Hpre Y')), (proj1 (Hpre Y)), Hp.
    + exfalso. apply Hp, (proj2 (Hpre Y)), (proj1 (Hpre Y')), Hp'.
    + by rewrite IH.
Qed.

(** *** Splitting on spans *)

Lemma split_nil : re_split_span [] = [[]].
Proof. by simp re_split_span. Qed.

Lemma split_None c s :
  span_match (c :: s) = None →
  re_split_span (c :: s) = push_front c (re_split_span s).
Proof. intros H. simp re_split_span. rewrite H. by simp re_split_span. Qed.

Lemma split_Some s n :
  span_match s = Some n →
  re_split_span s = [] :: take n s :: re_split_span (drop n s).
Proof.
  intros H. pose proof (span_match_Some _ _ H) as (u & k & -> & _ & ->).
  revert H. rewrite span_open_eq. simpl. intros H.
  simp re_split_span. rewrite H. by simp re_split_span.
Qed.

Lemma split_nonempty s : re_split_span s ≠ [].
Proof.
  destruct s as [|c s]; [by rewrite split_nil|].
  destruct (span_match (c :: s)) as [n|] eqn:H.
  - by rewrite (split_Some _ _ H).
  - rewrite (split_None _ _ H). by destruct (re_split_span s).
Qed.

Lemma push_front_concat c l : l ≠ [] → concat (push_front c l) = c :: concat l.
Proof. by destruct l. Qed.

Lemma str_length_ind (P : str → Prop) :
  (∀ s, (∀ s', (length s' < length s)%nat → P s') → P s) → ∀ s, P s.
Proof.
  intros IH s. remember (length s) as n eqn:Hn. revert s Hn.
  induction n as [n IHn] using lt_wf_ind. intros s ->.
  apply IH. intros s' Hlt. by apply (IHn (length s')).
Qed.

(** The pieces are the text, cut up. *)
Lemma split_concat s : concat (re_split_span s) = s.
Proof.
  induction s as [s IH] using str_length_ind.
  destruct s as [|c s]; [by rewrite split_nil|].
  destruct (span_match (c :: s)) as [n|] eqn:H.
  - rewrite (split_Some _ _ H). simpl. rewrite IH.
    + apply take_drop.
    + apply span_match_Some in H as (u & k & Hs & _ & ->).
      rewrite length_drop. simpl. lia.
  - rewrite (split_None _ _ H), push_front_concat by apply split_nonempty.
    f_equal. apply IH. simpl. lia.
Qed.

(** *** Factors *)

Lemma factor_refl p : factor p p.
Proof. exists [], []. by rewrite app_nil_r. Qed.

Lemma factor_trans q p r : factor q p → factor p r → factor q r.
Proof.
  intros (a & b & ->) (a' & b' & ->). exists (a' ++ a), (b ++ b').
  by rewrite <- !app_assoc.
Qed.

Lemma factor_prefix q p : q `prefix_of` p → factor q p.
Proof. intros [k ->]. by exists [], k. Qed.

Lemma factor_app q p a b : factor q p → factor q (a ++ p ++ b).
Proof. intros H. eapply factor_trans; [exact H|]. by exists a, b. Qed.

Lemma factor_app_l q p b : factor q p → factor q (p ++ b).
Proof. intros H. eapply factor_trans; [exact H|]. by exists [], b. Qed.

Lemma factor_app_r q p a : factor q p → factor q (a ++ p).
Proof.
  intros H. eapply factor_trans; [exact H|]. exists a, []. by rewrite app_nil_r.
Qed.

Lemma factor_cons q p c : factor q p → factor q (c :: p).
Proof.
  intros H. eapply factor_trans; [exact H|]. exists [c], []. by rewrite app_nil_r.
Qed.

Lemma factor_drop q p n : factor q (drop n p) → factor q p.
Proof.
  intros H. eapply factor_trans; [exact H|]. exists (take n p), [].
  by rewrite app_nil_r, take_drop.
Qed.

(** *** A text in front of a closed span *)

(** A span that starts in the text and reaches into the closed span ends
    where the closed span ends. *)
Lemma span_match_gap g W Y n :
  closed_span W → g ≠ [] → span_match (g ++ W ++ Y) = Some n →
  (span_open `prefix_of` g) ∧
  ((n ≤ length g)%nat ∨ n = (length g + length W)%nat).
Proof.
  intros HW Hg H. pose proof (span_match_Some _ _ H) as (u & k & Hu & Hk & ->).
  assert (Hpre : span_open `prefix_of` g).
  { destruct (decide (length span_open ≤ length g)%nat) as [Hlen|Hlen].
    - eapply prefix_short; [|exact Hlen]. exists u. exact Hu.
    - exfalso. destruct (closed_span_head W HW) as [W' ->].
      assert (Hp : span_open `prefix_of` g ++ 60%N :: W' ++ Y) by by exists u.
      apply prefix_straddle in Hp; [|lia].
      apply span_open_lookup in Hp; [done|]. destruct g; [done|simpl; lia]. }
  split; [done|]. destruct Hpre as [g5 ->].
  rewrite <- app_assoc in Hu. apply app_inv_head in Hu. subst u.
  apply (find_close_gap _ _ _ _ HW) in Hk as [Hk| ->].
  - left. rewrite length_app. simpl. lia.
  - right. rewrite length_app. simpl. lia.
Qed.

Lemma span_match_prefix s n : span_match s = Some n → span_open `prefix_of` take n s.
Proof.
  intros (u & k & -> & _ & ->)%span_match_Some.
  rewrite take_app, take_ge by (simpl; lia). by apply prefix_app_r.
Qed.

Lemma span_match_pos s n : span_match s = Some n → (12 ≤ n ≤ length s)%nat.
Proof.
  intros (u & k & -> & Hk & ->)%span_match_Some.
  apply find_close_bounds in Hk. rewrite length_app. simpl. lia.
Qed.

(** However a text [g] in front of a closed span [W] is cut up, the cuts
    fall inside [g] or take [W] whole; after [W] the splitting starts
    afresh. *)
Lemma split_gap g W Y :
  closed_span W →
  ∃ q0 front r,
    re_split_span (g ++ W ++ Y) = q0 :: front ++ (r ++ W) :: re_split_span Y
    ∧ q0 `prefix_of` g
    ∧ Forall (λ q, (span_open `prefix_of` q) ∨ factor q g) front
    ∧ span_open `prefix_of` r ++ W.
Proof.
  intros HW. induction g as [g IH] using str_length_ind.
  destruct g as [|c g].
  { exists [], [], []. simpl.
    rewrite (split_Some _ _ (closed_span_match W Y HW)).
    rewrite take_app_length, drop_app_length.
    split; [done|]. split; [done|]. split; [done|]. by destruct HW. }
  destruct (span_match ((c :: g) ++ W ++ Y)) as [n|] eqn:H.
  - assert (Hne : c :: g ≠ []) by done.
    destruct (span_match_gap _ _ _ _ HW Hne H) as [Hpre [Hn| ->]].
    + pose proof (span_match_pos _ _ H) as Hpos.
      destruct (IH (drop n (c :: g))) as (q0 & front & r & Hsplit & Hq0 & Hfront & Hr).
      { rewrite length_drop. simpl. lia. }
      exists [], (take n (c :: g) :: q0 :: front), r.
      rewrite (split_Some _ _ H).
      rewrite take_app_le, drop_app_le by done. rewrite Hsplit.
      split; [done|]. split; [apply prefix_nil|]. split; [|done].
      constructor.
      { left. rewrite <- (take_app_le _ (W ++ Y)) by done.
        by apply span_match_prefix. }
      constructor.
      { right. apply (factor_drop _ _ n). by apply factor_prefix. }
      eapply Forall_impl; [exact Hfront|]. simpl. intros q [?|Hq]; [by left|right].
      by apply (factor_drop _ _ n).
    + exists [], [], (c :: g). rewrite (split_Some _ _ H).
      rewrite app_assoc.
      rewrite take_app_length', drop_app_length' by (by rewrite length_app).
      split; [done|]. split; [apply prefix_nil|]. split; [done|].
      by apply prefix_app_r.
  - destruct (IH g) as (q0 & front & r & Hsplit & Hq0 & Hfront & Hr);
      [simpl; lia|].
    exists (c :: q0), front, r. simpl app at 1.
    rewrite <- app_comm_cons in H. rewrite (split_None _ _ H), Hsplit. simpl.
    split; [done|]. split; [by apply prefix_cons|]. split; [|done].
    eapply Forall_impl; [exact Hfront|]. simpl. intros q [?|Hq]; [by left|right].
    by apply factor_cons.
Qed.

(** *** The wrapper is a closed span *)

(** The opening tag after its first character, [span morph-status="..."]
    and the closing angle bracket. *)
Lemma replacement_eq st x :
  replacement st x
  = 60%N :: (py "span morph-status=" ++ [dquote] ++ st ++ [dquote] ++ py ">")
           ++ x ++ span_close.
Proof. unfold replacement. by rewrite <- !app_assoc. Qed.

Lemma app_eq_lt_inv (op x u1 u2 : str) c :
  op ++ x = u1 ++ c :: u2 → c ∉ op → ∃ x1, x = x1 ++ c :: u2.
Proof.
  intros Heq Hc. apply app_eq_inv in Heq as [(k & -> & Hk)|(k & -> & Hk)].
  - destruct k as [|c' k].
    + exists []. simpl in *. done.
    + injection Hk as <- _. exfalso. apply Hc.
      apply elem_of_app. right. apply list_elem_of_here.
  - by exists k.
Qed.

Lemma replacement_closed st x :
  60%N ∉ st → newline ∉ st → newline ∉ x → ¬ factor span_close x →
  closed_span (replacement st x).
Proof.
  intros Hlt Hnl Hx Hfac. split.
  { unfold replacement.
    change (py "<span morph-status=") with (span_open ++ py " morph-status=").
    rewrite <- app_assoc. by apply prefix_app_r. }
  intros Y. rewrite replacement_eq.
  set (op := py "span morph-status=" ++ [dquote] ++ st ++ [dquote] ++ py ">").
  assert (Hop60 : 60%N ∉ op).
  { unfold op. rewrite !elem_of_app. intros [H|[H|[H|[H|H]]]]; try done;
      revert H; vm_compute; intros H;
      repeat (apply elem_of_cons in H as [H|H]; [discriminate|]);
      by apply elem_of_nil in H. }
  assert (Hopnl : newline ∉ op).
  { unfold op. rewrite !elem_of_app. intros [H|[H|[H|[H|H]]]]; try done;
      revert H; vm_compute; intros H;
      repeat (apply elem_of_cons in H as [H|H]; [discriminate|]);
      by apply elem_of_nil in H. }
  assert (Hop : ∃ op', op = 115%N :: op') by (by eexists).
  clearbody op.
  assert (Heq : (60%N :: op ++ x ++ span_close) ++ Y
                = (60%N :: op ++ x) ++ span_close ++ Y)
    by (simpl; by rewrite <- !app_assoc).
  rewrite Heq, (find_close_skip (60%N :: op ++ x) (span_close ++ Y)).
  - rewrite find_close_span_close. simpl. f_equal.
    rewrite !length_app. simpl. lia.
  - rewrite elem_of_cons, elem_of_app. intros [?|[?|?]]; done.
  - intros u1 c u2 Hu Hp.
    assert (c = 60%N) as -> by (by apply prefix_cons_inv_1 in Hp).
    assert (Hsuffix : ∃ x1, x = x1 ++ 60%N :: u2).
    { destruct u1 as [|c1 u1]; simpl in Hu.
      - exfalso. injection Hu as Hu. destruct Hop as [op' Hop'].
        rewrite Hop' in Hu. simpl in Hu. rewrite <- Hu in Hp.
        by apply prefix_cons_inv_2, prefix_cons_inv_1 in Hp.
      - injection Hu as _ Hu. by apply app_eq_lt_inv in Hu. }
    destruct Hsuffix as [x1 ->].
    destruct (decide (7 ≤ length (60%N :: u2))%nat) as [Hlong|Hshort].
    + apply Hfac. rewrite app_comm_cons in Hp.
      apply prefix_short in Hp; [|done]. destruct Hp as [k Hk].
      exists x1, k. by rewrite Hk.
    + rewrite app_comm_cons in Hp.
      change (span_close ++ Y) with (60%N :: (drop 1 span_close ++ Y)) in Hp.
      apply prefix_straddle in Hp; [|simpl in *; lia].
      apply span_close_lookup in Hp; [done|simpl; lia].
Qed.

Lemma morph_status_closed am_config highest_interval x :
  newline ∉ x → ¬ factor span_close x →
  closed_span (replacement (morph_status_of am_config highest_interval) x).
Proof.
  intros Hx Hfac. apply replacement_closed; [| |done|done];
    unfold morph_status_of; repeat case_match;
    vm_compute; intros Hin;
    repeat (apply elem_of_cons in Hin as [Hin|Hin]; [discriminate|]);
    by apply elem_of_nil in Hin.
Qed.

Section Substitution.

Variable ignorecase : N → N → bool.

Local Abbreviation imatch := (imatch ignorecase).
Local Abbreviation re_sub := (re_sub ignorecase).
Local Abbreviation free := (free ignorecase).
Local Abbreviation matched := (matched ignorecase).
Local Abbreviation wrappable := (wrappable ignorecase).

Lemma imatch_app m s z : imatch m s = true → imatch m (s ++ z) = true.
Proof.
  revert s. induction m as [|a m IH]; intros s; [done|].
  destruct s as [|b s]; [done|]. simpl.
  intros [-> H]%andb_true_iff. simpl. by apply IH.
Qed.

Lemma imatch_length m s : imatch m s = true → (length m ≤ length s)%nat.
Proof.
  revert s. induction m as [|a m IH]; intros s; [simpl; lia|].
  destruct s as [|b s]; [done|]. simpl.
  intros [_ H]%andb_true_iff. apply IH in H. lia.
Qed.

Lemma imatch_take m s : imatch m s = true → imatch m (take (length m) s) = true.
Proof.
  revert s. induction m as [|a m IH]; intros s; [done|].
  destruct s as [|b s]; [done|]. simpl.
  intros [-> H]%andb_true_iff. simpl. by apply IH.
Qed.

Lemma matched_take m s : imatch m s = true → matched m (take (length m) s).
Proof.
  intros H. split; [|by apply imatch_take].
  rewrite length_take. apply imatch_length in H. lia.
Qed.

(** *** The equations of the substitution *)

Lemma re_sub_nil m repl : m ≠ [] → re_sub m repl [] = [].
Proof. intros Hm. simp re_sub. by destruct m. Qed.

Lemma re_sub_no m repl c s :
  imatch m (c :: s) = false → re_sub m repl (c :: s) = c :: re_sub m repl s.
Proof. intros H. simp re_sub. rewrite H. by simp re_sub. Qed.

Lemma re_sub_match m repl s :
  m ≠ [] → imatch m s = true →
  re_sub m repl s = repl (take (length m) s) ++ re_sub m repl (drop (length m) s).
Proof.
  intros Hm H. destruct m as [|a m]; [done|]. destruct s as [|c s]; [done|].
  simp re_sub. rewrite H. by simp re_sub.
Qed.

(** *** Texts without a match *)

Lemma free_nil m : m ≠ [] → free m [].
Proof. intros Hm j. rewrite drop_nil. by destruct m. Qed.

Lemma free_factor m q p : m ≠ [] → free m p → factor q p → free m q.
Proof.
  intros Hm Hp (a & b & ->) j.
  destruct (decide (j ≤ length q)%nat) as [Hj|Hj].
  - destruct (imatch m (drop j q)) eqn:H; [|done].
    specialize (Hp (length a + j)%nat).
    rewrite drop_app_add, drop_app_le in Hp by done.
    by rewrite (imatch_app _ _ b H) in Hp.
  - rewrite drop_ge by lia. by destruct m.
Qed.

Lemma free_re_sub m repl p : m ≠ [] → free m p → re_sub m repl p = p.
Proof.
  intros Hm. induction p as [|c p IH]; intros Hp; [by apply re_sub_nil|].
  rewrite re_sub_no by apply (Hp 0%nat). f_equal. apply IH.
  intros j. apply (Hp (S j)).
Qed.

(** Up to the first match the text is copied; then comes the wrapper and
    the rest is substituted in the same way. *)
Lemma re_sub_first m repl p :
  m ≠ [] →
  free m p ∨
  ∃ g x p1, p = g ++ x ++ p1 ∧ matched m x
            ∧ (∀ q, factor q g → free m q)
            ∧ re_sub m repl p = g ++ repl x ++ re_sub m repl p1.
Proof.
  intros Hm. induction p as [|c p IH]; [left; by apply free_nil|].
  destruct (imatch m (c :: p)) eqn:H.
  - right. exists [], (take (length m) (c :: p)), (drop (length m) (c :: p)).
    split; [by rewrite take_drop|]. split; [by apply matched_take|].
    split; [|by apply re_sub_match].
    intros q (a & b & Hq). symmetry in Hq.
    apply app_eq_nil in Hq as [_ [-> _]%app_eq_nil]. by apply free_nil.
  - destruct IH as [Hfree|(g & x & p1 & -> & Hx & Hg & Hsub)].
    + left. intros [|j]; [done|]. apply Hfree.
    + right. exists (c :: g), x, p1. split; [done|]. split; [done|].
      split; [|by rewrite re_sub_no, Hsub].
      intros q (a & b & Hq) j.
      destruct (decide (j ≤ length q)%nat) as [Hj|Hj];
        [|rewrite drop_ge by lia; by destruct m].
      destruct a as [|c' a]; simpl in Hq.
      * destruct q as [|c' q]; [rewrite drop_nil; by destruct m|].
        injection Hq as <- Hq. destruct j as [|j]; simpl.
        -- destruct (imatch m (c :: q)) eqn:Hcq; [|done].
           rewrite Hq, <- app_assoc, app_comm_cons in H.
           by rewrite (imatch_app _ _ _ Hcq) in H.
        -- apply (Hg q). by exists [], b.
      * injection Hq as _ Hq. apply (Hg q). by exists a, b.
Qed.

End Substitution.

(** *** The first piece of a text *)

Lemma span_open_gap g W Y :
  closed_span W → g ≠ [] → span_open `prefix_of` g ++ W ++ Y →
  span_open `prefix_of` g.
Proof.
  intros HW Hg Hp.
  destruct (decide (length span_open ≤ length g)%nat) as [Hlen|Hlen].
  - by eapply prefix_short.
  - exfalso. destruct (closed_span_head W HW) as [W' ->].
    apply prefix_straddle in Hp; [|lia].
    apply span_open_lookup in Hp; [done|]. destruct g; [done|simpl; lia].
Qed.

(** Whether a span starts in front of a closed span does not depend on
    what comes after that closed span. *)
Lemma span_match_context g W Y Y' :
  closed_span W → span_match (g ++ W ++ Y) = span_match (g ++ W ++ Y').
Proof.
  intros HW. destruct g as [|c g].
  { simpl. by rewrite !closed_span_match. }
  assert (Hne : c :: g ≠ []) by done. revert Hne.
  generalize (c :: g). clear c g. intros g Hg.
  unfold span_match.
  destruct (decide (span_open `prefix_of` g ++ W ++ Y)) as [Hp|Hp];
    destruct (decide (span_open `prefix_of` g ++ W ++ Y')) as [Hp'|Hp'].
  - apply span_open_gap in Hp as [g5 ->]; [|done|done].
    rewrite <- !app_assoc, !drop_app_length.
    by rewrite (find_close_context g5 W Y Y').
  - exfalso. apply Hp'. apply prefix_app_r. by eapply span_open_gap.
  - exfalso. apply Hp. apply prefix_app_r. by eapply span_open_gap.
  - done.
Qed.

(** A text is one piece, or a first piece, a closed span, and the rest;
    the first two do not depend on the rest. *)
Lemma split_first t :
  re_split_span t = [t] ∨
  ∃ p S R, t = p ++ S ++ R ∧ closed_span S ∧ (length R < length t)%nat
           ∧ ∀ R', re_split_span (p ++ S ++ R') = p :: S :: re_split_span R'.
Proof.
  induction t as [|c t IH]; [left; by rewrite split_nil|].
  destruct (span_match (c :: t)) as [n|] eqn:H.
  - right. exists [], (take n (c :: t)), (drop n (c :: t)).
    pose proof (span_match_closed _ _ H) as HS.
    pose proof (span_match_pos _ _ H) as Hn.
    split; [by rewrite take_drop|]. split; [done|].
    split; [rewrite length_drop; lia|].
    intros R'. simpl app at 1.
    rewrite (split_Some _ _ (closed_span_match _ R' HS)).
    by rewrite take_app_length, drop_app_length.
  - destruct IH as [Ht|(p & S & R & -> & HS & Hlen & Hsplit)].
    + left. by rewrite (split_None _ _ H), Ht.
    + right. exists (c :: p), S, R. split; [done|]. split; [done|].
      split; [simpl; lia|]. intros R'.
      rewrite <- app_comm_cons, split_None, Hsplit; [done|].
      rewrite app_comm_cons, (span_match_context _ S R' R) by done.
      by rewrite <- app_comm_cons.
Qed.

Lemma concat_factors (l : list str) : Forall (λ q, factor q (concat l)) l.
Proof.
  induction l as [|x l IH]; [constructor|]. simpl. constructor.
  - by exists [], (concat l).
  - eapply Forall_impl; [exact IH|]. simpl. intros q (a & b & ->).
    exists (x ++ a), b. by rewrite <- app_assoc.
Qed.

Lemma split_factors s : Forall (λ q, factor q s) (re_split_span s).
Proof.
  pose proof (concat_factors (re_split_span s)) as H.
  by rewrite split_concat in H.
Qed.

Section Highlighting.

Variable ignorecase : N → N → bool.

Local Abbreviation imatch := (imatch ignorecase).
Local Abbreviation re_sub := (re_sub ignorecase).
Local Abbreviation free := (free ignorecase).
Local Abbreviation matched := (matched ignorecase).
Local Abbreviation wrappable := (wrappable ignorecase).
Local Abbreviation highlightable := (highlightable ignorecase).
Local Abbreviation highlight_loop := (highlight_loop ignorecase).
Local Abbreviation highlight_text := (highlight_text ignorecase).

(** [non_span_sub] joins what it makes of the pieces. *)
Lemma non_span_sub_pieces sub repl string :
  non_span_sub ignorecase sub repl string
  = concat (map (sub_piece ignorecase sub repl) (re_split_span string)).
Proof.
  unfold non_span_sub.
  assert (Hgen : ∀ l txt,
    foldl (λ txt span,
             if decide (span_open `prefix_of` span) then txt ++ span
             else txt ++ re_sub sub repl span) txt l
    = txt ++ concat (map (sub_piece ignorecase sub repl) l)).
  { induction l as [|x l IH]; intros txt; simpl; [by rewrite app_nil_r|].
    rewrite IH. unfold sub_piece.
    destruct (decide _); by rewrite <- app_assoc. }
  by rewrite Hgen.
Qed.

Lemma non_span_sub_one sub repl t :
  re_split_span t = [t] → non_span_sub ignorecase sub repl t = sub_piece ignorecase sub repl t.
Proof.
  intros H. rewrite non_span_sub_pieces, H. simpl. by rewrite app_nil_r.
Qed.

Lemma sub_piece_span sub repl S :
  span_open `prefix_of` S → sub_piece ignorecase sub repl S = S.
Proof. intros H. unfold sub_piece. by rewrite decide_True. Qed.

Lemma non_span_sub_first sub repl p S R :
  closed_span S →
  re_split_span (p ++ S ++ R) = p :: S :: re_split_span R →
  non_span_sub ignorecase sub repl (p ++ S ++ R)
  = sub_piece ignorecase sub repl p ++ S ++ non_span_sub ignorecase sub repl R.
Proof.
  intros [HS _] H. rewrite !non_span_sub_pieces, H. simpl.
  by rewrite (sub_piece_span _ _ S).
Qed.

(** *** The pieces after a substitution *)

Section OneMorph.

Variable m : str.
Variable repl : str → str.
Hypothesis m_not_empty : m ≠ [].
Hypothesis repl_closed : ∀ x, matched m x → closed_span (repl x).

(** The pieces of a substituted text in front of a closed span lie inside
    the text and have no match left, unless they start with [<span]. *)
Lemma split_re_sub_span p W Y :
  closed_span W →
  ∃ front r,
    re_split_span (re_sub m repl p ++ W ++ Y)
      = front ++ (r ++ W) :: re_split_span Y
    ∧ Forall (λ q, (span_open `prefix_of` q) ∨ (factor q p ∧ free m q)) front
    ∧ span_open `prefix_of` r ++ W.
Proof.
  intros HW. revert Y. induction p as [p IH] using str_length_ind. intros Y.
  destruct (re_sub_first ignorecase m repl p m_not_empty)
    as [Hfree|(g & x & p1 & -> & Hx & Hg & Hsub)].
  - rewrite (free_re_sub _ _ _ _ m_not_empty Hfree).
    destruct (split_gap p W Y HW) as (q0 & front & r & Hsplit & Hq0 & Hfront & Hr).
    exists (q0 :: front), r. split; [done|]. split; [|done].
    constructor.
    + right. split; [by apply factor_prefix|].
      eapply free_factor; [done|exact Hfree|by apply factor_prefix].
    + eapply Forall_impl; [exact Hfront|]. simpl. intros q [?|Hq]; [by left|right].
      split; [done|]. by eapply free_factor.
  - rewrite Hsub, <- !app_assoc.
    destruct (split_gap g (repl x) (re_sub m repl p1 ++ W ++ Y) (repl_closed x Hx))
      as (q0 & front & r & Hsplit & Hq0 & Hfront & Hr).
    destruct (IH p1) with (Y := Y) as (front1 & r1 & Hsplit1 & Hfront1 & Hr1).
    { destruct Hx as [Hlen _]. rewrite !length_app, Hlen.
      destruct m; [done|simpl; lia]. }
    exists (q0 :: front ++ (r ++ repl x) :: front1), r1.
    rewrite Hsplit, Hsplit1. split; [simpl; by rewrite <- app_assoc|]. split; [|done].
    constructor.
    { right. split; [by apply factor_app_l, factor_prefix|].
      by apply Hg, factor_prefix. }
    apply Forall_app. split.
    { eapply Forall_impl; [exact Hfront|]. simpl. intros q [?|Hq]; [by left|right].
      split; [by apply factor_app_l|by apply Hg]. }
    constructor; [by left|].
    eapply Forall_impl; [exact Hfront1|]. simpl. intros q [?|[Hq ?]]; [by left|right].
    split; [|done]. by apply factor_app_r, factor_app_r.
Qed.

(** The same at the end of the text. *)
Lemma split_re_sub_end p :
  Forall (λ q, (span_open `prefix_of` q) ∨ (factor q p ∧ free m q))
         (re_split_span (re_sub m repl p)).
Proof.
  induction p as [p IH] using str_length_ind.
  destruct (re_sub_first ignorecase m repl p m_not_empty)
    as [Hfree|(g & x & p1 & -> & Hx & Hg & Hsub)].
  - rewrite (free_re_sub _ _ _ _ m_not_empty Hfree).
    eapply Forall_impl; [apply split_factors|]. simpl. intros q Hq. right.
    split; [done|]. by eapply free_factor.
  - rewrite Hsub.
    destruct (split_gap g (repl x) (re_sub m repl p1) (repl_closed x Hx))
      as (q0 & front & r & Hsplit & Hq0 & Hfront & Hr).
    rewrite Hsplit. constructor.
    { right. split; [by apply factor_app_l, factor_prefix|].
      by apply Hg, factor_prefix. }
    apply Forall_app. split.
    { eapply Forall_impl; [exact Hfront|]. simpl. intros q [?|Hq]; [by left|right].
      split; [by apply factor_app_l|by apply Hg]. }
    constructor; [by left|].
    eapply Forall_impl; [apply (IH p1)|].
    { destruct Hx as [Hlen _]. rewrite !length_app, Hlen.
      destruct m; [done|simpl; lia]. }
    simpl. intros q [?|[Hq ?]]; [by left|right].
    split; [|done]. by apply factor_app_r, factor_app_r.
Qed.

(** After a substitution, every piece that a later pass would work on lies
    inside a piece this pass worked on, and has no match of [m] left. *)
Lemma pieces_after_sub (Φ : str → Prop) t :
  (∀ p q, Φ p → factor q p → Φ q) →
  pieces_satisfy Φ t →
  pieces_satisfy (λ q, Φ q ∧ free m q) (non_span_sub ignorecase m repl t).
Proof.
  intros Hclosed. unfold pieces_satisfy.
  induction t as [t IH] using str_length_ind. intros Ht.
  destruct (split_first t) as [Hone|(p & S & R & -> & HS & Hlen & Hsplit)].
  - rewrite (non_span_sub_one _ _ _ Hone). rewrite Hone in Ht.
    apply Forall_cons in Ht as [Ht _]. unfold sub_piece.
    destruct (decide _) as [Hp|Hp].
    + rewrite Hone. constructor; [by left|constructor].
    + destruct Ht as [?|Ht]; [done|].
      eapply Forall_impl; [apply split_re_sub_end|]. simpl.
      intros q [?|[Hq ?]]; [by left|right]. split; [by eapply Hclosed|done].
  - rewrite (non_span_sub_first _ _ _ _ _ HS (Hsplit R)).
    rewrite (Hsplit R) in Ht.
    apply Forall_cons in Ht as [Hp Ht]. apply Forall_cons in Ht as [_ HR].
    specialize (IH R Hlen HR). unfold sub_piece.
    destruct (decide _) as [Hpre|Hpre].
    + rewrite Hsplit. constructor; [by left|].
      constructor; [left; by destruct HS|done].
    + destruct Hp as [?|Hp]; [done|].
      destruct (split_re_sub_span p S (non_span_sub ignorecase m repl R) HS)
        as (front & r & Hfr & Hfront & Hr).
      rewrite Hfr. apply Forall_app. split.
      * eapply Forall_impl; [exact Hfront|]. simpl.
        intros q [?|[Hq ?]]; [by left|right]. split; [by eapply Hclosed|done].
      * constructor; [by left|done].
Qed.

(** A text whose pieces have no match is left as it is. *)
Lemma non_span_sub_fixed t :
  pieces_satisfy (free m) t → non_span_sub ignorecase m repl t = t.
Proof.
  intros Ht. rewrite non_span_sub_pieces.
  rewrite <- (split_concat t) at 2. f_equal.
  unfold pieces_satisfy in Ht. induction Ht as [|p l Hp _ IH]; [done|].
  simpl. f_equal; [|done]. unfold sub_piece.
  destruct (decide _) as [|Hn]; [done|].
  destruct Hp as [?|Hp]; [done|]. by apply free_re_sub.
Qed.

End OneMorph.

End Highlighting.

(** *** Sorting *)

Lemma sorted_by_sorted {A} (precedes : A → A → bool) (R : A → A → Prop) l :
  Transitive R →
  (∀ x y, precedes y x = false → R x y) →
  (∀ x y, precedes y x = true → R y x) →
  StronglySorted R (sorted_by precedes l).
Proof.
  intros Htrans Hfalse Htrue. unfold sorted_by.
  induction l as [|x l IH]; simpl; [constructor|].
  revert IH. generalize (foldr (insert_by precedes) [] l). clear l.
  intros l Hl. induction Hl as [|y l Hs IH Hy]; simpl.
  - repeat constructor.
  - destruct (precedes y x) eqn:Hyx.
    + constructor; [done|]. apply Forall_forall. intros z Hz.
      apply insert_by_elem_of in Hz as [->|Hz]; [by apply Htrue|].
      by apply (proj1 (Forall_forall _ _) Hy).
    + constructor; [by constructor|]. constructor; [by apply Hfalse|].
      eapply Forall_impl; [exact Hy|]. simpl. intros z Hz.
      by transitivity y; [apply Hfalse|].
Qed.

Lemma StronglySorted_later {A} (R : A → A → Prop) l1 x l2 y :
  StronglySorted R (l1 ++ x :: l2) → y ∈ l2 → R x y.
Proof.
  induction l1 as [|z l1 IH]; simpl; intros Hs Hy.
  - apply StronglySorted_inv in Hs as [_ Hall].
    by apply (proj1 (Forall_forall _ _) Hall).
  - apply StronglySorted_inv in Hs as [Hs _]. by apply IH.
Qed.

(** The longest surface forms come first. *)
Lemma sorted_morphs_sorted card_morphs :
  StronglySorted
    (λ x y, (length (inflected_morph y) ≤ length (inflected_morph x))%nat)
    (sorted_morphs card_morphs).
Proof.
  apply sorted_by_sorted.
  - intros x y z Hxy Hyz. lia.
  - intros x y H. apply bool_decide_eq_false in H. lia.
  - intros x y H. apply bool_decide_eq_true in H. lia.
Qed.

Lemma factor_is_factor q p : factor q p → is_factor q p = true.
Proof.
  intros (a & b & ->). induction a as [|c a IH]; simpl.
  - destruct (q ++ b) eqn:Hqb; apply orb_true_iff; left;
      apply bool_decide_eq_true; rewrite <- Hqb; by apply prefix_app_r.
  - apply orb_true_iff. by right.
Qed.

Section Highlighter.

Variable ignorecase : N → N → bool.
Variable am_config : AnkiMorphsConfig.
Variable morph_cache : gmap str Z.

(** *** The loop over the morphemes *)

Lemma highlight_loop_cons morph rest t t' :
  highlight_loop ignorecase am_config morph_cache (morph :: rest) t = Ok t' ↔
  ∃ highest_interval,
    morph_cache !! entire_morph morph = Some highest_interval
    ∧ highlight_loop ignorecase am_config morph_cache rest
        (non_span_sub ignorecase (inflected_morph morph)
           (replacement (morph_status_of am_config highest_interval)) t)
      = Ok t'.
Proof.
  simpl. rewrite bind_Ok. split.
  - intros (hi & Hhi%dict_get_Ok & H). eauto.
  - intros (hi & Hhi%dict_get_Ok & H). eauto.
Qed.

Lemma highlight_loop_app pre post t t' :
  highlight_loop ignorecase am_config morph_cache (pre ++ post) t = Ok t' ↔
  ∃ T, highlight_loop ignorecase am_config morph_cache pre t = Ok T
       ∧ highlight_loop ignorecase am_config morph_cache post T = Ok t'.
Proof.
  revert t. induction pre as [|morph pre IH]; intros t.
  - simpl. split; [eauto|]. by intros (T & [= ->] & H).
  - rewrite <- app_comm_cons, highlight_loop_cons. split.
    + intros (hi & Hhi & (T & HT & H)%IH). exists T. split; [|done].
      apply highlight_loop_cons. eauto.
    + intros (T & (hi & Hhi & HT)%highlight_loop_cons & H).
      exists hi. split; [done|]. apply IH. eauto.
Qed.

Lemma highlightable_closed m highest_interval x :
  highlightable ignorecase m → matched ignorecase m x →
  closed_span (replacement (morph_status_of am_config highest_interval) x).
Proof.
  intros (_ & _ & Hw) Hx. destruct (Hw x Hx). by apply morph_status_closed.
Qed.

(** A property of the pieces that passes to their factors survives the
    loop. *)
Lemma highlight_loop_pieces (Φ : str → Prop) morphs t t' :
  (∀ p q, Φ p → factor q p → Φ q) →
  Forall (λ morph, highlightable ignorecase (inflected_morph morph)) morphs →
  pieces_satisfy Φ t →
  highlight_loop ignorecase am_config morph_cache morphs t = Ok t' →
  pieces_satisfy Φ t'.
Proof.
  intros HΦ Hms. revert t. induction Hms as [|morph morphs Hm _ IH]; intros t Ht.
  - by intros [= <-].
  - intros (hi & _ & H)%highlight_loop_cons. eapply IH; [|exact H].
    eapply Forall_impl.
    + apply (pieces_after_sub ignorecase (inflected_morph morph)); try done.
      * by destruct Hm as (_ & ? & _).
      * intros x Hx. by eapply highlightable_closed.
    + simpl. intros q [?|[? _]]; [by left|by right].
Qed.

(** After the loop no piece has a match of any of the morphemes. *)
Lemma highlight_loop_free morphs t t' :
  Forall (λ morph, highlightable ignorecase (inflected_morph morph)) morphs →
  highlight_loop ignorecase am_config morph_cache morphs t = Ok t' →
  Forall (λ morph, pieces_satisfy (free ignorecase (inflected_morph morph)) t')
         morphs.
Proof.
  intros Hms. revert t. induction Hms as [|morph morphs Hm Hms IH]; intros t.
  - constructor.
  - intros (hi & _ & H)%highlight_loop_cons. constructor; [|by eapply IH].
    pose proof Hm as (_ & Hne & _).
    eapply highlight_loop_pieces; [|exact Hms| |exact H].
    + intros p q Hp Hq. by eapply free_factor.
    + eapply Forall_impl.
      * apply (pieces_after_sub ignorecase (inflected_morph morph) _ Hne)
          with (Φ := λ _, True); [|done|].
        -- intros x Hx. by eapply highlightable_closed.
        -- apply Forall_forall. intros; by right.
      * simpl. intros q [?|[_ ?]]; [by left|by right].
Qed.

(** On a text whose pieces have no match left the loop changes nothing. *)
Lemma highlight_loop_fixed morphs t :
  Forall (λ morph, inflected_morph morph ≠ []
                   ∧ is_Some (morph_cache !! entire_morph morph)
                   ∧ pieces_satisfy (free ignorecase (inflected_morph morph)) t)
         morphs →
  highlight_loop ignorecase am_config morph_cache morphs t = Ok t.
Proof.
  induction 1 as [|morph morphs (Hne & [hi Hhi] & Hfree) _ IH]; [done|].
  apply highlight_loop_cons. exists hi. split; [done|].
  by rewrite non_span_sub_fixed.
Qed.

Lemma highlight_loop_lookups morphs t t' :
  highlight_loop ignorecase am_config morph_cache morphs t = Ok t' →
  Forall (λ morph, is_Some (morph_cache !! entire_morph morph)) morphs.
Proof.
  revert t. induction morphs as [|morph morphs IH]; intros t; [constructor|].
  intros (hi & Hhi & H)%highlight_loop_cons. constructor; [by eexists|].
  by eapply IH.
Qed.

(** Idempotence where the wrappers are recognised: for morphemes whose
    surface forms are plain literals, not empty, and match no text with a
    line break or [</span>] in it, highlighting a highlighted text
    returns it unchanged. *)
Theorem highlight_idempotent card_morphs text text' :
  Forall (λ morph, highlightable ignorecase (inflected_morph morph))
         card_morphs →
  highlight_text ignorecase am_config card_morphs morph_cache text = Ok text' →
  highlight_text ignorecase am_config card_morphs morph_cache text' = Ok text'.
Proof.
  unfold highlight_text. intros Hms Hrun.
  assert (Hsorted : Forall (λ morph, highlightable ignorecase (inflected_morph morph))
                           (sorted_morphs card_morphs)).
  { apply Forall_forall. intros morph Hin. apply sorted_by_elem_of in Hin.
    by apply (proj1 (Forall_forall _ _) Hms). }
  pose proof (highlight_loop_free _ _ _ Hsorted Hrun) as Hfree.
  pose proof (highlight_loop_lookups _ _ _ Hrun) as Hlook.
  apply highlight_loop_fixed. apply Forall_forall. intros morph Hin.
  split; [|split].
  - by destruct (proj1 (Forall_forall _ _) Hsorted morph Hin) as (_ & ? & _).
  - by apply (proj1 (Forall_forall _ _) Hlook).
  - by apply (proj1 (Forall_forall _ _) Hfree).
Qed.

(** *** Spans are passed through *)

(** A substitution copies a closed span, whatever text stands in front of
    it, and works on the text after it as if that text stood alone. *)
Lemma non_span_sub_keeps_span sub repl a W b :
  closed_span W →
  ∃ a', non_span_sub ignorecase sub repl (a ++ W ++ b)
        = a' ++ W ++ non_span_sub ignorecase sub repl b.
Proof.
  intros HW.
  destruct (split_gap a W b HW) as (q0 & front & r & Hsplit & _ & _ & Hr).
  exists (sub_piece ignorecase sub repl q0
          ++ concat (map (sub_piece ignorecase sub repl) front) ++ r).
  rewrite !non_span_sub_pieces, Hsplit. simpl.
  rewrite map_app, concat_app. simpl.
  rewrite (sub_piece_span _ _ _ (r ++ W) Hr). by rewrite <- !app_assoc.
Qed.

Lemma highlight_loop_keeps_span morphs a W b t' :
  closed_span W →
  highlight_loop ignorecase am_config morph_cache morphs (a ++ W ++ b) = Ok t' →
  ∃ a' b', t' = a' ++ W ++ b'
           ∧ highlight_loop ignorecase am_config morph_cache morphs b = Ok b'.
Proof.
  intros HW. revert a b. induction morphs as [|morph morphs IH]; intros a b.
  - intros [= <-]. by exists a, b.
  - intros (hi & Hhi & H)%highlight_loop_cons.
    destruct (non_span_sub_keeps_span (inflected_morph morph)
                (replacement (morph_status_of am_config hi)) a W b HW)
      as [a1 Ha1].
    rewrite Ha1 in H. apply IH in H as (a' & b' & -> & H).
    exists a', b'. split; [done|]. apply highlight_loop_cons. eauto.
Qed.

(** Non-interference where the wrappers are recognised: for morphemes
    whose surface forms are plain literals, they are substituted longest
    first, so a strictly shorter morpheme of the card comes after a
    longer one; and a span that wraps an occurrence of a morpheme whose
    matches have no line break and no [</span>] in them is copied as it
    is by every later substitution, so nothing is wrapped inside it,
    while the text after it is highlighted as if it stood alone. *)
Theorem longer_morph_span_kept card_morphs text text' pre long post :
  Forall (λ morph, regex_plain (inflected_morph morph) = true) card_morphs →
  sorted_morphs card_morphs = pre ++ long :: post →
  wrappable ignorecase (inflected_morph long) →
  highlight_text ignorecase am_config card_morphs morph_cache text = Ok text' →
  (∀ short, short ∈ card_morphs →
     (length (inflected_morph short) < length (inflected_morph long))%nat →
     short ∈ post) ∧
  ∃ T highest_interval,
    highlight_loop ignorecase am_config morph_cache pre text = Ok T
    ∧ morph_cache !! entire_morph long = Some highest_interval
    ∧ ∀ a x b,
        matched ignorecase (inflected_morph long) x →
        non_span_sub ignorecase (inflected_morph long)
          (replacement (morph_status_of am_config highest_interval)) T
        = a ++ replacement (morph_status_of am_config highest_interval) x ++ b →
        ∃ a' b',
          text' = a' ++ replacement (morph_status_of am_config highest_interval) x
                     ++ b'
          ∧ highlight_loop ignorecase am_config morph_cache post b = Ok b'.
Proof.
  intros _ Hsorted Hwrap Hrun. split.
  - intros short Hin Hlen.
    assert (Hin' : short ∈ sorted_morphs card_morphs)
      by (by apply sorted_by_elem_of).
    clear Hin. rename Hin' into Hin. rewrite Hsorted in Hin.
    apply elem_of_app in Hin as [Hin|Hin].
    + exfalso. pose proof (sorted_morphs_sorted card_morphs) as Hs.
      rewrite Hsorted in Hs. apply list_elem_of_split in Hin as (l1 & l2 & ->).
      rewrite <- app_assoc in Hs.
      assert (Hl : long ∈ l2 ++ long :: post)
        by (apply elem_of_app; right; apply list_elem_of_here).
      pose proof (StronglySorted_later _ _ _ _ _ Hs Hl) as Hle.
      simpl in Hle. lia.
    + apply elem_of_cons in Hin as [->|Hin]; [lia|done].
  - unfold highlight_text in Hrun. rewrite Hsorted in Hrun.
    apply highlight_loop_app in Hrun as (T & HT & Hrun).
    apply highlight_loop_cons in Hrun as (hi & Hhi & Hrun).
    exists T, hi. split; [done|]. split; [done|].
    intros a x b Hx Heq. rewrite Heq in Hrun.
    apply highlight_loop_keeps_span in Hrun; [done|].
    destruct (Hwrap x Hx). by apply morph_status_closed.
Qed.

End Highlighter.

(** *** Surface forms that can be wrapped *)

Lemma imatch_Forall2 ignorecase m x :
  matched ignorecase m x → Forall2 (λ a b, ignorecase a b = true) m x.
Proof.
  intros [Hlen H]. revert x Hlen H. induction m as [|a m IH]; intros [|b x]; try done.
  simpl. intros [= Hlen] [Hab H]%andb_true_iff. constructor; [done|by apply IH].
Qed.

(** A surface form none of whose characters matches a line break or [<]
    is wrappable. *)
Lemma wrappable_letters ignorecase m :
  Forall (λ a, ignorecase a newline = false ∧ ignorecase a 60%N = false) m →
  wrappable ignorecase m.
Proof.
  intros Hm x Hx. apply imatch_Forall2 in Hx.
  assert (Hno : ∀ b, b ∈ x → b ≠ newline ∧ b ≠ 60%N).
  { induction Hx as [|a b m x Hab _ IH]; intros c Hc; [by apply elem_of_nil in Hc|].
    apply Forall_cons in Hm as [[Hnl Hlt] Hm].
    apply elem_of_cons in Hc as [->|Hc]; [|by apply IH].
    split; intros ->; congruence. }
  split.
  - intros Hin. by destruct (Hno _ Hin).
  - intros (a & b & ->).
    assert (Hin : 60%N ∈ a ++ span_close ++ b).
    { apply elem_of_app. right. apply elem_of_app. left. apply list_elem_of_here. }
    by destruct (Hno _ Hin).
Qed.

Lemma sample_morphs_highlightable :
  Forall (λ morph, highlightable ascii_ignorecase (inflected_morph morph))
         sample_morphs.
Proof.
  unfold sample_morphs.
  apply Forall_cons; split; [|apply Forall_cons; split; [|apply Forall_nil_2]];
    (split; [reflexivity|split; [discriminate|]]);
    apply wrappable_letters; repeat constructor.
Qed.

Lemma highlight_idempotent_witness :
  highlight_text ascii_ignorecase (sample_config true false) sample_morphs
    sample_morph_cache sample_highlighted = Ok sample_highlighted.
Proof.
  apply (highlight_idempotent ascii_ignorecase (sample_config true false)
           sample_morph_cache sample_morphs sample_text).
  - apply sample_morphs_highlightable.
  - vm_compute. reflexivity.
Defined.

(** A morpheme that is a line break is wrapped again on the second pass:
    the first wrapper has the line break inside, so it is not taken for a
    span. *)
Lemma line_break_highlighted_twice :
  ¬ highlight_idempotence ascii_ignorecase (sample_config true false)
      [line_break_entry] sample_morph_cache (py "x" ++ [newline]).
Proof.
  intros H.
  specialize (H (py "x" ++ replacement (py "unknown") [newline])).
  assert (Hrun : highlight_text ascii_ignorecase (sample_config true false)
                   [line_break_entry] sample_morph_cache (py "x" ++ [newline])
                 = Ok (py "x" ++ replacement (py "unknown") [newline]))
    by (vm_compute; reflexivity).
  apply H in Hrun. vm_compute in Hrun. discriminate Hrun.
Qed.

(** C6: a second pass changes the text.  The morpheme is a line break,
    a plain literal, and the text is an x and a line break.  The first
    pass wraps the line break; the split pattern [<span.*?</span>] has a
    dot that does not match a line break, so on the second pass the
    wrapper is not taken for a span and the line break in it is wrapped
    once more. *)
Theorem line_break_wrapped_twice :
  regex_plain (inflected_morph line_break_entry) = true
  ∧ highlight_text ascii_ignorecase (sample_config true false)
      [line_break_entry] sample_morph_cache (py "x" ++ [newline])
    = Ok (py "x" ++ replacement (py "unknown") [newline])
  ∧ highlight_text ascii_ignorecase (sample_config true false)
      [line_break_entry] sample_morph_cache
      (py "x" ++ replacement (py "unknown") [newline])
    = Ok (py "x" ++ replacement (py "unknown")
                      (replacement (py "unknown") [newline])).
Proof.
  split; [reflexivity|]. split; vm_compute; reflexivity.
Qed.

Lemma longer_morph_span_kept_witness :
  (∀ short, short ∈ sample_morphs →
     (length (inflected_morph short)
      < length (inflected_morph (plain_entry "neko")))%nat →
     short ∈ [plain_entry "ne"]) ∧
  ∃ T highest_interval,
    highlight_loop ascii_ignorecase (sample_config true false)
      sample_morph_cache [] sample_text = Ok T
    ∧ sample_morph_cache !! entire_morph (plain_entry "neko")
      = Some highest_interval
    ∧ ∀ a x b,
        matched ascii_ignorecase (inflected_morph (plain_entry "neko")) x →
        non_span_sub ascii_ignorecase (inflected_morph (plain_entry "neko"))
          (replacement (morph_status_of (sample_config true false)
                          highest_interval)) T
        = a ++ replacement (morph_status_of (sample_config true false)
                              highest_interval) x ++ b →
        ∃ a' b',
          sample_highlighted
          = a' ++ replacement (morph_status_of (sample_config true false)
                                 highest_interval) x ++ b'
          ∧ highlight_loop ascii_ignorecase (sample_config true false)
              sample_morph_cache [plain_entry "ne"] b = Ok b'.
Proof.
  apply (longer_morph_span_kept ascii_ignorecase (sample_config true false)
           sample_morph_cache sample_morphs sample_text sample_highlighted
           [] (plain_entry "neko") [plain_entry "ne"]).
  - repeat constructor.
  - vm_compute. reflexivity.
  - apply wrappable_letters. repeat constructor.
  - vm_compute. reflexivity.
Defined.

(** The wrapper of a morpheme that spans a line break is not taken for a
    span: the shorter morpheme is wrapped inside it, and inside its tags. *)
Lemma line_break_span_rewritten :
  ¬ longer_span_kept ascii_ignorecase (sample_config true false)
      nested_morphs sample_morph_cache nested_text.
Proof.
  intros H.
  set (text' := result_or []
         (highlight_text ascii_ignorecase (sample_config true false)
            nested_morphs sample_morph_cache nested_text)).
  specialize (H [] two_line_entry [plain_entry "a"] text' nested_text 0
                (py "x") (py "a" ++ [newline] ++ py "b") []).
  apply factor_is_factor in H.
  - vm_compute in H. discriminate H.
  - vm_compute. reflexivity.
  - vm_compute. reflexivity.
  - reflexivity.
  - vm_compute. reflexivity.
  - split; vm_compute; reflexivity.
  - vm_compute. reflexivity.
Qed.

(** C7: the shorter morpheme is wrapped inside the span of the longer
    one.  The card has the morphemes [a] and [a], line break, [b], both
    plain literals, and the text is [xa], line break, [b].  The longer
    morpheme is substituted first and wrapped; its wrapper holds a line
    break, so the split pattern does not take it for a span, and the
    pass for [a] wraps the [a] inside it and the letters [a] of its
    tags. *)
Theorem line_break_span_wrapped_inside :
  let wrapped_a := replacement (py "unknown") (py "a") in
  Forall (λ morph, regex_plain (inflected_morph morph) = true) nested_morphs
  ∧ sorted_morphs nested_morphs = [two_line_entry; plain_entry "a"]
  ∧ non_span_sub ascii_ignorecase (inflected_morph two_line_entry)
      (replacement (py "unknown")) nested_text
    = py "x" ++ replacement (py "unknown") (py "a" ++ [newline] ++ py "b")
  ∧ highlight_text ascii_ignorecase (sample_config true false) nested_morphs
      sample_morph_cache nested_text
    = Ok (py "x<sp" ++ wrapped_a ++ py "n morph-st" ++ wrapped_a
            ++ py "tus=" ++ [dquote] ++ py "unknown" ++ [dquote] ++ py ">"
            ++ wrapped_a ++ [newline] ++ py "b</sp" ++ wrapped_a ++ py "n>").
Proof.
  cbv zeta. split; [repeat constructor|].
  split; [reflexivity|]. split; vm_compute; reflexivity.
Qed.

(** * Further properties *)

(** ** The scorer, in closed form *)

Lemma score_loop_closed mc mp ms d u :
  Forall (scorable mc mp) ms →
  score_loop mc mp ms d u
  = Ok (d + priority_sum mp ms, u ++ unknown_forms mc ms).
Proof.
  intros Hms. revert d u. induction Hms as [|m ms [[hi Hhi] [p Hp]] _ IH];
    intros d u; simpl.
  - unfold unknown_forms. simpl. by rewrite Z.add_0_r, app_nil_r.
  - unfold dict_get. rewrite Hhi, Hp. simpl. rewrite IH. f_equal. f_equal.
    + lia.
    + unfold unknown_forms. rewrite filter_cons.
      destruct (Z.eqb_spec hi 0) as [->|Hne].
      * rewrite decide_True by done. rewrite fmap_cons. by rewrite <- app_assoc.
      * rewrite decide_False by congruence. done.
Qed.

Lemma score_loop_KeyError mc mp ms d u :
  ¬ Forall (scorable mc mp) ms →
  score_loop mc mp ms d u = Raise KeyError.
Proof.
  revert d u. induction ms as [|m ms IH]; intros d u Hno; simpl.
  - destruct Hno. constructor.
  - unfold dict_get. destruct (mc !! entire_morph m) as [hi|] eqn:Hhi; [|done].
    simpl. destruct (mp !! entire_morph m) as [p|] eqn:Hp; [|done]. simpl.
    apply IH. intros Hms. apply Hno. constructor; [|done].
    split; by eexists.
Qed.

(** For a card whose morphemes are all in the interval cache and in the
    priority map, the scorer returns the surface forms of the morphemes with
    interval 0, in the card's order, and the priority sum capped at 499999
    plus 500000 per unknown; or the sentinel 2147483647 when nothing is
    unknown and stale cards are skipped. *)
Theorem scorer_closed_form am_config id cmm mc mp ms :
  cmm !! id = Some ms →
  Forall (scorable mc mp) ms →
  get_card_difficulty_and_unknowns am_config id cmm mc mp
  = Ok (if bool_decide (unknown_forms mc ms = []) && skip_stale_cards am_config
        then default_difficulty
        else Z.min (priority_sum mp ms) (morph_unknown_penalty - 1)
             + Z.of_nat (length (unknown_forms mc ms)) * morph_unknown_penalty,
        unknown_forms mc ms).
Proof.
  intros Hid Hms. unfold get_card_difficulty_and_unknowns. rewrite Hid.
  rewrite (score_loop_closed _ _ _ _ _ Hms). simpl.
  rewrite Z.add_0_l.
  destruct (unknown_forms mc ms) as [|x l] eqn:Hu; simpl.
  - try rewrite bool_decide_eq_true_2 by done. simpl.
    destruct (skip_stale_cards am_config); [done|]. f_equal. f_equal.
    unfold morph_unknown_penalty.
    destruct (Z.leb_spec 500000 (priority_sum mp ms)); lia.
  - try rewrite bool_decide_eq_false_2 by done. simpl. f_equal. f_equal.
    unfold morph_unknown_penalty.
    destruct (Z.leb_spec 500000 (priority_sum mp ms)); lia.
Qed.

Lemma scorer_closed_form_witness :
  get_card_difficulty_and_unknowns (sample_config true false) 1
    (get_card_morph_map_cache scenario_db) (get_morph_cache scenario_db)
    scenario_priority
  = Ok (500008, [py "猫"]).
Proof.
  apply (scorer_closed_form (sample_config true false) 1
           (get_card_morph_map_cache scenario_db) (get_morph_cache scenario_db)
           scenario_priority (map entry_of_row (Card_Morph_Map scenario_db))).
  - vm_compute. reflexivity.
  - repeat constructor; by eexists.
Defined.

(** The scorer fails exactly when the card has a morpheme that the
    interval cache or the priority map does not hold, and then with
    [KeyError]; a card without morphemes in the map never fails. *)
Theorem scorer_fails_on_missing_key am_config id cmm mc mp :
  match cmm !! id with
  | None =>
      get_card_difficulty_and_unknowns am_config id cmm mc mp
      = Ok (default_difficulty, [])
  | Some ms =>
      (Forall (scorable mc mp) ms →
       ∃ r, get_card_difficulty_and_unknowns am_config id cmm mc mp = Ok r) ∧
      (¬ Forall (scorable mc mp) ms →
       get_card_difficulty_and_unknowns am_config id cmm mc mp = Raise KeyError)
  end.
Proof.
  destruct (cmm !! id) as [ms|] eqn:Hid.
  - split.
    + intros Hms. unfold get_card_difficulty_and_unknowns. rewrite Hid.
      rewrite (score_loop_closed _ _ _ _ _ Hms). simpl.
      repeat case_match; eauto.
    + intros Hno. unfold get_card_difficulty_and_unknowns. rewrite Hid.
      by rewrite score_loop_KeyError.
  - unfold get_card_difficulty_and_unknowns. by rewrite Hid.
Qed.

Lemma scorer_fails_on_missing_key_witness :
  get_card_difficulty_and_unknowns (sample_config true false) 1
    (get_card_morph_map_cache scenario_db) (get_morph_cache scenario_db) ∅
  = Raise KeyError.
Proof.
  pose proof (scorer_fails_on_missing_key (sample_config true false) 1
                (get_card_morph_map_cache scenario_db)
                (get_morph_cache scenario_db) ∅) as H.
  destruct (get_card_morph_map_cache scenario_db !! 1) as [ms|] eqn:Hid;
    [|by vm_compute in Hid].
  apply (proj2 H). intros Hall. vm_compute in Hid. injection Hid as <-.
  apply Forall_cons in Hall as [[_ [p Hp]] _]. by rewrite lookup_empty in Hp.
Defined.

(** ** The ranker *)

Lemma Counter_snoc l k : Counter (l ++ [k]) = counter_add k (Counter l).
Proof. unfold Counter. by rewrite foldl_app. Qed.

Lemma counter_add_NoDup k c : NoDup c.*1 → NoDup (counter_add k c).*1.
Proof.
  induction c as [|[k' n] c IH]; simpl; intros Hnd.
  - apply NoDup_singleton.
  - apply NoDup_cons in Hnd as [Hk' Hnd].
    destruct (decide (k = k')) as [->|Hne]; simpl.
    + by apply NoDup_cons.
    + apply NoDup_cons. split; [|by apply IH].
      rewrite counter_add_keys. intros [?|?]; [congruence|done].
Qed.

Lemma Counter_NoDup l : NoDup (Counter l).*1.
Proof.
  induction l as [|k l IH] using rev_ind; [constructor|].
  rewrite Counter_snoc. by apply counter_add_NoDup.
Qed.

Lemma counter_add_elem k c x n :
  NoDup c.*1 →
  (x, n) ∈ counter_add k c →
  (x ≠ k ∧ (x, n) ∈ c) ∨
  (x = k ∧ ((k, n - 1) ∈ c ∨ ((k ∉ c.*1) ∧ n = 1))).
Proof.
  induction c as [|[k' m] c IH]; simpl; intros Hnd.
  - intros [= -> ->]%list_elem_of_singleton. right. split; [done|]. right.
    split; [apply not_elem_of_nil|done].
  - apply NoDup_cons in Hnd as [Hk' Hnd].
    destruct (decide (k = k')) as [<-|Hne].
    + intros [[= -> ->]|H]%elem_of_cons.
      * right. split; [done|]. left. replace (m + 1 - 1) with m by lia.
        apply list_elem_of_here.
      * left. split; [|by apply list_elem_of_further].
        intros ->. apply Hk'. apply list_elem_of_fmap. by exists (k, n).
    + intros [[= -> ->]|H]%elem_of_cons.
      * left. split; [congruence|]. apply list_elem_of_here.
      * apply (IH Hnd) in H as [[Hx H]|[-> [H|[Hk ->]]]].
        -- left. split; [done|]. by apply list_elem_of_further.
        -- right. split; [done|]. left. by apply list_elem_of_further.
        -- right. split; [done|]. right. split; [|done].
           rewrite not_elem_of_cons. done.
Qed.

Lemma filter_absent (l : list str) k : k ∉ l → filter (λ x, x = k) l = [].
Proof.
  induction l as [|y l IH]; [done|]. intros [Hy Hl]%not_elem_of_cons.
  rewrite filter_cons, decide_False by congruence. by apply IH.
Qed.

(** A counter holds, for each key, the number of its occurrences. *)
Lemma Counter_count l k n :
  (k, n) ∈ Counter l → n = Z.of_nat (length (filter (λ x, x = k) l)).
Proof.
  revert k n. induction l as [|y l IH] using rev_ind; intros k n.
  - intros H. by apply elem_of_nil in H.
  - rewrite Counter_snoc, filter_app, length_app. intros H.
    apply counter_add_elem in H as [[Hne H]|[-> [H|[Hk ->]]]];
      [| | |apply Counter_NoDup].
    + apply IH in H. rewrite filter_cons, decide_False by congruence.
      simpl. lia.
    + apply IH in H. rewrite filter_cons, decide_True by done. simpl. lia.
    + rewrite filter_cons, decide_True by done. simpl.
      rewrite filter_absent; [simpl; lia|].
      intros Hin. apply Hk. by apply Counter_keys.
Qed.

Lemma sorted_by_count_desc_sorted l :
  StronglySorted (λ x y, snd y ≤ snd x) (sorted_by_count_desc l).
Proof.
  apply sorted_by_sorted.
  - intros x y z Hxy Hyz. lia.
  - intros x y H. apply Z.ltb_ge in H. lia.
  - intros x y H. apply Z.ltb_lt in H. lia.
Qed.

Lemma imap_fst {A B C} (f : nat → A → B) (g : B → C) (h : A → C) l :
  (∀ i x, g (f i x) = h x) → g <$> imap f l = h <$> l.
Proof.
  intros Hf. revert f Hf. induction l as [|x l IH]; intros f Hf; [done|].
  simpl. rewrite Hf. f_equal. apply IH. intros i y. apply Hf.
Qed.

(** With distinct keys, the rank of a key is its position. *)
Lemma enumerate_keys_lookup l k p :
  NoDup l.*1 →
  enumerate_keys l !! k = Some p ↔
  ∃ i n, l !! i = Some (k, n) ∧ p = Z.of_nat i.
Proof.
  intros Hnd. unfold enumerate_keys.
  rewrite <- elem_of_list_to_map.
  - rewrite elem_of_lookup_imap. split.
    + intros (i & [k' n] & [= -> ->] & Hi). eauto.
    + intros (i & n & Hi & ->). exists i, (k, n). done.
  - by rewrite (imap_fst _ fst fst).
Qed.

Lemma NoDup_fst_lookup {A B} (l : list (A * B)) i j k n m :
  NoDup l.*1 → l !! i = Some (k, n) → l !! j = Some (k, m) → i = j.
Proof.
  intros Hnd Hi Hj. eapply NoDup_lookup; [exact Hnd| |].
  - rewrite list_lookup_fmap, Hi. done.
  - rewrite list_lookup_fmap, Hj. done.
Qed.

Lemma StronglySorted_lookup {A} (R : A → A → Prop) l i j x y :
  StronglySorted R l → (i < j)%nat → l !! i = Some x → l !! j = Some y → R x y.
Proof.
  intros Hs. revert i j. induction Hs as [|z l Hs IH Hall]; intros i j Hij Hi Hj.
  - done.
  - destruct j as [|j]; [lia|]. simpl in Hj. destruct i as [|i]; simpl in Hi.
    + injection Hi as <-. apply (proj1 (Forall_forall _ _) Hall).
      by eapply list_elem_of_lookup_2.
    + eapply IH; [|done|done]. lia.
Qed.

Section Ranker.

Variable db : AnkiMorphsDB.

Local Abbreviation keys := (table_keys db).
Local Abbreviation ranked := (ranked_keys db).

Lemma ranked_NoDup : NoDup ranked.*1.
Proof.
  unfold ranked_keys, sorted_by_count_desc.
  rewrite (sorted_by_Permutation _ (Counter keys)). apply Counter_NoDup.
Qed.

Lemma ranked_count k n :
  (k, n) ∈ ranked → n = Z.of_nat (occurrences db k).
Proof.
  unfold ranked_keys, sorted_by_count_desc. rewrite sorted_by_elem_of.
  intros H%Counter_count. subst n. f_equal. unfold occurrences, table_keys.
  clear. induction (Card_Morph_Map db) as [|row rows IH]; [done|].
  simpl. rewrite !filter_cons.
  destruct (decide _); simpl; [f_equal|]; done.
Qed.

Lemma priority_lookup k p :
  get_morph_collection_priority db !! k = Some p ↔
  ∃ i n, ranked !! i = Some (k, n) ∧ p = Z.of_nat i.
Proof.
  change (get_morph_collection_priority db) with (enumerate_keys ranked).
  apply enumerate_keys_lookup, ranked_NoDup.
Qed.

(** The ranks are the positions 0, 1, ..., one per key of the table: every
    key of the table has a rank, no two keys share one, and every rank is
    below the number of ranked keys. *)
Theorem priority_is_a_ranking :
  (∀ k, is_Some (get_morph_collection_priority db !! k)
        ↔ (0 < occurrences db k)%nat) ∧
  (∀ k1 k2 p, get_morph_collection_priority db !! k1 = Some p →
              get_morph_collection_priority db !! k2 = Some p → k1 = k2) ∧
  (∀ k p, get_morph_collection_priority db !! k = Some p →
          0 ≤ p < Z.of_nat (size (get_morph_collection_priority db))).
Proof.
  assert (Hsize : size (get_morph_collection_priority db) = length ranked).
  { change (get_morph_collection_priority db) with (enumerate_keys ranked).
    unfold enumerate_keys. rewrite map_size_list_to_map.
    - by rewrite length_imap.
    - rewrite (imap_fst _ fst fst) by done. apply ranked_NoDup. }
  split; [|split].
  - intros k. split.
    + intros [p (i & n & Hi & _)%priority_lookup].
      apply list_elem_of_lookup_2 in Hi.
      assert (Hk : k ∈ keys).
      { apply Counter_keys. apply list_elem_of_fmap. exists (k, n).
        split; [done|]. unfold ranked_keys, sorted_by_count_desc in Hi.
        by apply sorted_by_elem_of in Hi. }
      unfold occurrences. unfold table_keys in Hk.
      apply list_elem_of_fmap in Hk as (row & -> & Hrow).
      destruct (filter _ _) as [|x l] eqn:Hf; [|simpl; lia].
      exfalso. by eapply (filter_nil_not_elem_of _ _ row Hf).
    + intros Hpos. unfold occurrences in Hpos.
      destruct (filter _ _) as [|row l] eqn:Hf; [simpl in Hpos; lia|].
      assert (Hrow : row ∈ filter
                (λ row, morph_key (cm_morph_norm row) (cm_morph_inflected row) = k)
                (Card_Morph_Map db)) by (rewrite Hf; apply list_elem_of_here).
      apply list_elem_of_filter in Hrow as [Hkey Hrow].
      assert (Hk : k ∈ (Counter keys).*1).
      { apply Counter_keys. unfold table_keys. apply list_elem_of_fmap. by exists row. }
      apply list_elem_of_fmap in Hk as ([k' n] & -> & Hkn). simpl.
      assert (Hr : (k', n) ∈ ranked)
        by (unfold ranked_keys, sorted_by_count_desc; by apply sorted_by_elem_of).
      apply list_elem_of_lookup in Hr as [i Hi].
      exists (Z.of_nat i). apply priority_lookup. eauto.
  - intros k1 k2 p (i & n & Hi & ->)%priority_lookup
                    (j & m & Hj & Hij)%priority_lookup.
    assert (i = j) as -> by lia. congruence.
  - intros k p (i & n & Hi & ->)%priority_lookup.
    apply lookup_lt_Some in Hi. rewrite Hsize. lia.
Qed.

(** A key that occurs more often in the table has a smaller rank. *)
Theorem priority_follows_frequency k1 k2 p1 p2 :
  get_morph_collection_priority db !! k1 = Some p1 →
  get_morph_collection_priority db !! k2 = Some p2 →
  (occurrences db k2 < occurrences db k1)%nat →
  p1 < p2.
Proof.
  intros (i & n & Hi & ->)%priority_lookup (j & m & Hj & ->)%priority_lookup Hocc.
  pose proof (ranked_count _ _ (list_elem_of_lookup_2 _ _ _ Hi)) as Hn.
  pose proof (ranked_count _ _ (list_elem_of_lookup_2 _ _ _ Hj)) as Hm.
  destruct (decide (i < j)%nat) as [Hlt|Hge]; [lia|]. exfalso.
  destruct (decide (i = j)) as [->|Hne].
  - rewrite Hi in Hj. injection Hj as -> ->. lia.
  - assert (Hji : (j < i)%nat) by lia.
    pose proof (StronglySorted_lookup _ _ _ _ _ _
                  (sorted_by_count_desc_sorted (Counter keys)) Hji Hj Hi) as Hle.
    simpl in Hle. lia.
Qed.

End Ranker.

Lemma priority_follows_frequency_witness :
  get_morph_collection_priority sample_db !! py "nekoneko" = Some 0
  ∧ get_morph_collection_priority sample_db !! py "toritori" = Some 2
  ∧ 0 < 2.
Proof.
  split; [vm_compute; reflexivity|]. split; [vm_compute; reflexivity|].
  apply (priority_follows_frequency sample_db (py "nekoneko") (py "toritori")).
  - vm_compute. reflexivity.
  - vm_compute. reflexivity.
  - vm_compute. lia.
Defined.

(** ** The readers of the cache, exactly *)

Lemma morph_cache_fold (rows : list MorphRow) (acc : gmap str Z) (k : str) :
  foldl (λ morph_cache row,
           <[morph_key (mr_norm row) (mr_inflected row)
             := mr_highest_learning_interval row]> morph_cache) acc rows !! k
  = match last (filter (λ row, morph_key (mr_norm row) (mr_inflected row) = k)
                       rows) with
    | Some row => Some (mr_highest_learning_interval row)
    | None => acc !! k
    end.
Proof.
  induction rows as [|row rows IH] using rev_ind; [done|].
  rewrite foldl_app, filter_app. simpl. rewrite filter_cons, filter_nil.
  destruct (decide (morph_key (mr_norm row) (mr_inflected row) = k)) as [<-|Hne].
  - by rewrite lookup_insert_eq, last_snoc.
  - rewrite lookup_insert_ne by done. by rewrite app_nil_r.
Qed.

(** The interval cache holds, for a key, the interval of the last row of
    the morpheme table with that key, and nothing for a key without a row. *)
Theorem morph_cache_last_row_wins db k :
  get_morph_cache db !! k
  = mr_highest_learning_interval
      <$> last (filter (λ row, morph_key (mr_norm row) (mr_inflected row) = k)
                       (Morphs db)).
Proof.
  unfold get_morph_cache. rewrite morph_cache_fold.
  destruct (last _); [done|]. by rewrite lookup_empty.
Qed.

(** The card id that the loop remembers after going through [rows]. *)
Lemma card_morph_map_loop_app pre rest outer cache :
  card_morph_map_loop (pre ++ rest) outer cache
  = card_morph_map_loop rest
      (match last pre with Some row => Some (cm_card_id row) | None => outer end)
      (card_morph_map_loop pre outer cache).
Proof.
  revert outer cache. induction pre as [|row pre IH]; intros outer cache; [done|].
  simpl. destruct (decide (Some (cm_card_id row) = outer)) as [Heq|Hne].
  - rewrite IH. destruct pre as [|row' pre]; [|done]. simpl. by rewrite <- Heq.
  - rewrite IH. destruct pre as [|row' pre]; [done|].
    simpl. destruct (last (row' :: pre)) eqn:Hlast; [done|].
    by apply last_None in Hlast.
Qed.

Lemma card_morph_map_loop_other rows outer cache c :
  Forall (λ row, cm_card_id row ≠ c) rows →
  card_morph_map_loop rows outer cache !! c = cache !! c.
Proof.
  intros Hrows. revert outer cache.
  induction Hrows as [|row rows Hrow _ IH]; intros outer cache; [done|].
  simpl. destruct (decide _); rewrite IH.
  - by rewrite lookup_alter_ne.
  - by rewrite lookup_insert_ne.
Qed.

Lemma card_morph_map_loop_same run cache c l :
  Forall (λ row, cm_card_id row = c) run →
  cache !! c = Some l →
  card_morph_map_loop run (Some c) cache !! c = Some (l ++ (entry_of_row <$> run)).
Proof.
  intros Hrun. revert cache l.
  induction Hrun as [|row run Hrow _ IH]; intros cache l Hl; simpl.
  - by rewrite app_nil_r.
  - rewrite decide_True by congruence.
    rewrite (IH _ (l ++ [entry_of_row row])).
    + by rewrite <- app_assoc.
    + by rewrite Hrow, lookup_alter_eq, Hl.
Qed.

Lemma card_morph_map_run db c pre row run post :
  Card_Morph_Map db = pre ++ (row :: run) ++ post →
  Forall (λ r, cm_card_id r = c) (row :: run) →
  (∀ r, last pre = Some r → cm_card_id r ≠ c) →
  Forall (λ r, cm_card_id r ≠ c) post →
  get_card_morph_map_cache db !! c = Some (entry_of_row <$> row :: run).
Proof.
  intros Htable Hrun Hpre Hpost. unfold get_card_morph_map_cache.
  apply Forall_cons in Hrun as [<- Hrun].
  rewrite Htable, card_morph_map_loop_app, card_morph_map_loop_app.
  rewrite card_morph_map_loop_other by done. simpl.
  rewrite decide_False.
  - rewrite (card_morph_map_loop_same run _ _ [entry_of_row row]); [done|done|].
    by rewrite lookup_insert_eq.
  - destruct (last pre) as [r|] eqn:Hlast; [|done].
    intros [= Heq]. by apply (Hpre r).
Qed.

(** The card-morpheme map holds, for a card, the entries of the last run of
    adjacent rows with that card id: a run that starts where the previous
    row has another card id, and after which the id does not come again.
    Rows of the card before that run are not in the map. *)
Theorem card_morph_map_last_run db c pre row run post :
  Card_Morph_Map db = pre ++ (row :: run) ++ post →
  Forall (λ r, cm_card_id r = c) (row :: run) →
  (∀ r, last pre = Some r → cm_card_id r ≠ c) →
  Forall (λ r, cm_card_id r ≠ c) post →
  get_card_morph_map_cache db !! c = Some (entry_of_row <$> row :: run).
Proof. apply card_morph_map_run. Qed.

Lemma card_morph_map_last_run_witness :
  get_card_morph_map_cache sample_db !! 3
  = Some [entry_of_row (base_edge 3 "inu"); entry_of_row (base_edge 3 "tori")].
Proof.
  apply (card_morph_map_last_run sample_db 3
           [base_edge 1 "neko"; base_edge 1 "inu"; base_edge 2 "neko"]
           (base_edge 3 "inu") [base_edge 3 "tori"] []).
  - reflexivity.
  - repeat constructor.
  - intros r [= <-]. discriminate.
  - constructor.
Defined.

(** A card without a row in the table is not in the map. *)
Theorem card_morph_map_absent db c :
  Forall (λ r, cm_card_id r ≠ c) (Card_Morph_Map db) →
  get_card_morph_map_cache db !! c = None.
Proof.
  intros H. unfold get_card_morph_map_cache.
  by rewrite card_morph_map_loop_other.
Qed.

Lemma card_morph_map_absent_witness :
  get_card_morph_map_cache sample_db !! 9 = None.
Proof.
  apply (card_morph_map_absent sample_db 9).
  repeat constructor; discriminate.
Defined.

(** ** Tags, further *)

Lemma list_remove_absent t l : t ∉ l → list_remove t l = l.
Proof.
  induction l as [|y l IH]; [done|]. intros [Hy Hl]%not_elem_of_cons. simpl.
  rewrite decide_False by done. by rewrite IH.
Qed.

Lemma list_remove_snoc t l : t ∉ l → list_remove t (l ++ [t]) = l.
Proof.
  induction l as [|y l IH]; simpl.
  - intros _. by rewrite decide_True.
  - intros [Hy Hl]%not_elem_of_cons. rewrite decide_False by done.
    by rewrite IH.
Qed.

Lemma list_remove_NoDup t l : NoDup l → NoDup (list_remove t l).
Proof.
  intros Hnd. induction Hnd as [|y l Hy Hnd IH]; simpl; [constructor|].
  destruct (decide (t = y)); [done|]. constructor; [|done].
  rewrite list_remove_elem_of by done. tauto.
Qed.

Lemma tag_discard_NoDup t l : NoDup l → NoDup (tag_discard t l).
Proof.
  intros Hnd. unfold tag_discard. destruct (decide _); [|done].
  by apply list_remove_NoDup.
Qed.

Lemma tag_add_present t l : t ∈ l → tag_add t l = l.
Proof. intros H. unfold tag_add. by rewrite decide_True. Qed.

Lemma tag_discard_absent t l : t ∉ l → tag_discard t l = l.
Proof. intros H. unfold tag_discard. by rewrite decide_False. Qed.

(** Adding a tag and then discarding another, twice, is the same as once,
    on a list without duplicates. *)
Lemma add_discard_twice a d l :
  NoDup l →
  tag_discard d (tag_add a (tag_discard d (tag_add a l)))
  = tag_discard d (tag_add a l).
Proof.
  intros Hnd.
  assert (Hnd1 : NoDup (tag_add a l)) by by apply tag_add_NoDup.
  assert (Hd : d ∉ tag_discard d (tag_add a l)).
  { rewrite tag_discard_elem_of by done. tauto. }
  destruct (decide (a = d)) as [->|Hne].
  - unfold tag_add at 1. rewrite decide_False by done.
    unfold tag_discard at 1. rewrite decide_True.
    + by apply list_remove_snoc.
    + apply elem_of_app. right. apply list_elem_of_here.
  - rewrite (tag_add_present a).
    + by apply tag_discard_absent.
    + rewrite tag_discard_elem_of by done. split; [|done].
      apply tag_add_elem_of. by left.
Qed.

(** Updating the tags of a note a second time, with the same number of
    unknowns, changes nothing, when the note's tags have no duplicates. *)
Theorem update_tags_idempotent am_config note unknowns :
  NoDup (note_tags note) →
  update_tags am_config (update_tags am_config note unknowns) unknowns
  = update_tags am_config note unknowns.
Proof.
  intros Hnd. unfold update_tags.
  destruct (unknowns =? 0); [|destruct (unknowns =? 1)]; unfold set_tags; simpl.
  - by rewrite add_discard_twice.
  - by rewrite add_discard_twice.
  - rewrite (tag_add_present _ (tag_add _ _)); [done|].
    apply tag_add_elem_of. by left.
Qed.

Lemma update_tags_idempotent_witness :
  update_tags (sample_config true false)
    (update_tags (sample_config true false)
       {| note_id := 7; note_fields := [];
          note_tags := [py "am-not-ready"; py "verb"] |} 1) 1
  = update_tags (sample_config true false)
      {| note_id := 7; note_fields := [];
         note_tags := [py "am-not-ready"; py "verb"] |} 1.
Proof.
  apply (update_tags_idempotent (sample_config true false)
           {| note_id := 7; note_fields := [];
              note_tags := [py "am-not-ready"; py "verb"] |} 1).
  simpl. apply NoDup_cons. split.
  - intros Hin. apply list_elem_of_singleton in Hin. revert Hin.
    vm_compute. discriminate.
  - apply NoDup_singleton.
Defined.

Lemma filter_tag_add (P : str → Prop) `{∀ x, Decision (P x)} t l :
  ¬ P t → filter P (tag_add t l) = filter P l.
Proof.
  intros Ht. unfold tag_add. destruct (decide _); [done|].
  rewrite filter_app, filter_cons, decide_False by done. by rewrite app_nil_r.
Qed.

Lemma filter_list_remove (P : str → Prop) `{∀ x, Decision (P x)} t l :
  ¬ P t → filter P (list_remove t l) = filter P l.
Proof.
  intros Ht. induction l as [|y l IH]; [done|]. simpl.
  destruct (decide (t = y)) as [<-|Hne].
  - by rewrite filter_cons, decide_False.
  - rewrite !filter_cons. destruct (decide (P y)); by rewrite IH.
Qed.

Lemma filter_tag_discard (P : str → Prop) `{∀ x, Decision (P x)} t l :
  ¬ P t → filter P (tag_discard t l) = filter P l.
Proof.
  intros Ht. unfold tag_discard. destruct (decide _); [|done].
  by apply filter_list_remove.
Qed.

(** The tag update touches the three tags of the configuration only: the
    other tags of the note stay, in their order and as often as before; the
    id and the fields stay; and a tag list without duplicates stays without
    duplicates. *)
Theorem update_tags_keeps_foreign_tags am_config note unknowns :
  let note' := update_tags am_config note unknowns in
  filter (foreign_tag am_config) (note_tags note')
  = filter (foreign_tag am_config) (note_tags note)
  ∧ note_id note' = note_id note
  ∧ note_fields note' = note_fields note
  ∧ (NoDup (note_tags note) → NoDup (note_tags note')).
Proof.
  assert (Hk : ¬ foreign_tag am_config (tag_known am_config))
    by (intros (? & ? & ?); done).
  assert (Hr : ¬ foreign_tag am_config (tag_ready am_config))
    by (intros (? & ? & ?); done).
  assert (Hn : ¬ foreign_tag am_config (tag_not_ready am_config))
    by (intros (? & ? & ?); done).
  unfold update_tags.
  destruct (unknowns =? 0); [|destruct (unknowns =? 1)]; simpl;
    repeat split;
    rewrite ?filter_tag_discard, ?filter_tag_add by done; try done;
    intros Hnd; try apply tag_discard_NoDup; by apply tag_add_NoDup.
Qed.

(** ** The field writers *)

Lemma join_trailing (sep : str) (us : list str) (u : str) :
  (u ++ sep) ++ concat (map (λ x, x ++ sep) us)
  = (u ++ concat (map (λ x, sep ++ x) us)) ++ sep.
Proof.
  revert u. induction us as [|x us IH]; intros u.
  - simpl. by rewrite !app_nil_r.
  - rewrite !map_cons, !concat_cons, IH. by rewrite <- !app_assoc.
Qed.

Lemma join_without_last_comma (unknowns : list str) :
  let focus_morph_string :=
    concat (map (λ unknown, unknown ++ py ", ") unknowns) in
  take (length focus_morph_string - 2) focus_morph_string
  = comma_separated unknowns.
Proof.
  destruct unknowns as [|u us]; [done|].
  cbv zeta. rewrite map_cons, concat_cons, join_trailing.
  unfold comma_separated. rewrite length_app.
  replace (length (py ", ")) with 2%nat by reflexivity.
  rewrite Nat.add_sub. by rewrite take_app_length.
Qed.

Lemma py_index_in_range n i :
  0 ≤ i < Z.of_nat n → py_index n i = Some (Z.to_nat i).
Proof.
  intros H. unfold py_index.
  destruct (Z.leb_spec 0 i); [|lia]. destruct (Z.ltb_spec i (Z.of_nat n)); [|lia].
  done.
Qed.

Lemma py_index_beyond n i : Z.of_nat n ≤ i → py_index n i = None.
Proof.
  intros H. unfold py_index.
  destruct (Z.leb_spec 0 i); [|lia]. destruct (Z.ltb_spec i (Z.of_nat n)); [lia|].
  simpl. destruct (Z.ltb_spec i 0); [lia|]. done.
Qed.

Lemma list_set_spec l index v :
  0 < index →
  list_set l (index - 1) v
  = if index <=? Z.of_nat (length l)
    then Ok (<[Z.to_nat (index - 1) := v]> l) else Raise IndexError.
Proof.
  intros Hpos. unfold list_set.
  destruct (Z.leb_spec index (Z.of_nat (length l))).
  - by rewrite py_index_in_range by lia.
  - by rewrite py_index_beyond by lia.
Qed.

(** The focus field receives the unknown surface forms joined by a comma
    and a blank, with no separator after the last; a field number beyond
    the note's fields raises [IndexError], and no field number, or one
    that is not positive, leaves the note as it is. *)
Theorem focus_field_comma_separated config_filter note unknowns :
  update_focus_morph_field config_filter note unknowns
  = match focus_morph_field_index config_filter with
    | None => Ok note
    | Some index =>
        if index <=? 0 then Ok note
        else if index <=? Z.of_nat (length (note_fields note))
        then Ok (set_fields note
                   (<[Z.to_nat (index - 1) := comma_separated unknowns]>
                      (note_fields note)))
        else Raise IndexError
    end.
Proof.
  unfold update_focus_morph_field.
  destruct (focus_morph_field_index config_filter) as [index|]; [|done].
  destruct (Z.ltb_spec 0 index), (Z.leb_spec index 0); try lia; [|done].
  rewrite join_without_last_comma, list_set_spec by done.
  by destruct (index <=? _).
Qed.

Lemma list_set_frame l i v l' :
  0 ≤ i → list_set l i v = Ok l' →
  length l' = length l ∧ ∀ j, Z.of_nat j ≠ i → l' !! j = l !! j.
Proof.
  intros Hi. unfold list_set, py_index.
  destruct (Z.leb_spec 0 i); [|lia].
  destruct (Z.ltb_spec i (Z.of_nat (length l))); simpl.
  - intros [= <-]. split; [by rewrite length_insert|].
    intros j Hj. apply list_lookup_insert_ne. lia.
  - destruct (Z.ltb_spec i 0); [lia|]. done.
Qed.

Lemma only_field_changed_refl index note : only_field_changed index note note.
Proof. by repeat split. Qed.

Lemma only_field_changed_set index i note v fields :
  0 < i → index = Some i →
  list_set (note_fields note) (i - 1) v = Ok fields →
  only_field_changed index note (set_fields note fields).
Proof.
  intros Hi -> Hset. apply list_set_frame in Hset as [Hlen Hothers]; [|lia].
  repeat split; try done. simpl. intros j Hj. apply Hothers.
  intros Heq. apply Hj. f_equal. lia.
Qed.

(** Each of the three field writers changes at most the one field its
    configured number names: the note's id, its tags, the number of its
    fields and every other field are as before. *)
Theorem field_writers_change_one_field ignorecase am_config config_filter
    card_morph_map_cache morph_cache card_id note unknowns difficulty note' :
  (update_focus_morph_field config_filter note unknowns = Ok note' →
   only_field_changed (focus_morph_field_index config_filter) note note') ∧
  (update_difficulty_field config_filter note difficulty = Ok note' →
   only_field_changed (difficulty_field_index config_filter) note note') ∧
  (update_highlighted_field ignorecase am_config config_filter
     card_morph_map_cache morph_cache card_id note = Ok note' →
   only_field_changed (highlighted_field_index config_filter) note note').
Proof.
  split; [|split].
  - unfold update_focus_morph_field.
    destruct (focus_morph_field_index config_filter) as [i|] eqn:Hi;
      [|intros [= <-]; apply only_field_changed_refl].
    destruct (Z.ltb_spec 0 i); [|intros [= <-]; apply only_field_changed_refl].
    intros (fields & Hset & [= <-])%bind_Ok.
    by eapply only_field_changed_set.
  - unfold update_difficulty_field.
    destruct (difficulty_field_index config_filter) as [i|] eqn:Hi;
      [|intros [= <-]; apply only_field_changed_refl].
    destruct (Z.ltb_spec 0 i); [|intros [= <-]; apply only_field_changed_refl].
    intros (fields & Hset & [= <-])%bind_Ok.
    by eapply only_field_changed_set.
  - unfold update_highlighted_field.
    destruct (card_morph_map_cache !! card_id);
      [|intros [= <-]; apply only_field_changed_refl].
    destruct (highlighted_field_index config_filter) as [i|] eqn:Hi;
      [|intros [= <-]; apply only_field_changed_refl].
    destruct (field_index config_filter); [|done].
    destruct (Z.ltb_spec 0 i); [|intros [= <-]; apply only_field_changed_refl].
    intros (text & _ & (hl & _ & (fields & Hset & [= <-])%bind_Ok)%bind_Ok)%bind_Ok.
    by eapply only_field_changed_set.
Qed.

Lemma field_writers_change_one_field_witness :
  only_field_changed (Some 2)
    {| note_id := 7; note_fields := [py "a"; py "b"; py "c"]; note_tags := [] |}
    {| note_id := 7; note_fields := [py "a"; py "x, y"; py "c"]; note_tags := [] |}.
Proof.
  apply (proj1 (field_writers_change_one_field ascii_ignorecase
                  (sample_config true false)
                  sample_filter
                  ∅ ∅ 0
                  {| note_id := 7; note_fields := [py "a"; py "b"; py "c"];
                     note_tags := [] |}
                  [py "x"; py "y"] 0 _)).
  reflexivity.
Defined.

(** ** What the highlighter does to a text *)

Lemma wraps_refl t : wraps t t.
Proof. induction t; by constructor. Qed.

Lemma wraps_app a a' b b' : wraps a a' → wraps b b' → wraps (a ++ b) (a' ++ b').
Proof.
  intros Ha Hb. induction Ha as [|c t t' _ IH|st x t t' _ IH].
  - done.
  - rewrite <- !app_comm_cons. by constructor.
  - rewrite <- !app_assoc. by constructor.
Qed.

Lemma wraps_concat l l' : Forall2 wraps l l' → wraps (concat l) (concat l').
Proof.
  induction 1; simpl; [constructor|]. by apply wraps_app.
Qed.

Lemma wraps_sublist t t' : wraps t t' → t `sublist_of` t'.
Proof.
  induction 1 as [|c t t' _ IH|st x t t' _ IH].
  - done.
  - by constructor.
  - apply sublist_app; [|done]. unfold replacement.
    do 5 apply sublist_inserts_l. by apply sublist_inserts_r.
Qed.

Section Wrapping.

Variable ignorecase : N → N → bool.

Lemma re_sub_wraps m morph_status s :
  wraps s (re_sub ignorecase m (replacement morph_status) s).
Proof.
  destruct (decide (m = [])) as [->|Hm].
  - induction s as [|c s IH]; simp re_sub; simpl.
    + rewrite <- (app_nil_r (replacement _ _)).
      apply (wraps_span morph_status [] [] []). constructor.
    + apply (wraps_span morph_status [] (c :: s)). by constructor.
  - remember (length s) as n eqn:Hn. revert s Hn.
    induction n as [n IH] using lt_wf_ind. intros s ->.
    destruct s as [|c s]; [rewrite re_sub_nil by done; constructor|].
    destruct (imatch ignorecase m (c :: s)) eqn:H.
    + rewrite re_sub_match by done.
      rewrite <- (take_drop (length m) (c :: s)) at 1.
      apply wraps_span. eapply IH; [|done].
      rewrite length_drop. destruct m; [done|]. simpl. lia.
    + rewrite re_sub_no by done. constructor. eapply IH; [|done]. simpl. lia.
Qed.

Lemma non_span_sub_wraps m morph_status s :
  wraps s (non_span_sub ignorecase m (replacement morph_status) s).
Proof.
  rewrite non_span_sub_pieces. rewrite <- (split_concat s) at 1.
  apply wraps_concat. apply Forall2_fmap_r, Forall_Forall2_diag.
  apply Forall_forall. intros p _. unfold sub_piece. simpl.
  case_decide; [apply wraps_refl|apply re_sub_wraps].
Qed.

Lemma highlight_loop_wraps am_config morph_cache morphs t t' :
  highlight_loop ignorecase am_config morph_cache morphs t = Ok t' →
  rtc wraps t t'.
Proof.
  revert t. induction morphs as [|morph morphs IH]; intros t.
  - intros [= <-]. done.
  - intros (hi & _ & H)%highlight_loop_cons.
    eapply rtc_l; [apply non_span_sub_wraps|]. by apply IH.
Qed.

(** Highlighting only inserts markup: for morphemes whose surface forms
    are plain literals, the result arises from the text by passes that each
    wrap some stretches of it in a morph-status span, so the text is a
    subsequence of the result and no character of it is dropped or
    altered. *)
Theorem highlight_only_inserts_spans am_config card_morphs morph_cache
    text text' :
  Forall (λ morph, regex_plain (inflected_morph morph) = true) card_morphs →
  highlight_text ignorecase am_config card_morphs morph_cache text = Ok text' →
  rtc wraps text text' ∧ text `sublist_of` text'.
Proof.
  intros _ H%highlight_loop_wraps. split; [done|].
  induction H as [|x y z Hxy _ IH]; [done|].
  etrans; [by apply wraps_sublist|done].
Qed.

Lemma highlight_loop_KeyError am_config morph_cache morphs t :
  ¬ Forall (λ morph, is_Some (morph_cache !! entire_morph morph)) morphs →
  highlight_loop ignorecase am_config morph_cache morphs t = Raise KeyError.
Proof.
  revert t. induction morphs as [|morph morphs IH]; intros t Hno.
  - destruct Hno. constructor.
  - simpl. unfold dict_get.
    destruct (morph_cache !! entire_morph morph) as [hi|] eqn:Hhi; [|done].
    simpl. apply IH. intros Hall. apply Hno. by constructor.
Qed.

Lemma highlight_loop_total am_config morph_cache morphs t :
  Forall (λ morph, is_Some (morph_cache !! entire_morph morph)) morphs →
  ∃ t', highlight_loop ignorecase am_config morph_cache morphs t = Ok t'.
Proof.
  intros Hall. revert t. induction Hall as [|morph morphs [hi Hhi] _ IH];
    intros t; [by eexists|].
  edestruct IH as [t' Ht']. exists t'. apply highlight_loop_cons. eauto.
Qed.

Lemma sorted_morphs_Forall (P : morph_entry → Prop) card_morphs :
  Forall P (sorted_morphs card_morphs) ↔ Forall P card_morphs.
Proof.
  rewrite !Forall_forall. unfold sorted_morphs.
  split; intros H x Hx; apply H.
  - by apply sorted_by_elem_of.
  - by apply sorted_by_elem_of in Hx.
Qed.

(** The highlighter needs an interval for every morpheme of the card: for
    morphemes whose surface forms are plain literals, with all of them in
    the cache it returns a text, and with one missing it raises [KeyError],
    whether or not that morpheme occurs in the text. *)
Theorem highlight_needs_every_interval am_config card_morphs morph_cache text :
  Forall (λ morph, regex_plain (inflected_morph morph) = true) card_morphs →
  (Forall (λ morph, is_Some (morph_cache !! entire_morph morph)) card_morphs →
   ∃ text',
     highlight_text ignorecase am_config card_morphs morph_cache text = Ok text')
  ∧ (¬ Forall (λ morph, is_Some (morph_cache !! entire_morph morph)) card_morphs →
     highlight_text ignorecase am_config card_morphs morph_cache text
     = Raise KeyError).
Proof.
  intros _. unfold highlight_text. split.
  - intros H. apply highlight_loop_total. by apply sorted_morphs_Forall.
  - intros H. apply highlight_loop_KeyError. by rewrite sorted_morphs_Forall.
Qed.

(** A text in which no morpheme of the card matches anywhere comes back
    unchanged, for morphemes whose surface forms are plain literals. *)
Theorem highlight_without_match card_morphs am_config morph_cache text :
  Forall (λ morph, regex_plain (inflected_morph morph) = true) card_morphs →
  Forall (λ morph, inflected_morph morph ≠ []
                   ∧ is_Some (morph_cache !! entire_morph morph)
                   ∧ free ignorecase (inflected_morph morph) text)
         card_morphs →
  highlight_text ignorecase am_config card_morphs morph_cache text = Ok text.
Proof.
  intros _ H. unfold highlight_text. apply highlight_loop_fixed.
  apply sorted_morphs_Forall. eapply Forall_impl; [exact H|]. simpl.
  intros morph (Hne & Hin & Hfree). split; [done|]. split; [done|].
  eapply Forall_impl; [apply split_factors|]. simpl.
  intros q Hq. right. by eapply free_factor.
Qed.

End Wrapping.

Lemma highlight_only_inserts_spans_witness :
  sample_text `sublist_of` sample_highlighted.
Proof.
  apply (highlight_only_inserts_spans ascii_ignorecase (sample_config true false)
           sample_morphs sample_morph_cache sample_text sample_highlighted).
  - repeat constructor.
  - vm_compute. reflexivity.
Defined.

Lemma highlight_without_match_witness :
  highlight_text ascii_ignorecase (sample_config true false) sample_morphs
    sample_morph_cache (py "inu to tori")
  = Ok (py "inu to tori").
Proof.
  apply highlight_without_match; [repeat constructor|].
  apply Forall_cons; split; [|apply Forall_cons; split; [|constructor]].
  - split; [done|]. split; [by eexists|].
    intros j. do 12 (destruct j as [|j]; [reflexivity|]). reflexivity.
  - split; [done|]. split; [by eexists|].
    intros j. do 12 (destruct j as [|j]; [reflexivity|]). reflexivity.
Defined.

Lemma highlight_needs_every_interval_witness :
  highlight_text ascii_ignorecase (sample_config true false)
    [plain_entry "ne"; plain_entry "zz"] sample_morph_cache sample_text
  = Raise KeyError.
Proof.
  apply (proj2 (highlight_needs_every_interval ascii_ignorecase
                  (sample_config true false)
                  [plain_entry "ne"; plain_entry "zz"] sample_morph_cache
                  sample_text ltac:(repeat constructor))).
  intros H. apply Forall_cons in H as [_ H]. apply Forall_cons in H as [[x Hx] _].
  vm_compute in Hx. discriminate.
Defined.

(** ** The queue updater as a whole *)

Section QueueOrder.

Variable ignorecase : N → N → bool.
Variable modify_filters : list AnkiMorphsConfigFilter.

Lemma update_card_scored am_config config_filter db id w card note w' :
  update_card ignorecase am_config config_filter (get_card_morph_map_cache db)
    (get_morph_cache db) (get_morph_priority db am_config) id w
    = (Ok (card, note), w') →
  scored am_config db card.
Proof.
  unfold update_card. intros H.
  apply Op_bind_Ok in H as (card0 & w1 & Hcard & H).
  apply get_card_Ok in Hcard as (-> & row & Hrow & ->).
  apply Op_bind_Ok in H as (note0 & w2 & Hnote & H).
  apply Op_bind_Ok in H as ([card1 note1] & w3 & Hbranch & H).
  apply Op_bind_Ok in H as (note2 & w4 & _ & H).
  injection H as <- <- <-.
  destruct (decide _) as [Hnew|Hold]; simpl in *.
  - apply Op_bind_Ok in Hbranch as ([d u] & w5 & [Hscore _]%lift_Ok & Hbranch).
    apply Op_bind_Ok in Hbranch as (n1 & w6 & _ & Hbranch).
    apply Op_bind_Ok in Hbranch as (n2 & w7 & _ & Hbranch).
    injection Hbranch as <- <- <-. intros _. exists u. done.
  - injection Hbranch as <- <- <-. intros Hty. done.
Qed.

Lemma update_cards_loop_scored am_config config_filter db ids counter
    modified w cards notes w' :
  update_cards_loop ignorecase am_config config_filter
    (get_card_morph_map_cache db) (get_morph_cache db)
    (get_morph_priority db am_config) ids counter modified w
    = (Ok (cards, notes), w') →
  ∃ loaded, cards = modified.1 ++ loaded ∧ Forall (scored am_config db) loaded.
Proof.
  revert counter modified w. induction ids as [|id ids IH]; intros counter modified w.
  - intros [= -> <-]. exists []. simpl. by rewrite app_nil_r.
  - simpl. intros H.
    apply Op_bind_Ok in H as ([] & w1 & Hcheck & H).
    apply Op_bind_Ok in H as ([card note] & w2 & Hcard & H).
    apply update_card_scored in Hcard.
    apply IH in H as (loaded & -> & Hall). simpl.
    exists (card :: loaded). rewrite <- app_assoc. simpl. split; [done|].
    by constructor.
Qed.

Lemma update_filters_loop_scored am_config db filters modified w cards notes w' :
  update_filters_loop ignorecase am_config db (get_card_morph_map_cache db)
    (get_morph_cache db) (get_morph_priority db am_config) filters modified w
    = (Ok (cards, notes), w') →
  ∃ loaded, cards = modified.1 ++ loaded ∧ Forall (scored am_config db) loaded.
Proof.
  revert modified w. induction filters as [|f filters IH]; intros modified w.
  - intros [= -> <-]. exists []. simpl. by rewrite app_nil_r.
  - simpl. destruct (note_type_id f) as [ntid|]; [|discriminate].
    intros H. apply Op_bind_Ok in H as ([cards1 notes1] & w1 & Hloop & H).
    apply update_cards_loop_scored in Hloop as (l1 & -> & Hall1).
    apply IH in H as (l2 & -> & Hall2). simpl.
    exists (l1 ++ l2). rewrite <- app_assoc. split; [done|].
    by apply Forall_app.
Qed.

(** What a successful run stores: the cards it went through, each new one
    with the scorer's difficulty as pending due, after sorting and the
    unique-due pass. *)
Lemma update_cards_pending am_config w w' :
  update_cards ignorecase modify_filters am_config w = (Ok (), w') →
  ∃ pending,
    map card_id pending = touched_ids (am_db w) modify_filters
    ∧ Forall (scored am_config (am_db w)) pending
    ∧ col_cards (col w')
      = store_cards (col_cards (col w))
          (assign_unique_due (new_card_count (col_cards (col w)))
             (sort_by_due pending)).
Proof.
  unfold update_cards. intros H.
  do 5 (erewrite Op_bind_Ok_left in H by reflexivity).
  match type of H with
  | (_ ≫= _) ?w0 = _ => set (w1 := w0) in *
  end.
  assert (Hrows : col_cards (col w1) = col_cards (col w)) by done.
  pose proof (readonly_update_filters_loop ignorecase am_config (am_db w)
                (get_card_morph_map_cache (am_db w)) (get_morph_cache (am_db w))
                (get_morph_priority (am_db w) am_config) modify_filters
                ([], []) w1) as Hro.
  apply Op_bind_Ok in H as ([cards notes] & w2 & Hloop & H).
  rewrite Hloop in Hro. destruct Hro as [_ Hcol]. simpl in Hcol.
  pose proof Hloop as (scoredl & Hs & Hscored)%update_filters_loop_scored.
  apply update_filters_loop_Ok in Hloop as (pending & -> & Hids & Hall).
  simpl in Hs. subst scoredl.
  simpl in H. injection H as <-.
  exists pending. split; [done|]. split; [done|].
  simpl. rewrite Hcol. done.
Qed.

Lemma touched_new_row rows end_of_queue pending i ri :
  i ∈ map card_id pending →
  store_cards rows (assign_unique_due end_of_queue (sort_by_due pending)) !! i
    = Some ri →
  cd_type ri = CARD_TYPE_NEW →
  ∃ index card0, sort_by_due pending !! index = Some card0 ∧ card_id card0 = i
                 ∧ card_type card0 = CARD_TYPE_NEW
                 ∧ cd_due ri = end_of_queue + Z.of_nat index.
Proof.
  intros Hi Hri Hnew.
  apply store_cards_lookup in Hri as [[_ Hall]|(index & card & Hidx & Hid & ->)].
  - exfalso. apply list_elem_of_In, in_map_iff in Hi as (c & Hc & Hin).
    apply list_elem_of_In in Hin.
    assert (Hs : c ∈ sort_by_due pending) by by apply sorted_by_elem_of.
    apply list_elem_of_lookup in Hs as [k Hk].
    apply (Hall (if decide (card_type c = CARD_TYPE_NEW)
                 then set_due c (end_of_queue + Z.of_nat k) else c)).
    + apply list_elem_of_lookup. exists k.
      by rewrite assign_unique_due_lookup, Hk.
    + by destruct (decide _).
  - apply assign_unique_due_elem in Hidx
      as (card0 & Hk & Hid0 & _ & Hty & Hdue & _).
    exists index, card0. split; [done|]. split; [congruence|].
    simpl in *. split; [congruence|]. apply Hdue. congruence.
Qed.

(** The purpose of the queue update: of two new cards that a successful
    run went through, the one the scorer finds strictly easier ends up
    with the strictly smaller due. *)
Theorem easier_new_cards_come_first am_config w w' i j ri rj di ui dj uj :
  update_cards ignorecase modify_filters am_config w = (Ok (), w') →
  i ∈ touched_ids (am_db w) modify_filters →
  j ∈ touched_ids (am_db w) modify_filters →
  col_cards (col w') !! i = Some ri → col_cards (col w') !! j = Some rj →
  cd_type ri = CARD_TYPE_NEW → cd_type rj = CARD_TYPE_NEW →
  score am_config (am_db w) i = Ok (di, ui) →
  score am_config (am_db w) j = Ok (dj, uj) →
  di < dj →
  cd_due ri < cd_due rj.
Proof.
  intros (pending & Hids & Hscored & Hrows)%update_cards_pending
    Hi Hj Hri Hrj Hnewi Hnewj Hsi Hsj Hlt.
  rewrite Hrows in Hri, Hrj. rewrite <- Hids in Hi, Hj.
  apply touched_new_row in Hri as (ki & ci & Hki & Hidi & Htyi & ->); [|done..].
  apply touched_new_row in Hrj as (kj & cj & Hkj & Hidj & Htyj & ->); [|done..].
  assert (Hdue : ∀ k c, sort_by_due pending !! k = Some c →
                 card_type c = CARD_TYPE_NEW →
                 ∃ u, score am_config (am_db w) (card_id c) = Ok (card_due c, u)).
  { intros k c Hk Hty. apply (proj1 (Forall_forall _ _) Hscored); [|done].
    apply list_elem_of_lookup_2 in Hk. unfold sort_by_due in Hk.
    by apply sorted_by_elem_of in Hk. }
  destruct (Hdue _ _ Hki Htyi) as [ui' Hci].
  destruct (Hdue _ _ Hkj Htyj) as [uj' Hcj].
  rewrite Hidi, Hsi in Hci. rewrite Hidj, Hsj in Hcj.
  injection Hci as Hci _. injection Hcj as Hcj _.
  destruct (decide (ki < kj)%nat) as [?|Hge]; [lia|]. exfalso.
  destruct (decide (ki = kj)) as [->|Hne].
  - rewrite Hki in Hkj. injection Hkj as ->. lia.
  - pose proof (StronglySorted_lookup _ _ kj ki _ _ (sort_by_due_sorted pending)
                  ltac:(lia) Hkj Hki) as Hle. simpl in Hle. lia.
Qed.

Lemma update_cards_stores am_config w r w' :
  update_cards ignorecase modify_filters am_config w = (r, w') →
  am_db w' = am_db w
  ∧ col_tag_registry (col w')
    = tag_add (tag_known am_config)
        (tag_add (tag_not_ready am_config)
           (tag_add (tag_ready am_config) (col_tag_registry (col w))))
  ∧ (r ≠ Ok () →
     col_cards (col w') = col_cards (col w)
     ∧ col_notes (col w') = col_notes (col w)).
Proof.
  unfold update_cards. intros H.
  do 5 (erewrite Op_bind_Ok_left in H by reflexivity).
  match type of H with
  | (_ ≫= _) ?w0 = _ => set (w1 := w0) in *
  end.
  pose proof (readonly_update_filters_loop ignorecase am_config (am_db w)
                (get_card_morph_map_cache (am_db w)) (get_morph_cache (am_db w))
                (get_morph_priority (am_db w) am_config) modify_filters
                ([], []) w1) as Hro.
  apply Op_bind_inv in H as [(e & Hloop & ->)|([cards notes] & w2 & Hloop & H)];
    rewrite Hloop in Hro; destruct Hro as [Hdb Hcol]; simpl in Hdb, Hcol.
  - split; [done|]. split; [by rewrite Hcol|]. intros _. by rewrite Hcol.
  - simpl in H. injection H as <- <-. split; [done|]. simpl.
    split; [by rewrite Hcol|]. done.
Qed.

(** The queue updater never writes the cache tables, and the first thing
    it writes to the collection is the tag registry, where it registers
    the ready, the not-ready and the known tag before it reads a card.
    When it raises, that is all it has written: no card and no note. *)
Theorem update_cards_failure_writes_only_tags am_config w r w' :
  update_cards ignorecase modify_filters am_config w = (r, w') →
  am_db w' = am_db w
  ∧ col_tag_registry (col w')
    = tag_add (tag_known am_config)
        (tag_add (tag_not_ready am_config)
           (tag_add (tag_ready am_config) (col_tag_registry (col w))))
  ∧ (r ≠ Ok () →
     col_cards (col w') = col_cards (col w)
     ∧ col_notes (col w') = col_notes (col w)).
Proof. apply update_cards_stores. Qed.

End QueueOrder.

Lemma easier_new_cards_come_first_witness :
  cd_due {| cd_nid := 11; cd_type := 0; cd_due := 4 |}
  < cd_due {| cd_nid := 13; cd_type := 0; cd_due := 5 |}.
Proof.
  apply (easier_new_cards_come_first ascii_ignorecase [sample_filter]
           (sample_config true false) sample_world
           (update_cards ascii_ignorecase [sample_filter]
              (sample_config true false) sample_world).2
           1 3 _ _ 500001 [py "inu"] 1000003 [py "inu"; py "tori"]).
  - vm_compute; reflexivity.
  - vm_compute. apply list_elem_of_here.
  - vm_compute. do 2 apply list_elem_of_further. apply list_elem_of_here.
  - vm_compute; reflexivity.
  - vm_compute; reflexivity.
  - reflexivity.
  - reflexivity.
  - vm_compute; reflexivity.
  - vm_compute; reflexivity.
  - lia.
Defined.

Lemma update_cards_failure_writes_only_tags_witness :
  let w' := (update_cards ascii_ignorecase [unset_filter]
               (sample_config true false) sample_world).2 in
  am_db w' = sample_db
  ∧ col_tag_registry (col w') = [py "am-ready"; py "am-not-ready"; py "am-known"]
  ∧ col_cards (col w') = col_cards sample_collection
  ∧ col_notes (col w') = col_notes sample_collection.
Proof.
  destruct (update_cards_failure_writes_only_tags ascii_ignorecase
              [unset_filter] (sample_config true false) sample_world
              (Raise AssertionError)
              (update_cards ascii_ignorecase [unset_filter]
                 (sample_config true false) sample_world).2)
    as (Hdb & Htags & Hcol).
  - vm_compute; reflexivity.
  - split; [exact Hdb|]. split; [rewrite Htags; reflexivity|].
    apply Hcol. discriminate.
Defined.

(** ** The cards of a note type *)

Lemma odict_set_keys {V} k (v : V) d :
  (odict_set k v d).*1 = if decide (k ∈ d.*1) then d.*1 else d.*1 ++ [k].
Proof.
  induction d as [|[k0 v0] d IH].
  - by destruct (decide (k ∈ ([] : list (Z * V)).*1)) as [?%elem_of_nil|].
  - cbn [odict_set]. destruct (decide (k = k0)) as [->|Hne].
    + rewrite !fmap_cons. cbn [fst].
      rewrite decide_True; [done|]. apply list_elem_of_here.
    + rewrite !fmap_cons, IH. cbn [fst].
      destruct (decide (k ∈ d.*1)) as [Hin|Hnin].
      * rewrite decide_True; [done|]. by apply list_elem_of_further.
      * rewrite decide_False; [done|]. intros [?|?]%elem_of_cons; done.
Qed.

Lemma odict_set_NoDup {V} k (v : V) d : NoDup d.*1 → NoDup (odict_set k v d).*1.
Proof.
  intros Hd. rewrite odict_set_keys. destruct (decide _); [done|].
  apply NoDup_app. split; [done|]. split; [|apply NoDup_singleton].
  intros x Hx ->%list_elem_of_singleton. done.
Qed.

Lemma odict_set_elem_of {V} k (v : V) d k' v' :
  NoDup d.*1 →
  (k', v') ∈ odict_set k v d ↔ (k' = k ∧ v' = v) ∨ (k' ≠ k ∧ (k', v') ∈ d).
Proof.
  induction d as [|[k0 v0] d IH]; simpl; intros Hd.
  - rewrite list_elem_of_singleton, elem_of_nil. split.
    + intros [= -> ->]. by left.
    + intros [[-> ->]|[_ []]]. done.
  - apply NoDup_cons in Hd as [Hk0 Hd].
    destruct (decide (k = k0)) as [<-|Hne]; rewrite !elem_of_cons.
    + split.
      * intros [[= -> ->]|Hin]; [by left|]. right. split; [|by right].
        intros ->. apply Hk0. apply list_elem_of_fmap. by exists (k, v').
      * intros [[-> ->]|[Hne [[= -> ->]|Hin]]]; [by left|done|by right].
    + rewrite IH by done. split.
      * intros [[= -> ->]|[[-> ->]|[Hne' Hin]]].
        -- right. split; [done|]. by left.
        -- by left.
        -- right. split; [done|]. by right.
      * intros [[-> ->]|[Hne' [[= -> ->]|Hin]]].
        -- right. by left.
        -- by left.
        -- right. right. by split.
Qed.

Lemma odict_fold (rows : list CardRow) :
  let d := foldl (λ d row, odict_set (cr_card_id row) row d) [] rows in
  NoDup d.*1
  ∧ ∀ id row, (id, row) ∈ d
              ↔ last (filter (λ r, cr_card_id r = id) rows) = Some row.
Proof.
  induction rows as [|r rows IH] using rev_ind; simpl.
  - split; [constructor|]. intros id row. rewrite elem_of_nil. done.
  - destruct IH as [Hnd IH]. rewrite foldl_app. simpl.
    split; [by apply odict_set_NoDup|]. intros id row.
    rewrite odict_set_elem_of by done. rewrite IH.
    rewrite filter_app, filter_cons, filter_nil.
    destruct (decide (cr_card_id r = id)) as [<-|Hne].
    + rewrite last_snoc. split.
      * intros [[_ ->]|[? _]]; done.
      * intros [= ->]. by left.
    + rewrite app_nil_r. split.
      * by intros [[-> _]|[_ ?]].
      * intros H. right. split; [done|]. done.
Qed.

Lemma cards_data_dict_rows db note_type_id :
  let rows := filter (λ row, cr_note_type_id row = Some note_type_id) (Cards db) in
  NoDup (map fst (get_am_cards_data_dict db note_type_id))
  ∧ (∀ id row,
       (id, row) ∈ get_am_cards_data_dict db note_type_id
       ↔ last (filter (λ r, cr_card_id r = id) rows) = Some row)
  ∧ (∀ id, id ∈ map fst (get_am_cards_data_dict db note_type_id)
           ↔ id ∈ map cr_card_id rows).
Proof.
  intros rows. unfold get_am_cards_data_dict. fold rows.
  destruct (odict_fold rows) as [Hnd Hd]. split; [done|]. split; [done|].
  intros id. rewrite !list_elem_of_fmap. split.
  - intros ([id' row] & -> & Hin). simpl. apply Hd in Hin.
    apply last_Some in Hin as [l' Hl'].
    assert (Hrow : row ∈ filter (λ r, cr_card_id r = id') rows).
    { rewrite Hl'. apply elem_of_app. right. apply list_elem_of_here. }
    apply list_elem_of_filter in Hrow as [Hid Hrow]. by exists row.
  - intros (row & -> & Hin).
    assert (Hf : row ∈ filter (λ r, cr_card_id r = cr_card_id row) rows).
    { by apply list_elem_of_filter. }
    destruct (last (filter (λ r, cr_card_id r = cr_card_id row) rows))
      as [row'|] eqn:Hlast.
    + exists (cr_card_id row, row'). split; [done|]. by apply Hd.
    + apply last_None in Hlast. rewrite Hlast in Hf. by apply elem_of_nil in Hf.
Qed.

(** The dict of a note type's cards has each card id once and maps an id to
    the last row of that note type with the id in the Cards table; a card
    without such a row is not in it. *)
Theorem cards_data_dict_last_row_wins db note_type_id :
  let rows := filter (λ row, cr_note_type_id row = Some note_type_id) (Cards db) in
  NoDup (map fst (get_am_cards_data_dict db note_type_id))
  ∧ (∀ id row,
       (id, row) ∈ get_am_cards_data_dict db note_type_id
       ↔ last (filter (λ r, cr_card_id r = id) rows) = Some row)
  ∧ (∀ id, id ∈ map fst (get_am_cards_data_dict db note_type_id)
           ↔ id ∈ map cr_card_id rows).
Proof. apply cards_data_dict_rows. Qed.

(** ** The cache builder *)

Section CacheBuilder.

Variable read_filters : list AnkiMorphsConfigFilter.
Variable reader :
  AnkiMorphsConfigFilter → option Z → list str → bool → Collection →
  list (Z * AnkiCardData).
Variable tokenizer :
  str → AnkiMorphsConfig → AnkiMorphsConfigFilter → option (list Morpheme).
Variable am_config : AnkiMorphsConfig.

Lemma cache_card_tables config_filter card_id card_data data :
  let d := cache_card tokenizer am_config config_filter card_id card_data data in
  d.1.1 = data.1.1 ++ [card_row_of (config_filter, (card_id, card_data))]
  ∧ d.2 = data.2
          ++ map_rows_of tokenizer am_config (config_filter, (card_id, card_data)).
Proof.
  destruct data as [[cards morphs] edges]. unfold cache_card, map_rows_of. simpl.
  destruct (tokenizer _ _ _); simpl; [done|]. by rewrite app_nil_r.
Qed.

Lemma cache_cards_loop_Ok config_filter cards counter data w d w' :
  cache_cards_loop tokenizer am_config config_filter cards counter data w
    = (Ok d, w') →
  d.1.1 = data.1.1 ++ map (λ kv, card_row_of (config_filter, kv)) cards
  ∧ d.2 = data.2
          ++ concat (map (λ kv, map_rows_of tokenizer am_config (config_filter, kv))
                         cards).
Proof.
  revert counter data w. induction cards as [|[card_id card_data] cards IH];
    intros counter data w.
  - intros [= -> _]. simpl. by rewrite !app_nil_r.
  - simpl. intros H. apply Op_bind_Ok in H as ([] & w1 & _ & H).
    apply IH in H as [-> ->].
    destruct (cache_card_tables config_filter card_id card_data data) as [-> ->].
    by rewrite <- !app_assoc.
Qed.

Lemma cache_filters_loop_Ok filters data w d w' :
  cache_filters_loop reader tokenizer am_config filters data w = (Ok d, w') →
  d.1.1 = data.1.1 ++ map card_row_of (cache_jobs reader am_config filters (col w))
  ∧ d.2 = data.2
          ++ concat (map (map_rows_of tokenizer am_config)
                         (cache_jobs reader am_config filters (col w))).
Proof.
  revert data w. induction filters as [|f filters IH]; intros data w.
  - intros [= -> _]. simpl. by rewrite !app_nil_r.
  - simpl. destruct (decide _); [discriminate|]. intros H.
    erewrite Op_bind_Ok_left in H by reflexivity.
    apply Op_bind_Ok in H as (d1 & w1 & Hloop & H).
    pose proof (readonly_cache_cards_loop tokenizer am_config f
                  (reader f (note_type_id f) (tags f)
                     (parse_ignore_suspended_cards_content am_config) (col w))
                  0 data w) as Hro.
    rewrite Hloop in Hro. destruct Hro as [_ Hcol]. simpl in Hcol.
    apply cache_cards_loop_Ok in Hloop as [H1 H2].
    apply IH in H as [-> ->]. rewrite H1, H2, Hcol.
    unfold cache_jobs. simpl.
    rewrite !map_app, concat_app, !map_map, <- !app_assoc. done.
Qed.

Lemma cache_anki_data_tables w w' :
  cache_anki_data read_filters reader tokenizer am_config w = (Ok (), w') →
  Cards (am_db w')
  = map card_row_of (cache_jobs reader am_config read_filters (col w))
  ∧ Card_Morph_Map (am_db w')
    = concat (map (map_rows_of tokenizer am_config)
                  (cache_jobs reader am_config read_filters (col w)))
  ∧ col w' = col w.
Proof.
  unfold cache_anki_data. intros H.
  do 2 (erewrite Op_bind_Ok_left in H by reflexivity).
  match type of H with
  | (_ ≫= _) ?w0 = _ => set (w1 := w0) in *
  end.
  apply Op_bind_Ok in H as ([[cards morphs] edges] & w2 & Hloop & H).
  pose proof (readonly_cache_filters_loop reader tokenizer am_config
                read_filters ([], [], []) w1) as Hro.
  rewrite Hloop in Hro. destruct Hro as [Hdb Hcol]. simpl in Hdb, Hcol.
  apply cache_filters_loop_Ok in Hloop as [Hc He]. simpl in Hc, He.
  simpl in H. injection H as <-. simpl. rewrite Hdb. simpl.
  rewrite Hc, He. done.
Qed.

(** After a successful run the Cards table has one row for every card the
    reader handed over, filter after filter and also for a card whose
    tokenizer is not found, and the Card_Morph_Map table has one row per
    morpheme of each of these cards, in the same order; the collection is
    as before. *)
Theorem cache_tables_built w w' :
  cache_anki_data read_filters reader tokenizer am_config w = (Ok (), w') →
  Cards (am_db w')
  = map card_row_of (cache_jobs reader am_config read_filters (col w))
  ∧ Card_Morph_Map (am_db w')
    = concat (map (map_rows_of tokenizer am_config)
                  (cache_jobs reader am_config read_filters (col w)))
  ∧ col w' = col w.
Proof. apply cache_anki_data_tables. Qed.

Lemma elem_of_concat {A} (x : A) (ls : list (list A)) :
  x ∈ concat ls ↔ ∃ l, x ∈ l ∧ l ∈ ls.
Proof.
  induction ls as [|l0 ls IH]; simpl.
  - split; [by intros ?%elem_of_nil|]. by intros (l & _ & ?%elem_of_nil).
  - rewrite elem_of_app, IH. split.
    + intros [H|(l & Hx & Hl)].
      * exists l0. split; [done|]. apply list_elem_of_here.
      * exists l. split; [done|]. by apply list_elem_of_further.
    + intros (l & Hx & [->|Hl]%elem_of_cons); [by left|]. right. by exists l.
Qed.

Lemma map_rows_of_id job row :
  row ∈ map_rows_of tokenizer am_config job → cm_card_id row = job.2.1.
Proof.
  unfold map_rows_of. destruct (tokenizer _ _ _); [|by intros ?%elem_of_nil].
  by intros (morph & -> & _)%list_elem_of_fmap.
Qed.

Lemma map_rows_other_card jobs id :
  Forall (λ job, job.2.1 ≠ id) jobs →
  Forall (λ row, cm_card_id row ≠ id)
         (concat (map (map_rows_of tokenizer am_config) jobs)).
Proof.
  intros Hjobs. apply Forall_forall. intros row Hrow.
  apply elem_of_concat in Hrow as (rows & Hrow & Hrows).
  apply list_elem_of_fmap in Hrows as (job & -> & Hjob).
  apply map_rows_of_id in Hrow. rewrite Hrow.
  by apply (proj1 (Forall_forall _ _) Hjobs).
Qed.

(** Writing the cache and reading it back: for a card that the reader
    hands over once in the whole run and whose tokenizer returns at least
    one morpheme, the card-morpheme map read from the fresh cache holds
    exactly the card's morphemes, in the tokenizer's order. *)
Theorem cached_card_reads_back w w' pre config_filter card_id card_data post
    morph morphs :
  cache_anki_data read_filters reader tokenizer am_config w = (Ok (), w') →
  cache_jobs reader am_config read_filters (col w)
  = pre ++ (config_filter, (card_id, card_data)) :: post →
  Forall (λ job, job.2.1 ≠ card_id) (pre ++ post) →
  tokenizer (acd_expression card_data) am_config config_filter
  = Some (morph :: morphs) →
  get_card_morph_map_cache (am_db w') !! card_id
  = Some (map entry_of_morph (morph :: morphs)).
Proof.
  intros (_ & Hmap & _)%cache_anki_data_tables Hjobs Hothers Htok.
  apply Forall_app in Hothers as [Hpre Hpost].
  rewrite Hjobs, map_app, concat_app in Hmap. simpl in Hmap.
  unfold map_rows_of at 2 in Hmap. simpl in Hmap. rewrite Htok in Hmap.
  simpl in Hmap.
  rewrite (card_morph_map_run _ card_id _ _ _ _ Hmap).
  - f_equal. simpl. f_equal. rewrite <- list_fmap_compose. done.
  - apply Forall_cons. split; [done|]. apply Forall_forall.
    by intros row (m & -> & _)%list_elem_of_fmap.
  - intros r Hr. apply last_Some in Hr as [l Hl].
    apply (proj1 (Forall_forall _ _)
                 (map_rows_other_card pre card_id Hpre)).
    rewrite Hl. apply elem_of_app. right. apply list_elem_of_here.
  - by apply map_rows_other_card.
Qed.

(** The cards the queue updater goes through for a note type are the
    cards that the cache builder has stored for the read filters of that
    note type. *)
Theorem cached_cards_are_updated w w' note_type_id' id :
  cache_anki_data read_filters reader tokenizer am_config w = (Ok (), w') →
  id ∈ map fst (get_am_cards_data_dict (am_db w') note_type_id')
  ↔ ∃ config_filter card_data,
      (config_filter, (id, card_data))
        ∈ cache_jobs reader am_config read_filters (col w)
      ∧ note_type_id config_filter = Some note_type_id'.
Proof.
  intros (Hcards & _ & _)%cache_anki_data_tables.
  destruct (cards_data_dict_rows (am_db w') note_type_id') as (_ & _ & Hkeys).
  rewrite Hkeys, Hcards, list_elem_of_fmap. split.
  - intros (row & -> & [Hnt Hrow]%list_elem_of_filter).
    apply list_elem_of_fmap in Hrow as ([f [id cd]] & -> & Hjob).
    by exists f, cd.
  - intros (f & cd & Hjob & Hnt).
    exists (card_row_of (f, (id, cd))). split; [done|].
    apply list_elem_of_filter. split; [done|].
    apply list_elem_of_fmap. by exists (f, (id, cd)).
Qed.

Lemma cache_filters_loop_succeeds filters data w :
  Forall (λ config_filter, note_type config_filter ≠ []) filters →
  Forall (λ b, b = false) (cancel_requests w) →
  ∃ d w', cache_filters_loop reader tokenizer am_config filters data w
          = (Ok d, w')
          ∧ Forall (λ b, b = false) (cancel_requests w').
Proof.
  intros Hfilters. revert data w.
  induction Hfilters as [|f filters Hf _ IH]; intros data w Hquiet.
  - by exists data, w.
  - simpl. rewrite decide_False by done.
    erewrite Op_bind_Ok_left by reflexivity.
    destruct (cache_cards_loop_no_cancel tokenizer am_config f
                (reader f (note_type_id f) (tags f)
                   (parse_ignore_suspended_cards_content am_config) (col w))
                0 data w Hquiet) as (d1 & w1 & Hloop & Hquiet1 & _).
    erewrite Op_bind_Ok_left by exact Hloop. by apply IH.
Qed.

Lemma cache_filters_loop_result filters data w r w' :
  cache_filters_loop reader tokenizer am_config filters data w = (r, w') →
  (∃ d, r = Ok d) ∨ r = Raise DefaultSettingsException
  ∨ r = Raise CancelledRecalcException.
Proof.
  revert data w. induction filters as [|f filters IH]; intros data w.
  - intros [= <- _]. left. by eexists.
  - simpl. destruct (decide _); [intros [= <- _]; right; by left|].
    intros H. erewrite Op_bind_Ok_left in H by reflexivity.
    apply Op_bind_inv in H as [(e & Hloop & ->)|(d1 & w1 & Hloop & H)].
    + apply cache_cards_loop_result in Hloop as [[d Hd]|[= ->]]; [done|].
      right. by right.
    + by eapply IH.
Qed.

(** The cache builder can only fail with the configuration error or the
    cancellation: when every read filter names a note type and the user
    never asks to cancel, it succeeds, whatever the reader and the
    tokenizer return. *)
Theorem cache_builder_failures w :
  let run := cache_anki_data read_filters reader tokenizer am_config w in
  (run.1 = Ok () ∨ run.1 = Raise DefaultSettingsException
   ∨ run.1 = Raise CancelledRecalcException)
  ∧ (Forall (λ config_filter, note_type config_filter ≠ []) read_filters →
     Forall (λ b, b = false) (cancel_requests w) →
     run.1 = Ok ()).
Proof.
  unfold cache_anki_data. split.
  - do 2 (erewrite Op_bind_Ok_left by reflexivity).
    match goal with
    | |- context [(?m ≫= ?k) ?w0] =>
        destruct (m w0) as [r w1] eqn:Hloop;
        pose proof (cache_filters_loop_result _ _ _ _ _ Hloop) as Hr
    end.
    destruct Hr as [[[[cards morphs] edges] ->] | [-> | ->]].
    + erewrite Op_bind_Ok_left by exact Hloop. by left.
    + erewrite Op_bind_Raise_left by exact Hloop. right. by left.
    + erewrite Op_bind_Raise_left by exact Hloop. right. by right.
  - intros Hfilters Hquiet.
    do 2 (erewrite Op_bind_Ok_left by reflexivity).
    edestruct (cache_filters_loop_succeeds read_filters ([], [], []))
      as ([[cards morphs] edges] & w1 & Hloop & _); [done| |].
    2: { erewrite Op_bind_Ok_left by exact Hloop. done. }
    done.
Qed.

End CacheBuilder.

Lemma cache_tables_built_witness :
  map cr_card_id
      (Cards (am_db (cache_anki_data [sample_filter] two_cards_reader
                       whole_text_tokenizer (sample_config true false)
                       quiet_world).2))
  = [1; 2].
Proof.
  destruct (cache_tables_built [sample_filter] two_cards_reader
              whole_text_tokenizer (sample_config true false) quiet_world
              (cache_anki_data [sample_filter] two_cards_reader
                 whole_text_tokenizer (sample_config true false)
                 quiet_world).2) as [Hcards _].
  - vm_compute; reflexivity.
  - rewrite Hcards. reflexivity.
Defined.

Lemma cached_card_reads_back_witness :
  get_card_morph_map_cache
    (am_db (cache_anki_data [sample_filter] two_cards_reader
              whole_text_tokenizer (sample_config true false) quiet_world).2)
    !! 2
  = Some [plain_entry "inu"].
Proof.
  apply (cached_card_reads_back [sample_filter] two_cards_reader
           whole_text_tokenizer (sample_config true false) quiet_world _
           [(sample_filter, (1, sample_card_data "neko"))]
           sample_filter 2 (sample_card_data "inu") []
           {| norm := py "inu"; base := py "inu"; inflected := py "inu" |} []).
  - vm_compute; reflexivity.
  - reflexivity.
  - apply Forall_cons. split; [done|]. constructor.
  - reflexivity.
Defined.

Lemma cached_cards_are_updated_witness :
  2 ∈ map fst
        (get_am_cards_data_dict
           (am_db (cache_anki_data [sample_filter] two_cards_reader
                     whole_text_tokenizer (sample_config true false)
                     quiet_world).2) 100).
Proof.
  apply (cached_cards_are_updated [sample_filter] two_cards_reader
           whole_text_tokenizer (sample_config true false) quiet_world _ 100 2).
  - vm_compute; reflexivity.
  - exists sample_filter, (sample_card_data "inu"). split; [|done].
    apply list_elem_of_further, list_elem_of_here.
Defined.

Lemma cache_builder_failures_witness :
  (cache_anki_data [sample_filter] two_cards_reader whole_text_tokenizer
     (sample_config true false) quiet_world).1
  = Ok ().
Proof.
  apply (proj2 (cache_builder_failures [sample_filter] two_cards_reader
                  whole_text_tokenizer (sample_config true false) quiet_world)).
  - apply Forall_cons. split; [done|]. constructor.
  - constructor.
Defined.

(** ** A whole run *)

Section WholeRun.

Variable ignorecase : N → N → bool.
Variable read_filters modify_filters : list AnkiMorphsConfigFilter.
Variable reader :
  AnkiMorphsConfigFilter → option Z → list str → bool → Collection →
  list (Z * AnkiCardData).
Variable tokenizer :
  str → AnkiMorphsConfig → AnkiMorphsConfigFilter → option (list Morpheme).
Variable am_config : AnkiMorphsConfig.

Lemma cache_anki_data_col w :
  col (cache_anki_data read_filters reader tokenizer am_config w).2 = col w.
Proof.
  unfold cache_anki_data.
  do 2 (erewrite Op_bind_Ok_left by reflexivity).
  match goal with
  | |- context [(?m ≫= ?k) ?w0] =>
      destruct (m w0) as [r w1] eqn:Hloop;
      pose proof (readonly_cache_filters_loop reader tokenizer am_config
                    read_filters ([], [], []) w0) as Hro
  end.
  rewrite Hloop in Hro. destruct Hro as [_ Hcol]. simpl in Hcol.
  destruct r as [[[cards morphs] edges]|e].
  - erewrite Op_bind_Ok_left by exact Hloop. simpl. done.
  - erewrite Op_bind_Raise_left by exact Hloop. simpl. done.
Qed.

(** A run that fails has changed no card and no note of the collection,
    whichever step raised. *)
Theorem failed_recalc_keeps_collection w e w' :
  recalc_background_op ignorecase read_filters modify_filters reader tokenizer
    am_config w = (Raise e, w') →
  col_cards (col w') = col_cards (col w)
  ∧ col_notes (col w') = col_notes (col w).
Proof.
  unfold recalc_background_op. intros H.
  pose proof (cache_anki_data_col w) as Hcache.
  apply Op_bind_inv in H as [(e' & Hc & _)|([] & w1 & Hc & H)];
    rewrite Hc in Hcache; simpl in Hcache.
  - by rewrite Hcache.
  - apply update_cards_stores in H as (_ & _ & H).
    destruct H as [-> ->]; [done|]. by rewrite Hcache.
Qed.

End WholeRun.

Lemma failed_recalc_keeps_collection_witness :
  col_cards (col (recalc_background_op ascii_ignorecase [sample_filter]
                    [unset_filter] two_cards_reader whole_text_tokenizer
                    (sample_config true false) sample_world).2)
  = col_cards sample_collection.
Proof.
  apply (failed_recalc_keeps_collection ascii_ignorecase [sample_filter]
           [unset_filter] two_cards_reader whole_text_tokenizer
           (sample_config true false) sample_world AssertionError).
  vm_compute; reflexivity.
Defined.

(** ** Polling for cancellation *)

Lemma asks_cons counter n :
  asks counter (S n)
  = ((if decide (counter mod 1000 = 0)%nat then 1 else 0) + asks (S counter) n)%nat.
Proof.
  unfold asks. simpl seq. rewrite filter_cons.
  by destruct (decide (counter mod 1000 = 0)%nat).
Qed.

Lemma asks_closed_form n : asks 0 n = ((n + 999) / 1000)%nat.
Proof.
  unfold asks. induction n as [|n IH]; [done|].
  rewrite seq_S, filter_app, length_app, IH.
  change (0 + n)%nat with n. rewrite filter_cons, filter_nil.
  pose proof (Nat.div_mod_eq (n + 999) 1000) as H1.
  pose proof (Nat.mod_upper_bound (n + 999) 1000 ltac:(lia)) as H1'.
  pose proof (Nat.div_mod_eq (S n + 999) 1000) as H2.
  pose proof (Nat.mod_upper_bound (S n + 999) 1000 ltac:(lia)) as H2'.
  pose proof (Nat.div_mod_eq n 1000) as H3.
  pose proof (Nat.mod_upper_bound n 1000 ltac:(lia)) as H3'.
  destruct (decide (n mod 1000 = 0)%nat) as [H0|H0];
    cbn [length]; lia.
Qed.

Section Polling.

Variable tokenizer :
  str → AnkiMorphsConfig → AnkiMorphsConfigFilter → option (list Morpheme).
Variable am_config : AnkiMorphsConfig.
Variable config_filter : AnkiMorphsConfigFilter.

Lemma checkpoint_skipped counter w :
  (counter mod 1000 ≠ 0)%nat → checkpoint counter w = (Ok (), w).
Proof.
  intros H. unfold checkpoint.
  by destruct (Nat.eqb_spec (counter mod 1000) 0).
Qed.

Lemma checkpoint_asks counter w :
  (counter mod 1000 = 0)%nat →
  checkpoint counter w
  = match cancel_requests w with
    | [] => (Ok (), w)
    | answer :: rest =>
        (if answer then Raise CancelledRecalcException else Ok (),
         {| am_db := am_db w; col := col w; cancel_requests := rest |})
    end.
Proof.
  intros H. unfold checkpoint. rewrite H. simpl.
  unfold mbind, Op_bind, want_cancel.
  destruct (cancel_requests w) as [|[] rest]; done.
Qed.

Lemma cache_cards_loop_asks cards counter data w :
  let asked := asks counter (length cards) in
  let run := cache_cards_loop tokenizer am_config config_filter cards counter
               data w in
  (Forall (λ answer, answer = false) (take asked (cancel_requests w)) →
   (∃ d, run.1 = Ok d)
   ∧ cancel_requests run.2 = drop asked (cancel_requests w))
  ∧ (∀ j, (j < asked)%nat →
          Forall (λ answer, answer = false) (take j (cancel_requests w)) →
          cancel_requests w !! j = Some true →
          run.1 = Raise CancelledRecalcException
          ∧ cancel_requests run.2 = drop (S j) (cancel_requests w)).
Proof.
  cbv zeta. revert counter data w.
  induction cards as [|[card_id card_data] cards IH]; intros counter data w.
  - split; [|intros j Hj; unfold asks in Hj; simpl in Hj; lia].
    intros _. split; [by eexists|done].
  - simpl length. rewrite asks_cons. simpl cache_cards_loop.
    destruct (decide (counter mod 1000 = 0)%nat) as [Hmod|Hmod].
    + pose proof (checkpoint_asks counter w Hmod) as Hcheck.
      destruct (cancel_requests w) as [|answer rest] eqn:Hreq.
      * erewrite Op_bind_Ok_left by exact Hcheck.
        destruct (IH (S counter)
                    (cache_card tokenizer am_config config_filter card_id
                       card_data data) w) as [IHno _].
        rewrite Hreq in IHno. rewrite take_nil, drop_nil in IHno.
        split; [|by intros j _ _ Hj].
        intros _. destruct IHno as [Hd Hrest]; [constructor|].
        split; [done|]. by rewrite Hrest, drop_nil.
      * set (w1 := {| am_db := am_db w; col := col w;
                      cancel_requests := rest |}) in *.
        destruct (IH (S counter)
                    (cache_card tokenizer am_config config_filter card_id
                       card_data data) w1) as [IHno IHyes].
        simpl in IHno, IHyes. split.
        -- simpl. intros [-> Hall]%Forall_cons.
           erewrite Op_bind_Ok_left by exact Hcheck.
           by destruct (IHno Hall) as [Hd ->].
        -- intros [|j] Hj Hall Hyes; simpl in Hyes.
           ++ injection Hyes as ->.
              erewrite Op_bind_Raise_left by exact Hcheck. done.
           ++ simpl in Hall. apply Forall_cons in Hall as [-> Hall].
              erewrite Op_bind_Ok_left by exact Hcheck.
              by destruct (IHyes j ltac:(lia) Hall Hyes) as [-> ->].
    + erewrite Op_bind_Ok_left by (by apply checkpoint_skipped).
      simpl. apply IH.
Qed.

(** The caching loop asks whether the user wants to cancel at the cards
    number 0, 1000, 2000, ... of a filter and at no other: over [n] cards
    it asks at most [(n + 999) / 1000] times.  If all these answers are
    no it runs to the end, having asked that many times; if answer [j] is
    the first yes it raises [CancelledRecalcException], having asked
    [j + 1] times. *)
Theorem cancel_asked_every_1000_cards cards data w :
  let asked := ((length cards + 999) / 1000)%nat in
  let run := cache_cards_loop tokenizer am_config config_filter cards 0
               data w in
  (Forall (λ answer, answer = false) (take asked (cancel_requests w)) →
   (∃ d, run.1 = Ok d)
   ∧ cancel_requests run.2 = drop asked (cancel_requests w))
  ∧ (∀ j, (j < asked)%nat →
          Forall (λ answer, answer = false) (take j (cancel_requests w)) →
          cancel_requests w !! j = Some true →
          run.1 = Raise CancelledRecalcException
          ∧ cancel_requests run.2 = drop (S j) (cancel_requests w)).
Proof.
  cbv zeta. rewrite <- asks_closed_form. apply cache_cards_loop_asks.
Qed.

End Polling.

Lemma cancel_asked_every_1000_cards_witness :
  let run := cache_cards_loop whole_text_tokenizer (sample_config true false)
               sample_filter (replicate 1001 (1, sample_card_data "neko"))
               0 ([], [], [])
               {| am_db := empty_db; col := empty_collection;
                  cancel_requests := [false; true; true] |} in
  run.1 = Raise CancelledRecalcException ∧ cancel_requests run.2 = [true].
Proof.
  apply (proj2 (cancel_asked_every_1000_cards whole_text_tokenizer
                  (sample_config true false) sample_filter
                  (replicate 1001 (1, sample_card_data "neko")) ([], [], [])
                  {| am_db := empty_db; col := empty_collection;
                     cancel_requests := [false; true; true] |}) 1%nat).
  - vm_compute. lia.
  - repeat constructor.
  - reflexivity.
Defined.

